(** * Donachain: campaign ledger, certificate registry and ballot registry

    A shallow embedding of the three Solidity contracts of the repository
    ([DonachainNFT], [Voting], [DonationManager]) and the properties their
    specification states about them.

    Conventions of the embedding.
    - [uint256] values are integers in [Z]; every checked Solidity 0.8
      operation that can overflow is written with [checked_add], which
      reverts ([ArithmeticOverflow]) above [MAX_UINT256].
    - An [address] is an integer, [0] being [address(0)].
    - A [mapping(K => V)] is a [gmap K V]; a key that was never written reads
      as the zero value of [V].  A [mapping(K => bool)] into which only
      [true] is ever written is the [gset K] of the keys mapped to [true].
    - A call that reverts returns [Err e]; the caller's state is then the one
      before the call.  [e] names the failed [require] (see [Error]).
    - Contracts of the chain are values: external calls take the callee's
      state as input and give its new state back.
    - Every public operation runs to completion or reverts as a whole.  The
      code a [transfer] triggers at the recipient is a parameter of the
      ledger ([Recipients]); events are not part of the state and are left
      out. *)

From stdpp Require Import base numbers option list gmap sets strings pretty sorting.
From Stdlib Require Import ZArith Lia Sorted Ascii.

Local Open Scope Z_scope.

(** ** Execution substrate *)

Definition address : Type := Z.

Definition MAX_UINT256 : Z := 2 ^ 256 - 1.

(** The failure kinds of the three contracts.  Each constructor stands for
    the [require] messages (or library reverts) listed next to it. *)
Inductive Error : Type :=
  | Unauthorized        (* Ownable: caller is not the owner; "Hanya DonationManager yang dapat memanggil" *)
  | NotFound            (* "Kampanye tidak ada"; ERC721 ownerOf / "Token tidak ada" of an unminted id *)
  | InvalidInput        (* empty title or description, zero amount or target, null address, deadline not in the future *)
  | CampaignInactive    (* "Kampanye tidak aktif" *)
  | DeadlinePassed      (* "Kampanye sudah melewati deadline" *)
  | InsufficientBalance (* "Saldo tidak cukup" *)
  | NotOwner            (* "Anda bukan pemilik NFT ini" *)
  | AlreadyUsed         (* "NFT ini sudah digunakan untuk voting" *)
  | CampaignMismatch    (* "NFT ini bukan tiket untuk kampanye ini" *)
  | Reentrant           (* ReentrancyGuard: nested entry *)
  | ArithmeticOverflow  (* Solidity 0.8 checked arithmetic, Panic(0x11) *)
  | InvalidReceiver     (* ERC721: mint or transfer to address(0) *)
  | IncorrectOwner      (* ERC721: [from] does not own the token; mint of an id that exists *)
  | CallFailed          (* external call to an address without the expected contract *)
  | TransferRejected    (* the recipient of [transfer] reverted *)
  | PlainTransfer.      (* receive(): "Gunakan fungsi donate()" *)

Inductive Result (A : Type) : Type :=
  | OK (a : A)
  | Err (e : Error).
Arguments OK {A} a.
Arguments Err {A} e.

Global Instance Result_ret : MRet Result := @OK.
Global Instance Result_bind : MBind Result :=
  λ A B f m, match m with OK a => f a | Err e => Err e end.
Global Instance Result_fmap : FMap Result :=
  λ A B f m, match m with OK a => OK (f a) | Err e => Err e end.

Definition succeeds {A} (r : Result A) : Prop := ∃ a, r = OK a.

Definition require (P : Prop) `{Decision P} (e : Error) : Result unit :=
  if decide P then OK tt else Err e.

Definition checked_add (a b : Z) : Result Z :=
  if decide (a + b ≤ MAX_UINT256) then OK (a + b) else Err ArithmeticOverflow.

(** What a call sees of its transaction and block. *)
Record Env : Type := mkEnv {
  msg_sender : address;
  block_timestamp : Z;
  block_prevrandao : Z;
  prev_blockhash : Z        (* blockhash(block.number - 1) *)
}.

Definition with_sender (a : address) (e : Env) : Env :=
  mkEnv a (block_timestamp e) (block_prevrandao e) (prev_blockhash e).

(** [keccak256(abi.encodePacked(timestamp, prevrandao, donor, tokenId, nonce))]
    read as a [uint256]: the hash is a parameter of the development. *)
Class Keccak : Type :=
  keccak256_packed : Z → Z → address → Z → Z → Z.

(** [for (uint256 i = lo; i < hi; i++) body] over a loop state [S]. *)
Definition for_loop {S : Type} (lo hi : nat) (body : nat → S → S) (s : S) : S :=
  foldl (λ acc i, body i acc) s (seq lo (hi - lo)).

(** ** Certificate Registry: contracts/DonachainNFT.sol *)

Module DonachainNFT.

Inductive Tier : Type := Bronze | Silver | Gold | Special.

Global Instance Tier_eq_dec : EqDecision Tier.
Proof. solve_decision. Defined.

Definition SILVER_THRESHOLD : Z := 50000000000000000.   (* 0.05 ether *)
Definition GOLD_THRESHOLD : Z := 100000000000000000.    (* 0.1 ether *)
Definition SPECIAL_CHANCE : Z := 500.

Record DonationDetail : Type := mkDetail {
  dd_donor : address;
  dd_amount : Z;
  dd_campaignId : Z;
  dd_campaignTitle : string;
  dd_timestamp : Z;
  dd_txHash : Z;
  dd_tier : Tier
}.

Definition zero_detail : DonationDetail := mkDetail 0 0 0 EmptyString 0 0 Bronze.

(** Storage of the contract.  [_owners] is the ERC721 owner table of
    OpenZeppelin (absent = address(0) = not minted); [owner] is Ownable's. *)
Record state : Type := mkState {
  owner : address;
  _owners : gmap Z address;
  _nextTokenId : Z;
  _randomNonce : Z;
  donationManager : address;
  donationDetails : gmap Z DonationDetail;
  donorTokens : gmap address (list Z)
}.

Definition set_owner (x : address) (s : state) : state :=
  mkState x (_owners s) (_nextTokenId s) (_randomNonce s) (donationManager s)
          (donationDetails s) (donorTokens s).
Definition set_owners (x : gmap Z address) (s : state) : state :=
  mkState (owner s) x (_nextTokenId s) (_randomNonce s) (donationManager s)
          (donationDetails s) (donorTokens s).
Definition set_nextTokenId (x : Z) (s : state) : state :=
  mkState (owner s) (_owners s) x (_randomNonce s) (donationManager s)
          (donationDetails s) (donorTokens s).
Definition set_randomNonce (x : Z) (s : state) : state :=
  mkState (owner s) (_owners s) (_nextTokenId s) x (donationManager s)
          (donationDetails s) (donorTokens s).
Definition set_donationManager (x : address) (s : state) : state :=
  mkState (owner s) (_owners s) (_nextTokenId s) (_randomNonce s) x
          (donationDetails s) (donorTokens s).
Definition set_donationDetails (x : gmap Z DonationDetail) (s : state) : state :=
  mkState (owner s) (_owners s) (_nextTokenId s) (_randomNonce s) (donationManager s)
          x (donorTokens s).
Definition set_donorTokens (x : gmap address (list Z)) (s : state) : state :=
  mkState (owner s) (_owners s) (_nextTokenId s) (_randomNonce s) (donationManager s)
          (donationDetails s) x.

Definition constructor (initialOwner : address) : state :=
  mkState initialOwner ∅ 1 0 0 ∅ ∅.

Definition onlyOwner (e : Env) (s : state) : Result unit :=
  require (msg_sender e = owner s) Unauthorized.

Definition transferOwnership (e : Env) (newOwner : address) (s : state) : Result state :=
  onlyOwner e s;;
  require (newOwner ≠ 0) InvalidInput;;
  OK (set_owner newOwner s).

Definition setDonationManager (e : Env) (_donationManager : address) (s : state)
  : Result state :=
  onlyOwner e s;;
  require (_donationManager ≠ 0) InvalidInput;;
  OK (set_donationManager _donationManager s).

(** The draw in [0, 10000); the nonce is incremented first. *)
Definition _generateRandom `{Keccak} (e : Env) (donor : address) (tokenId : Z) (s : state)
  : Result (Z * state) :=
  nonce ← checked_add (_randomNonce s) 1;
  let s := set_randomNonce nonce s in
  OK (keccak256_packed (block_timestamp e) (block_prevrandao e) donor tokenId nonce
        `mod` 10000, s).

(** The amount-based part of [_determineTier]. *)
Definition tier_of_amount (amount : Z) : Tier :=
  if decide (GOLD_THRESHOLD ≤ amount) then Gold
  else if decide (SILVER_THRESHOLD ≤ amount) then Silver
  else Bronze.

Definition tier_of_draw (random amount : Z) : Tier :=
  if decide (random < SPECIAL_CHANCE) then Special else tier_of_amount amount.

Definition _determineTier `{Keccak} (e : Env) (amount : Z) (donor : address) (tokenId : Z)
    (s : state) : Result (Tier * state) :=
  '(random, s) ← _generateRandom e donor tokenId s;
  OK (tier_of_draw random amount, s).

(** OpenZeppelin's [_safeMint], by its effect on the owner table: it
    reverts for the null receiver and for an id that is owned already.
    The receiver hook of a contract receiver is not part of this model. *)
Definition _safeMint (to : address) (tokenId : Z) (s : state) : Result state :=
  require (to ≠ 0) InvalidReceiver;;
  require (_owners s !! tokenId = None) IncorrectOwner;;
  OK (set_owners (<[tokenId := to]> (_owners s)) s).

Definition tokens_of (s : state) (a : address) : list Z :=
  default [] (donorTokens s !! a).

Definition mintCertificate `{Keccak} (e : Env) (donor : address) (amount campaignId : Z)
    (campaignTitle : string) (txHash : Z) (s : state) : Result (Z * state) :=
  require (msg_sender e = donationManager s) Unauthorized;;
  let tokenId := _nextTokenId s in
  next ← checked_add tokenId 1;
  let s := set_nextTokenId next s in
  '(tier, s) ← _determineTier e amount donor tokenId s;
  s ← _safeMint donor tokenId s;
  let s := set_donationDetails
             (<[tokenId := mkDetail donor amount campaignId campaignTitle
                                    (block_timestamp e) txHash tier]>
                (donationDetails s)) s in
  let s := set_donorTokens (<[donor := tokens_of s donor ++ [tokenId]]> (donorTokens s)) s in
  OK (tokenId, s).

(** ERC721 [ownerOf]: reverts for an id that was never minted. *)
Definition ownerOf (s : state) (tokenId : Z) : Result address :=
  match _owners s !! tokenId with
  | Some o => OK o
  | None => Err NotFound
  end.

(** The public getter of the [donationDetails] mapping: no existence check. *)
Definition donationDetails_get (s : state) (tokenId : Z) : DonationDetail :=
  default zero_detail (donationDetails s !! tokenId).

Definition getDonationDetail (s : state) (tokenId : Z) : Result DonationDetail :=
  require (is_Some (_owners s !! tokenId)) NotFound;;
  OK (donationDetails_get s tokenId).

Definition getTokensByDonor (s : state) (donor : address) : list Z := tokens_of s donor.

Definition totalSupply (s : state) : Z := _nextTokenId s - 1.

(** OpenZeppelin's [Strings.toString] of a [uint256]: its decimal digits. *)
Definition toString (n : Z) : string := pretty (Z.to_N n).

(** The loop [while (bytes(decimalStr).length < 4)] of [_formatEther],
    which puts a zero in front; [fuel] bounds the number of rounds. *)
Fixpoint pad_loop (fuel : nat) (decimalStr : string) : string :=
  match fuel with
  | O => decimalStr
  | S fuel =>
      if decide (String.length decimalStr < 4)%nat
      then pad_loop fuel ("0" +:+ decimalStr)
      else decimalStr
  end.

Definition _formatEther (weiAmount : Z) : string :=
  let ethWhole := weiAmount / 10 ^ 18 in
  let ethDecimal := (weiAmount `mod` 10 ^ 18) / 10 ^ 14 in
  if decide (ethDecimal = 0) then toString ethWhole
  else
    let decimalStr := pad_loop 4 (toString ethDecimal) in
    toString ethWhole +:+ "." +:+ decimalStr.

(** ERC721 [transferFrom].  The authorisation of the caller (owner,
    approved address or operator) belongs to OpenZeppelin's ERC721 and is
    not modelled: whoever names the current owner as [from] may move the
    token, which only adds reachable states.  Provenance is untouched. *)
Definition transferFrom (from to : address) (tokenId : Z) (s : state) : Result state :=
  require (to ≠ 0) InvalidReceiver;;
  o ← ownerOf s tokenId;
  require (o = from) IncorrectOwner;;
  OK (set_owners (<[tokenId := to]> (_owners s)) s).

End DonachainNFT.

(** The external calls a contract makes into a certificate registry.  The
    chain holds the deployed registries by address; a call to an address
    that holds none reverts. *)
Definition call_ownerOf (nfts : gmap address DonachainNFT.state) (nft : address)
    (tokenId : Z) : Result address :=
  match nfts !! nft with
  | Some s => DonachainNFT.ownerOf s tokenId
  | None => Err CallFailed
  end.

Definition call_donationDetails (nfts : gmap address DonachainNFT.state) (nft : address)
    (tokenId : Z) : Result DonachainNFT.DonationDetail :=
  match nfts !! nft with
  | Some s => OK (DonachainNFT.donationDetails_get s tokenId)
  | None => Err CallFailed
  end.

Definition call_mintCertificate `{Keccak} (nfts : gmap address DonachainNFT.state)
    (nft : address) (e : Env) (donor : address) (amount campaignId : Z)
    (campaignTitle : string) (txHash : Z)
  : Result (Z * gmap address DonachainNFT.state) :=
  match nfts !! nft with
  | Some s =>
      '(tokenId, s') ← DonachainNFT.mintCertificate e donor amount campaignId
                         campaignTitle txHash s;
      OK (tokenId, <[nft := s']> nfts)
  | None => Err CallFailed
  end.

(** ** Ballot Registry: contract Voting *)

Module Voting.

(** [locked] is the status word of OpenZeppelin's ReentrancyGuard. *)
Record state : Type := mkState {
  owner : address;
  locked : bool;
  nftContract : address;
  campaignVotes : gmap Z Z;
  tokenUsed : gset Z
}.

Definition set_owner (x : address) (s : state) : state :=
  mkState x (locked s) (nftContract s) (campaignVotes s) (tokenUsed s).
Definition set_locked (x : bool) (s : state) : state :=
  mkState (owner s) x (nftContract s) (campaignVotes s) (tokenUsed s).
Definition set_nftContract (x : address) (s : state) : state :=
  mkState (owner s) (locked s) x (campaignVotes s) (tokenUsed s).
Definition set_campaignVotes (x : gmap Z Z) (s : state) : state :=
  mkState (owner s) (locked s) (nftContract s) x (tokenUsed s).
Definition set_tokenUsed (x : gset Z) (s : state) : state :=
  mkState (owner s) (locked s) (nftContract s) (campaignVotes s) x.

Definition constructor (deployer _nftContract : address) : Result state :=
  require (_nftContract ≠ 0) InvalidInput;;
  OK (mkState deployer false _nftContract ∅ ∅).

Definition onlyOwner (e : Env) (s : state) : Result unit :=
  require (msg_sender e = owner s) Unauthorized.

Definition nonReentrantBefore (s : state) : Result state :=
  require (locked s = false) Reentrant;;
  OK (set_locked true s).

Definition nonReentrantAfter (s : state) : state := set_locked false s.

Definition transferOwnership (e : Env) (newOwner : address) (s : state) : Result state :=
  onlyOwner e s;;
  require (newOwner ≠ 0) InvalidInput;;
  OK (set_owner newOwner s).

Definition setNFTContract (e : Env) (_nftContract : address) (s : state) : Result state :=
  onlyOwner e s;;
  require (_nftContract ≠ 0) InvalidInput;;
  OK (set_nftContract _nftContract s).

(** [campaignVotes[campaignId]] *)
Definition getVotes (s : state) (campaignId : Z) : Z :=
  default 0 (campaignVotes s !! campaignId).

(** [tokenUsed[tokenId]] *)
Definition hasVoted (s : state) (tokenId : Z) : bool :=
  bool_decide (tokenId ∈ tokenUsed s).

Definition vote (nfts : gmap address DonachainNFT.state) (e : Env)
    (campaignId tokenId : Z) (s : state) : Result state :=
  s ← nonReentrantBefore s;
  (* 1. ownership *)
  o ← call_ownerOf nfts (nftContract s) tokenId;
  require (o = msg_sender e) NotOwner;;
  (* 2. not used yet *)
  require (hasVoted s tokenId = false) AlreadyUsed;;
  (* 3. provenance *)
  d ← call_donationDetails nfts (nftContract s) tokenId;
  (* 4. the certificate is a ticket for its own campaign only *)
  require (DonachainNFT.dd_campaignId d = campaignId) CampaignMismatch;;
  (* 5. the vote *)
  let s := set_tokenUsed ({[tokenId]} ∪ tokenUsed s) s in
  n ← checked_add (getVotes s campaignId) 1;
  let s := set_campaignVotes (<[campaignId := n]> (campaignVotes s)) s in
  OK (nonReentrantAfter s).

End Voting.

(** ** Campaign Ledger: contract DonationManager *)

Module DonationManager.

Definition MIN_DONATION_FOR_NFT : Z := 10000000000000000.   (* 0.01 ether *)

Record Campaign : Type := mkCampaign {
  c_id : Z;
  c_title : string;
  c_description : string;
  c_imageCID : string;
  c_targetAmount : Z;
  c_totalRaised : Z;
  c_isActive : bool;
  c_createdAt : Z;
  c_deadline : Z;
  c_creator : address
}.

Record Donation : Type := mkDonation {
  d_id : Z;
  d_donor : address;
  d_campaignId : Z;
  d_amount : Z;
  d_timestamp : Z;
  d_txHash : Z;
  d_nftMinted : bool
}.

Record Expense : Type := mkExpense {
  x_id : Z;
  x_description : string;
  x_amount : Z;
  x_recipient : address;
  x_timestamp : Z;
  x_txHash : Z;
  x_campaignId : Z
}.

Global Instance Expense_eq_dec : EqDecision Expense.
Proof. solve_decision. Defined.

Definition zero_campaign : Campaign := mkCampaign 0 EmptyString EmptyString EmptyString 0 0 false 0 0 0.

Definition set_totalRaised (x : Z) (c : Campaign) : Campaign :=
  mkCampaign (c_id c) (c_title c) (c_description c) (c_imageCID c) (c_targetAmount c)
             x (c_isActive c) (c_createdAt c) (c_deadline c) (c_creator c).
Definition set_isActive (x : bool) (c : Campaign) : Campaign :=
  mkCampaign (c_id c) (c_title c) (c_description c) (c_imageCID c) (c_targetAmount c)
             (c_totalRaised c) x (c_createdAt c) (c_deadline c) (c_creator c).
Definition set_nftMinted (x : bool) (d : Donation) : Donation :=
  mkDonation (d_id d) (d_donor d) (d_campaignId d) (d_amount d) (d_timestamp d)
             (d_txHash d) x.

(** Storage of the contract, with what the substrate keeps for it: its own
    address [self], its ether [balance], Ownable's [owner] and the status
    word [locked] of ReentrancyGuard.  The index arrays hold positions in
    [allDonations]. *)
Record state : Type := mkState {
  self : address;
  owner : address;
  locked : bool;
  balance : Z;
  nftContract : address;
  _nextCampaignId : Z;
  _nextExpenseId : Z;
  totalDonationsReceived : Z;
  totalExpensesLogged : Z;
  campaigns : gmap Z Campaign;
  campaignIds : list Z;
  allDonations : list Donation;
  donorDonations : gmap address (list nat);
  campaignDonations : gmap Z (list nat);
  allExpenses : list Expense;
  donorTotalAmount : gmap address Z;
  uniqueDonors : list address;
  hasDonated : gset address
}.

Definition set_owner (x : address) (s : state) : state :=
  mkState (self s) x (locked s) (balance s) (nftContract s) (_nextCampaignId s)
          (_nextExpenseId s) (totalDonationsReceived s) (totalExpensesLogged s)
          (campaigns s) (campaignIds s) (allDonations s) (donorDonations s)
          (campaignDonations s) (allExpenses s) (donorTotalAmount s) (uniqueDonors s)
          (hasDonated s).
Definition set_locked (x : bool) (s : state) : state :=
  mkState (self s) (owner s) x (balance s) (nftContract s) (_nextCampaignId s)
          (_nextExpenseId s) (totalDonationsReceived s) (totalExpensesLogged s)
          (campaigns s) (campaignIds s) (allDonations s) (donorDonations s)
          (campaignDonations s) (allExpenses s) (donorTotalAmount s) (uniqueDonors s)
          (hasDonated s).
Definition set_balance (x : Z) (s : state) : state :=
  mkState (self s) (owner s) (locked s) x (nftContract s) (_nextCampaignId s)
          (_nextExpenseId s) (totalDonationsReceived s) (totalExpensesLogged s)
          (campaigns s) (campaignIds s) (allDonations s) (donorDonations s)
          (campaignDonations s) (allExpenses s) (donorTotalAmount s) (uniqueDonors s)
          (hasDonated s).
Definition set_nftContract (x : address) (s : state) : state :=
  mkState (self s) (owner s) (locked s) (balance s) x (_nextCampaignId s)
          (_nextExpenseId s) (totalDonationsReceived s) (totalExpensesLogged s)
          (campaigns s) (campaignIds s) (allDonations s) (donorDonations s)
          (campaignDonations s) (allExpenses s) (donorTotalAmount s) (uniqueDonors s)
          (hasDonated s).
Definition set_nextCampaignId (x : Z) (s : state) : state :=
  mkState (self s) (owner s) (locked s) (balance s) (nftContract s) x
          (_nextExpenseId s) (totalDonationsReceived s) (totalExpensesLogged s)
          (campaigns s) (campaignIds s) (allDonations s) (donorDonations s)
          (campaignDonations s) (allExpenses s) (donorTotalAmount s) (uniqueDonors s)
          (hasDonated s).
Definition set_nextExpenseId (x : Z) (s : state) : state :=
  mkState (self s) (owner s) (locked s) (balance s) (nftContract s)
          (_nextCampaignId s) x (totalDonationsReceived s) (totalExpensesLogged s)
          (campaigns s) (campaignIds s) (allDonations s) (donorDonations s)
          (campaignDonations s) (allExpenses s) (donorTotalAmount s) (uniqueDonors s)
          (hasDonated s).
Definition set_totalDonationsReceived (x : Z) (s : state) : state :=
  mkState (self s) (owner s) (locked s) (balance s) (nftContract s)
          (_nextCampaignId s) (_nextExpenseId s) x (totalExpensesLogged s)
          (campaigns s) (campaignIds s) (allDonations s) (donorDonations s)
          (campaignDonations s) (allExpenses s) (donorTotalAmount s) (uniqueDonors s)
          (hasDonated s).
Definition set_totalExpensesLogged (x : Z) (s : state) : state :=
  mkState (self s) (owner s) (locked s) (balance s) (nftContract s)
          (_nextCampaignId s) (_nextExpenseId s) (totalDonationsReceived s) x
          (campaigns s) (campaignIds s) (allDonations s) (donorDonations s)
          (campaignDonations s) (allExpenses s) (donorTotalAmount s) (uniqueDonors s)
          (hasDonated s).
Definition set_campaigns (x : gmap Z Campaign) (s : state) : state :=
  mkState (self s) (owner s) (locked s) (balance s) (nftContract s)
          (_nextCampaignId s) (_nextExpenseId s) (totalDonationsReceived s)
          (totalExpensesLogged s) x (campaignIds s) (allDonations s)
          (donorDonations s) (campaignDonations s) (allExpenses s)
          (donorTotalAmount s) (uniqueDonors s) (hasDonated s).
Definition set_campaignIds (x : list Z) (s : state) : state :=
  mkState (self s) (owner s) (locked s) (balance s) (nftContract s)
          (_nextCampaignId s) (_nextExpenseId s) (totalDonationsReceived s)
          (totalExpensesLogged s) (campaigns s) x (allDonations s) (donorDonations s)
          (campaignDonations s) (allExpenses s) (donorTotalAmount s) (uniqueDonors s)
          (hasDonated s).
Definition set_allDonations (x : list Donation) (s : state) : state :=
  mkState (self s) (owner s) (locked s) (balance s) (nftContract s)
          (_nextCampaignId s) (_nextExpenseId s) (totalDonationsReceived s)
          (totalExpensesLogged s) (campaigns s) (campaignIds s) x (donorDonations s)
          (campaignDonations s) (allExpenses s) (donorTotalAmount s) (uniqueDonors s)
          (hasDonated s).
Definition set_donorDonations (x : gmap address (list nat)) (s : state) : state :=
  mkState (self s) (owner s) (locked s) (balance s) (nftContract s)
          (_nextCampaignId s) (_nextExpenseId s) (totalDonationsReceived s)
          (totalExpensesLogged s) (campaigns s) (campaignIds s) (allDonations s) x
          (campaignDonations s) (allExpenses s) (donorTotalAmount s) (uniqueDonors s)
          (hasDonated s).
Definition set_campaignDonations (x : gmap Z (list nat)) (s : state) : state :=
  mkState (self s) (owner s) (locked s) (balance s) (nftContract s)
          (_nextCampaignId s) (_nextExpenseId s) (totalDonationsReceived s)
          (totalExpensesLogged s) (campaigns s) (campaignIds s) (allDonations s)
          (donorDonations s) x (allExpenses s) (donorTotalAmount s) (uniqueDonors s)
          (hasDonated s).
Definition set_allExpenses (x : list Expense) (s : state) : state :=
  mkState (self s) (owner s) (locked s) (balance s) (nftContract s)
          (_nextCampaignId s) (_nextExpenseId s) (totalDonationsReceived s)
          (totalExpensesLogged s) (campaigns s) (campaignIds s) (allDonations s)
          (donorDonations s) (campaignDonations s) x (donorTotalAmount s)
          (uniqueDonors s) (hasDonated s).
Definition set_donorTotalAmount (x : gmap address Z) (s : state) : state :=
  mkState (self s) (owner s) (locked s) (balance s) (nftContract s)
          (_nextCampaignId s) (_nextExpenseId s) (totalDonationsReceived s)
          (totalExpensesLogged s) (campaigns s) (campaignIds s) (allDonations s)
          (donorDonations s) (campaignDonations s) (allExpenses s) x (uniqueDonors s)
          (hasDonated s).
Definition set_uniqueDonors (x : list address) (s : state) : state :=
  mkState (self s) (owner s) (locked s) (balance s) (nftContract s)
          (_nextCampaignId s) (_nextExpenseId s) (totalDonationsReceived s)
          (totalExpensesLogged s) (campaigns s) (campaignIds s) (allDonations s)
          (donorDonations s) (campaignDonations s) (allExpenses s)
          (donorTotalAmount s) x (hasDonated s).
Definition set_hasDonated (x : gset address) (s : state) : state :=
  mkState (self s) (owner s) (locked s) (balance s) (nftContract s)
          (_nextCampaignId s) (_nextExpenseId s) (totalDonationsReceived s)
          (totalExpensesLogged s) (campaigns s) (campaignIds s) (allDonations s)
          (donorDonations s) (campaignDonations s) (allExpenses s)
          (donorTotalAmount s) (uniqueDonors s) x.

Definition constructor (this initialOwner : address) : state :=
  mkState this initialOwner false 0 0 1 1 0 0 ∅ [] [] ∅ ∅ [] ∅ [] ∅.

Definition onlyOwner (e : Env) (s : state) : Result unit :=
  require (msg_sender e = owner s) Unauthorized.

Definition nonReentrantBefore (s : state) : Result state :=
  require (locked s = false) Reentrant;;
  OK (set_locked true s).

Definition nonReentrantAfter (s : state) : state := set_locked false s.

(** [campaigns[campaignId]], [donorTotalAmount[a]] and the index arrays,
    read as Solidity reads a mapping. *)
Definition campaign_at (s : state) (campaignId : Z) : Campaign :=
  default zero_campaign (campaigns s !! campaignId).
Definition donor_total (s : state) (a : address) : Z :=
  default 0 (donorTotalAmount s !! a).
Definition donations_of_donor (s : state) (a : address) : list nat :=
  default [] (donorDonations s !! a).
Definition donations_of_campaign (s : state) (campaignId : Z) : list nat :=
  default [] (campaignDonations s !! campaignId).

Definition transferOwnership (e : Env) (newOwner : address) (s : state) : Result state :=
  onlyOwner e s;;
  require (newOwner ≠ 0) InvalidInput;;
  OK (set_owner newOwner s).

Definition setNFTContract (e : Env) (_nftContract : address) (s : state) : Result state :=
  onlyOwner e s;;
  require (_nftContract ≠ 0) InvalidInput;;
  OK (set_nftContract _nftContract s).

Definition createCampaign (e : Env) (title description imageCID : string)
    (targetAmount deadline : Z) (s : state) : Result (Z * state) :=
  onlyOwner e s;;
  require (0 < String.length title)%nat InvalidInput;;
  require (String.length title ≤ 100)%nat InvalidInput;;
  require (0 < String.length description)%nat InvalidInput;;
  require (0 < targetAmount) InvalidInput;;
  require (block_timestamp e < deadline) InvalidInput;;
  let campaignId := _nextCampaignId s in
  next ← checked_add campaignId 1;
  let s := set_nextCampaignId next s in
  let s := set_campaigns
             (<[campaignId := mkCampaign campaignId title description imageCID
                                targetAmount 0 true (block_timestamp e) deadline
                                (msg_sender e)]> (campaigns s)) s in
  let s := set_campaignIds (campaignIds s ++ [campaignId]) s in
  OK (campaignId, s).

Definition updateCampaignStatus (e : Env) (campaignId : Z) (isActive : bool) (s : state)
  : Result state :=
  onlyOwner e s;;
  require (c_id (campaign_at s campaignId) ≠ 0) NotFound;;
  OK (set_campaigns
        (<[campaignId := set_isActive isActive (campaign_at s campaignId)]> (campaigns s))
        s).

(** The code of the accounts that receive withdrawals: whether the
    recipient accepts [amount], given the ledger state its code can observe
    while [transfer] runs.  An externally owned account accepts always. *)
Class Recipients : Type :=
  accepts_transfer : address → Z → state → bool.

(** [recipient.transfer(amount)]: the ether leaves the ledger, then the
    recipient's code runs; if it reverts, so does the transfer. *)
Definition transfer `{Recipients} (recipient : address) (amount : Z) (s : state)
  : Result state :=
  let s := set_balance (balance s - amount) s in
  if accepts_transfer recipient amount s then OK s else Err TransferRejected.

Definition withdrawWithLog `{Recipients} (e : Env) (description : string)
    (recipient : address) (amount campaignId : Z) (s : state) : Result state :=
  onlyOwner e s;;
  s ← nonReentrantBefore s;
  require (0 < String.length description)%nat InvalidInput;;
  require (recipient ≠ 0) InvalidInput;;
  require (0 < amount) InvalidInput;;
  require (amount ≤ balance s) InsufficientBalance;;
  let expenseId := _nextExpenseId s in
  next ← checked_add expenseId 1;
  let s := set_nextExpenseId next s in
  let txHash := prev_blockhash e in
  let expense := mkExpense expenseId description amount recipient (block_timestamp e)
                           txHash campaignId in
  let s := set_allExpenses (allExpenses s ++ [expense]) s in
  spent ← checked_add (totalExpensesLogged s) amount;
  let s := set_totalExpensesLogged spent s in
  s ← transfer recipient amount s;
  OK (nonReentrantAfter s).

(** The part of [donate] after its checks: the donation record, the
    totals, the donor set and the certificate. *)
Definition donate_record `{Keccak} (nfts : gmap address DonachainNFT.state) (e : Env)
    (value : Z) (campaignId : Z) (s : state)
  : Result (state * gmap address DonachainNFT.state) :=
  donationId ← checked_add (Z.of_nat (length (allDonations s))) 1;
  let donation := mkDonation donationId (msg_sender e) campaignId value
                             (block_timestamp e) (prev_blockhash e) false in
  let s := set_allDonations (allDonations s ++ [donation]) s in
  let donationIndex := (length (allDonations s) - 1)%nat in
  let s := set_donorDonations
             (<[msg_sender e := donations_of_donor s (msg_sender e) ++ [donationIndex]]>
                (donorDonations s)) s in
  let s := set_campaignDonations
             (<[campaignId := donations_of_campaign s campaignId ++ [donationIndex]]>
                (campaignDonations s)) s in
  raised ← checked_add (c_totalRaised (campaign_at s campaignId)) value;
  let s := set_campaigns
             (<[campaignId := set_totalRaised raised (campaign_at s campaignId)]>
                (campaigns s)) s in
  received ← checked_add (totalDonationsReceived s) value;
  let s := set_totalDonationsReceived received s in
  given ← checked_add (donor_total s (msg_sender e)) value;
  let s := set_donorTotalAmount (<[msg_sender e := given]> (donorTotalAmount s)) s in
  let s := if decide (msg_sender e ∈ hasDonated s) then s
           else set_uniqueDonors (uniqueDonors s ++ [msg_sender e])
                  (set_hasDonated ({[msg_sender e]} ∪ hasDonated s) s) in
  if decide (MIN_DONATION_FOR_NFT ≤ value ∧ nftContract s ≠ 0) then
    '(_, nfts) ← call_mintCertificate nfts (nftContract s) (with_sender (self s) e)
                   (msg_sender e) value campaignId
                   (c_title (campaign_at s campaignId)) (d_txHash donation);
    let s := set_allDonations
               (alter (set_nftMinted true) donationIndex (allDonations s)) s in
    OK (nonReentrantAfter s, nfts)
  else
    OK (nonReentrantAfter s, nfts).

(** [donate] is payable: [value] is the amount attached to the call, part
    of the balance from the moment the call starts.  Its checks come
    first, in the order of the code; [donate_record] is the rest of its
    body. *)
Definition donate `{Keccak} (nfts : gmap address DonachainNFT.state) (e : Env)
    (value : Z) (campaignId : Z) (s : state)
  : Result (state * gmap address DonachainNFT.state) :=
  s ← nonReentrantBefore s;
  let s := set_balance (balance s + value) s in
  require (0 < value) InvalidInput;;
  require (c_id (campaign_at s campaignId) ≠ 0) NotFound;;
  require (c_isActive (campaign_at s campaignId) = true) CampaignInactive;;
  require (block_timestamp e ≤ c_deadline (campaign_at s campaignId)) DeadlinePassed;;
  donate_record nfts e value campaignId s.

(** [receive()] rejects plain transfers. *)
Definition receive (e : Env) (value : Z) (s : state) : Result state :=
  Err PlainTransfer.

Definition getCampaign (s : state) (campaignId : Z) : Result Campaign :=
  require (c_id (campaign_at s campaignId) ≠ 0) NotFound;;
  OK (campaign_at s campaignId).


(** The body of the inner sorting loop of [getLeaderboard]: the tuple
    assignments exchange positions [i] and [j] of both arrays. *)
Definition exchange_if_greater (i j : nat) (a : list address * list Z)
  : list address * list Z :=
  let '(donors, totals) := a in
  if decide (totals !!! i < totals !!! j) then
    (<[j := donors !!! i]> (<[i := donors !!! j]> donors),
     <[j := totals !!! i]> (<[i := totals !!! j]> totals))
  else (donors, totals).

Definition getLeaderboard (count : nat) (s : state) : list address * list Z :=
  let donorCount := length (uniqueDonors s) in
  let count := if decide (donorCount < count)%nat then donorCount else count in
  let donors : list address := replicate donorCount 0 in
  let totals : list Z := replicate donorCount 0 in
  let '(donors, totals) :=
    for_loop 0 donorCount
      (λ i '(donors, totals),
         (<[i := uniqueDonors s !!! i]> donors,
          <[i := donor_total s (uniqueDonors s !!! i)]> totals))
      (donors, totals) in
  let '(donors, totals) :=
    for_loop 0 donorCount
      (λ i, for_loop (i + 1) donorCount (λ j, exchange_if_greater i j))
      (donors, totals) in
  let addresses : list address := replicate count 0 in
  let amounts : list Z := replicate count 0 in
  for_loop 0 count
    (λ i '(addresses, amounts),
       (<[i := donors !!! i]> addresses, <[i := totals !!! i]> amounts))
    (addresses, amounts).

(** *** The other views

    An array element read or written at an index outside the array is
    Solidity's [Panic(0x32)]; the views that index an array by a computed
    position return [None] for it. *)

Definition zero_donation : Donation := mkDonation 0 0 0 0 0 0 false.

(** [result[index] = x] on a memory array. *)
Definition store {A} (index : nat) (x : A) (result : list A) : option (list A) :=
  if decide (index < length result)%nat then Some (<[index := x]> result) else None.

(** [c.isActive && block.timestamp <= c.deadline], the test of the three
    loops over the campaigns. *)
Definition is_open (e : Env) (c : Campaign) : bool :=
  c_isActive c && bool_decide (block_timestamp e ≤ c_deadline c).

Definition getAllCampaigns (s : state) : list Campaign :=
  let result := replicate (length (campaignIds s)) zero_campaign in
  for_loop 0 (length (campaignIds s))
    (λ i result, <[i := campaign_at s (campaignIds s !!! i)]> result) result.

(** The counting loop of [getActiveCampaigns] and [getStats]. *)
Definition count_active (e : Env) (s : state) : nat :=
  for_loop 0 (length (campaignIds s))
    (λ i activeCount,
       let c := campaign_at s (campaignIds s !!! i) in
       if is_open e c then S activeCount else activeCount)
    0%nat.

Definition getActiveCampaigns (e : Env) (s : state) : option (list Campaign) :=
  let activeCount := count_active e s in
  let result := replicate activeCount zero_campaign in
  fst <$>
    for_loop 0 (length (campaignIds s))
      (λ i acc,
         '(result, index) ← acc;
         let c := campaign_at s (campaignIds s !!! i) in
         if is_open e c then
           result ← store index c result;
           Some (result, S index)
         else Some (result, index))
      (Some (result, 0%nat)).

(** The loop shared by [getDonationsForCampaign] and [getDonationsByDonor]:
    [result[i] = allDonations[indices[i]]]. *)
Definition donations_at (s : state) (indices : list nat) : option (list Donation) :=
  let result := replicate (length indices) zero_donation in
  for_loop 0 (length indices)
    (λ i acc,
       result ← acc;
       d ← allDonations s !! (indices !!! i);
       Some (<[i := d]> result))
    (Some result).

Definition getDonationsForCampaign (s : state) (campaignId : Z) : option (list Donation) :=
  donations_at s (donations_of_campaign s campaignId).

Definition getDonationsByDonor (s : state) (donor : address) : option (list Donation) :=
  donations_at s (donations_of_donor s donor).

Definition getAllDonations (s : state) : list Donation := allDonations s.

Definition getAllExpenses (s : state) : list Expense := allExpenses s.



End DonationManager.

(** ** The three contracts together *)

(** The chain: the deployed certificate registries by address, the ballot
    registry and the campaign ledger. *)
Record World : Type := mkWorld {
  nfts : gmap address DonachainNFT.state;
  voting : Voting.state;
  manager : DonationManager.state
}.

Definition set_nfts (x : gmap address DonachainNFT.state) (w : World) : World :=
  mkWorld x (voting w) (manager w).
Definition set_voting (x : Voting.state) (w : World) : World :=
  mkWorld (nfts w) x (manager w).
Definition set_manager (x : DonationManager.state) (w : World) : World :=
  mkWorld (nfts w) (voting w) x.

(** The transactions the outside can send. *)
Inductive Call : Type :=
  | DeployNFT (nft initialOwner : address)
  | NftTransferOwnership (nft : address) (e : Env) (newOwner : address)
  | NftSetDonationManager (nft : address) (e : Env) (_donationManager : address)
  | NftMintCertificate (nft : address) (e : Env) (donor : address) (amount campaignId : Z)
      (campaignTitle : string) (txHash : Z)
  | NftTransferFrom (nft from to : address) (tokenId : Z)
  | VotingTransferOwnership (e : Env) (newOwner : address)
  | VotingSetNFTContract (e : Env) (_nftContract : address)
  | VotingVote (e : Env) (campaignId tokenId : Z)
  | ManagerTransferOwnership (e : Env) (newOwner : address)
  | ManagerSetNFTContract (e : Env) (_nftContract : address)
  | ManagerCreateCampaign (e : Env) (title description imageCID : string)
      (targetAmount deadline : Z)
  | ManagerUpdateCampaignStatus (e : Env) (campaignId : Z) (isActive : bool)
  | ManagerWithdrawWithLog (e : Env) (description : string) (recipient : address)
      (amount campaignId : Z)
  | ManagerDonate (e : Env) (value campaignId : Z)
  | ManagerReceive (e : Env) (value : Z).

Definition on_nft (w : World) (nft : address)
    (f : DonachainNFT.state → Result DonachainNFT.state) : Result World :=
  match nfts w !! nft with
  | Some s => s' ← f s; OK (set_nfts (<[nft := s']> (nfts w)) w)
  | None => Err CallFailed
  end.

Definition on_voting (w : World) (f : Voting.state → Result Voting.state) : Result World :=
  v ← f (voting w); OK (set_voting v w).

Definition on_manager (w : World)
    (f : DonationManager.state → Result DonationManager.state) : Result World :=
  m ← f (manager w); OK (set_manager m w).

(** One transaction, executed to completion or reverted as a whole. *)
Definition exec `{Keccak} `{DonationManager.Recipients} (w : World) (c : Call)
  : Result World :=
  match c with
  | DeployNFT nft initialOwner =>
      require (nft ≠ 0) InvalidInput;;
      require (nfts w !! nft = None) CallFailed;;
      OK (set_nfts (<[nft := DonachainNFT.constructor initialOwner]> (nfts w)) w)
  | NftTransferOwnership nft e newOwner =>
      on_nft w nft (DonachainNFT.transferOwnership e newOwner)
  | NftSetDonationManager nft e dm =>
      on_nft w nft (DonachainNFT.setDonationManager e dm)
  | NftMintCertificate nft e donor amount campaignId campaignTitle txHash =>
      '(_, nfts') ← call_mintCertificate (nfts w) nft e donor amount campaignId
                      campaignTitle txHash;
      OK (set_nfts nfts' w)
  | NftTransferFrom nft from to tokenId =>
      on_nft w nft (DonachainNFT.transferFrom from to tokenId)
  | VotingTransferOwnership e newOwner =>
      on_voting w (Voting.transferOwnership e newOwner)
  | VotingSetNFTContract e a =>
      on_voting w (Voting.setNFTContract e a)
  | VotingVote e campaignId tokenId =>
      on_voting w (Voting.vote (nfts w) e campaignId tokenId)
  | ManagerTransferOwnership e newOwner =>
      on_manager w (DonationManager.transferOwnership e newOwner)
  | ManagerSetNFTContract e a =>
      on_manager w (DonationManager.setNFTContract e a)
  | ManagerCreateCampaign e title description imageCID targetAmount deadline =>
      '(_, m) ← DonationManager.createCampaign e title description imageCID
                  targetAmount deadline (manager w);
      OK (set_manager m w)
  | ManagerUpdateCampaignStatus e campaignId isActive =>
      on_manager w (DonationManager.updateCampaignStatus e campaignId isActive)
  | ManagerWithdrawWithLog e description recipient amount campaignId =>
      on_manager w (DonationManager.withdrawWithLog e description recipient amount
                      campaignId)
  | ManagerDonate e value campaignId =>
      '(m, nfts') ← DonationManager.donate (nfts w) e value campaignId (manager w);
      OK (mkWorld nfts' (voting w) m)
  | ManagerReceive e value =>
      on_manager w (DonationManager.receive e value)
  end.

(** The worlds the system can be in: the ledger and the ballot registry
    freshly constructed, then any sequence of successful transactions among
    those [allowed] (a reverted transaction leaves the world as it was). *)
Inductive reachable_by `{Keccak} `{DonationManager.Recipients} (allowed : Call → Prop)
  : World → Prop :=
  | reachable_init this admin deployer nft v :
      Voting.constructor deployer nft = OK v →
      reachable_by allowed (mkWorld ∅ v (DonationManager.constructor this admin))
  | reachable_step w c w' :
      reachable_by allowed w → allowed c → exec w c = OK w' →
      reachable_by allowed w'.

Definition reachable `{Keccak} `{DonationManager.Recipients} : World → Prop :=
  reachable_by (λ _, True).

(** The ballot registry keeps consulting the registry it was built with. *)
Definition keeps_registry (c : Call) : Prop :=
  match c with VotingSetNFTContract _ _ => False | _ => True end.

(** ** Notions of the specification *)

(** Sum of the amounts of the donation records against a campaign id. *)
Definition donated_to (campaignId : Z) (ds : list DonationManager.Donation) : Z :=
  foldr Z.add 0
    (DonationManager.d_amount <$>
       filter (λ d, DonationManager.d_campaignId d = campaignId) ds).

Definition total_donated (ds : list DonationManager.Donation) : Z :=
  foldr Z.add 0 (DonationManager.d_amount <$> ds).

(** Sum of the amounts of the donation records of a donor. *)
Definition donated_by (a : address) (ds : list DonationManager.Donation) : Z :=
  foldr Z.add 0
    (DonationManager.d_amount <$> filter (λ d, DonationManager.d_donor d = a) ds).

(** A campaign exists when its slot holds a nonzero id, as the code tests. *)
Definition campaign_exists (m : DonationManager.state) (campaignId : Z) : Prop :=
  DonationManager.c_id (DonationManager.campaign_at m campaignId) ≠ 0.

(** Ledger balance of the glossary: donations received minus withdrawals logged. *)
Definition ledger_balance (m : DonationManager.state) : Z :=
  DonationManager.totalDonationsReceived m - DonationManager.totalExpensesLogged m.

(** The certificates of the registry the ballot consults whose used-flag is
    set and whose stored campaign id is [campaignId]. *)
Definition used_certificates (ns : gmap address DonachainNFT.state) (v : Voting.state)
    (campaignId : Z) : gmap Z DonachainNFT.DonationDetail :=
  match ns !! Voting.nftContract v with
  | Some s =>
      filter (λ kd, kd.1 ∈ Voting.tokenUsed v ∧ DonachainNFT.dd_campaignId kd.2 = campaignId)
             (DonachainNFT.donationDetails s)
  | None => ∅
  end.

Definition used_count (ns : gmap address DonachainNFT.state) (v : Voting.state)
    (campaignId : Z) : Z :=
  Z.of_nat (size (used_certificates ns v campaignId)).


(** The tiers in the order of the Solidity enum. *)
Definition tier_rank (t : DonachainNFT.Tier) : Z :=
  match t with
  | DonachainNFT.Bronze => 0
  | DonachainNFT.Silver => 1
  | DonachainNFT.Gold => 2
  | DonachainNFT.Special => 3
  end.

(** ** Invariants *)

(** A registry has minted exactly the ids from 1 up to its counter, each
    with its provenance record. *)
Record registry_inv (s : DonachainNFT.state) : Prop := {
  registry_next : 1 ≤ DonachainNFT._nextTokenId s ≤ MAX_UINT256;
  registry_owners : ∀ t, is_Some (DonachainNFT._owners s !! t) ↔
                         1 ≤ t < DonachainNFT._nextTokenId s;
  registry_details : ∀ t, is_Some (DonachainNFT.donationDetails s !! t) ↔
                          1 ≤ t < DonachainNFT._nextTokenId s
}.

(** The ballot registry between transactions: the lock is free, and no
    tally exceeds the number of used tickets, which are certificate ids. *)
Record ballot_inv (v : Voting.state) : Prop := {
  ballot_unlocked : Voting.locked v = false;
  ballot_used_range : ∀ t, t ∈ Voting.tokenUsed v → 1 ≤ t ≤ MAX_UINT256 - 1;
  ballot_votes_bound : ∀ c, 0 ≤ Voting.getVotes v c ≤ Z.of_nat (size (Voting.tokenUsed v))
}.


Definition spent_total (xs : list DonationManager.Expense) : Z :=
  foldr Z.add 0 (DonationManager.x_amount <$> xs).

(** The campaign ledger between transactions. *)
Record ledger_inv (m : DonationManager.state) : Prop := {
  ledger_unlocked : DonationManager.locked m = false;
  ledger_balance_eq : DonationManager.balance m = ledger_balance m;
  ledger_balance_nonneg : 0 ≤ DonationManager.balance m;
  ledger_received :
    DonationManager.totalDonationsReceived m = total_donated (DonationManager.allDonations m);
  ledger_spent :
    DonationManager.totalExpensesLogged m = spent_total (DonationManager.allExpenses m);
  ledger_next_campaign : 1 ≤ DonationManager._nextCampaignId m;
  ledger_campaign_ids : ∀ id c, DonationManager.campaigns m !! id = Some c →
    DonationManager.c_id c = id ∧ 1 ≤ id < DonationManager._nextCampaignId m;
  ledger_donations : ∀ d, d ∈ DonationManager.allDonations m →
    is_Some (DonationManager.campaigns m !! DonationManager.d_campaignId d) ∧
    0 < DonationManager.d_amount d;
  ledger_raised : ∀ id c, DonationManager.campaigns m !! id = Some c →
    DonationManager.c_totalRaised c = donated_to id (DonationManager.allDonations m);
  ledger_donor_totals : ∀ a,
    DonationManager.donor_total m a = donated_by a (DonationManager.allDonations m);
  ledger_unique_donors : NoDup (DonationManager.uniqueDonors m);
  ledger_has_donated : ∀ a,
    a ∈ DonationManager.hasDonated m ↔ a ∈ DonationManager.uniqueDonors m;
  ledger_donors : ∀ a, a ∈ DonationManager.uniqueDonors m ↔
    ∃ d, d ∈ DonationManager.allDonations m ∧ DonationManager.d_donor d = a
}.

Definition registries_inv (ns : gmap address DonachainNFT.state) : Prop :=
  ∀ a s, ns !! a = Some s → registry_inv s.

Record world_inv (w : World) : Prop := {
  world_registries : registries_inv (nfts w);
  world_ballot : ballot_inv (voting w);
  world_ledger : ledger_inv (manager w)
}.

(** How one transaction may change the registry at an address: nothing,
    a deployment, a change that leaves the provenance records alone, or
    the mint of the next id. *)
Definition registry_step (o o' : option DonachainNFT.state) : Prop :=
  match o, o' with
  | None, None => True
  | None, Some s' => DonachainNFT.donationDetails s' = ∅
  | Some s, Some s' =>
      DonachainNFT.donationDetails s' = DonachainNFT.donationDetails s ∨
      ∃ d, DonachainNFT.donationDetails s' =
             <[DonachainNFT._nextTokenId s := d]> (DonachainNFT.donationDetails s)
  | Some _, None => False
  end.

(** The state the recipient's code observes during the transfer of a
    withdrawal: the expense is in the log, the total is raised, the ether
    has left and the lock is held. *)
Definition withdrawal_logged (e : Env) (description : string) (recipient : address)
    (amount campaignId : Z) (m : DonationManager.state) : DonationManager.state :=
  DonationManager.mkState (DonationManager.self m) (DonationManager.owner m) true
    (DonationManager.balance m - amount) (DonationManager.nftContract m)
    (DonationManager._nextCampaignId m) (DonationManager._nextExpenseId m + 1)
    (DonationManager.totalDonationsReceived m)
    (DonationManager.totalExpensesLogged m + amount)
    (DonationManager.campaigns m) (DonationManager.campaignIds m)
    (DonationManager.allDonations m) (DonationManager.donorDonations m)
    (DonationManager.campaignDonations m)
    (DonationManager.allExpenses m ++
       [DonationManager.mkExpense (DonationManager._nextExpenseId m) description amount
          recipient (block_timestamp e) (prev_blockhash e) campaignId])
    (DonationManager.donorTotalAmount m) (DonationManager.uniqueDonors m)
    (DonationManager.hasDonated m).

(** ** The leaderboard of the specification *)

(** The unique donors, in the order of their first donation, each with the
    total the ledger keeps for them. *)
Definition leaderboard_entries (m : DonationManager.state) : list (address * Z) :=
  (λ a, (a, DonationManager.donor_total m a)) <$> DonationManager.uniqueDonors m.

(** Insertion that keeps totals descending and puts the new entry before
    the entries of equal total: inserting the donors from the last to the
    first breaks ties by insertion order. *)
Fixpoint insert_desc (x : address * Z) (l : list (address * Z)) : list (address * Z) :=
  match l with
  | [] => [x]
  | y :: l' => if decide (x.2 < y.2) then y :: insert_desc x l' else x :: y :: l'
  end.

(** The leaderboard as the specification words it: total descending, ties
    by insertion order, truncated to [count]. *)
Definition spec_leaderboard (count : nat) (m : DonationManager.state)
  : list address * list Z :=
  let ranked := take count (foldr insert_desc [] (leaderboard_entries m)) in
  (ranked.*1, ranked.*2).

(** Totals never increase along the list. *)
Definition descending (l : list (address * Z)) : Prop :=
  StronglySorted (λ x y, y.2 ≤ x.2) l.

(** The exchange of the sorting loop, on the totals alone. *)
Definition exchange_totals (i j : nat) (totals : list Z) : list Z :=
  if decide (totals !!! i < totals !!! j) then
    <[j := totals !!! i]> (<[i := totals !!! j]> totals)
  else totals.

(** ** Runs *)

(** A transaction that reverts leaves the world as it was. *)
Definition apply_call `{Keccak} `{DonationManager.Recipients} (w : World) (c : Call)
  : World :=
  match exec w c with
  | OK w' => w'
  | Err _ => w
  end.

Definition run `{Keccak} `{DonationManager.Recipients} (w : World) (cs : list Call)
  : World :=
  foldl apply_call w cs.


(** ** Invariants of the records

    What the counters and the append-only arrays give beyond the sums. *)

(** The donors of a list of donation records, each once, in the order of
    their first donation. *)
Definition first_donors (ds : list DonationManager.Donation) : list address :=
  reverse (remove_dups (reverse (DonationManager.d_donor <$> ds))).

(** The ledger's records between transactions: campaign ids are handed out
    in sequence and none is skipped; a record's id is its position plus
    one; the index arrays of a campaign and of a donor hold the positions of
    their donations, in the order they were made. *)
Record ledger_records_inv (m : DonationManager.state) : Prop := {
  records_campaign_ids :
    DonationManager.campaignIds m = seqZ 1 (DonationManager._nextCampaignId m - 1);
  records_campaigns : ∀ id, 1 ≤ id < DonationManager._nextCampaignId m →
    is_Some (DonationManager.campaigns m !! id);
  records_donation_ids : ∀ i d, DonationManager.allDonations m !! i = Some d →
    DonationManager.d_id d = Z.of_nat i + 1;
  records_expense_ids : ∀ i x, DonationManager.allExpenses m !! i = Some x →
    DonationManager.x_id x = Z.of_nat i + 1;
  records_next_expense :
    DonationManager._nextExpenseId m =
      Z.of_nat (length (DonationManager.allExpenses m)) + 1;
  records_expenses_positive : ∀ x, x ∈ DonationManager.allExpenses m →
    0 < DonationManager.x_amount x;
  records_received_fits : DonationManager.totalDonationsReceived m ≤ MAX_UINT256;
  records_minted : ∀ d, d ∈ DonationManager.allDonations m →
    DonationManager.d_nftMinted d = true →
    DonationManager.MIN_DONATION_FOR_NFT ≤ DonationManager.d_amount d;
  records_donor_order :
    DonationManager.uniqueDonors m = first_donors (DonationManager.allDonations m);
  records_by_campaign : ∀ c,
    Forall2 (λ i d, DonationManager.allDonations m !! i = Some d)
      (DonationManager.donations_of_campaign m c)
      (filter (λ d, DonationManager.d_campaignId d = c) (DonationManager.allDonations m));
  records_by_donor : ∀ a,
    Forall2 (λ i d, DonationManager.allDonations m !! i = Some d)
      (DonationManager.donations_of_donor m a)
      (filter (λ d, DonationManager.d_donor d = a) (DonationManager.allDonations m))
}.

(** A registry between transactions: the nonce of the draw has been raised
    once per certificate; a provenance record names a donor and carries the
    tier of its amount, or Special; and the token list of an address holds
    the ids whose provenance names it as the donor, in the order of
    minting. *)
Record provenance_inv (s : DonachainNFT.state) : Prop := {
  provenance_nonce : DonachainNFT._randomNonce s = DonachainNFT.totalSupply s;
  provenance_records : ∀ t d, DonachainNFT.donationDetails s !! t = Some d →
    DonachainNFT.dd_donor d ≠ 0 ∧
    (DonachainNFT.dd_tier d = DonachainNFT.Special ∨
     DonachainNFT.dd_tier d = DonachainNFT.tier_of_amount (DonachainNFT.dd_amount d));
  provenance_tokens : ∀ a,
    DonachainNFT.tokens_of s a =
      filter (λ t, DonachainNFT.dd_donor (DonachainNFT.donationDetails_get s t) = a)
             (seqZ 1 (DonachainNFT.totalSupply s))
}.

Definition provenances_inv (ns : gmap address DonachainNFT.state) : Prop :=
  ∀ a s, ns !! a = Some s → provenance_inv s.

(** The votes cast, over all campaigns. *)
Definition total_votes (v : Voting.state) : Z :=
  map_fold (λ _ n acc, n + acc) 0 (Voting.campaignVotes v).

(** Sum of the raised totals of a list of campaigns. *)
Definition raised_total (cs : list DonationManager.Campaign) : Z :=
  foldr Z.add 0 (DonationManager.c_totalRaised <$> cs).

(** What a transaction may not change of a campaign: everything but the
    raised total, which can only grow, and the active flag. *)
Definition same_terms (c c' : DonationManager.Campaign) : Prop :=
  DonationManager.c_id c' = DonationManager.c_id c ∧
  DonationManager.c_title c' = DonationManager.c_title c ∧
  DonationManager.c_description c' = DonationManager.c_description c ∧
  DonationManager.c_imageCID c' = DonationManager.c_imageCID c ∧
  DonationManager.c_targetAmount c' = DonationManager.c_targetAmount c ∧
  DonationManager.c_createdAt c' = DonationManager.c_createdAt c ∧
  DonationManager.c_deadline c' = DonationManager.c_deadline c ∧
  DonationManager.c_creator c' = DonationManager.c_creator c ∧
  DonationManager.c_totalRaised c ≤ DonationManager.c_totalRaised c'.

(** The ledger after an accepted donation of [value] to [campaignId];
    [minted] tells whether a certificate went with it. *)
Definition donation_recorded (e : Env) (value campaignId : Z) (minted : bool)
    (m : DonationManager.state) : DonationManager.state :=
  let sender := msg_sender e in
  let camp := DonationManager.campaign_at m campaignId in
  let idx := length (DonationManager.allDonations m) in
  DonationManager.mkState (DonationManager.self m) (DonationManager.owner m) false
    (DonationManager.balance m + value) (DonationManager.nftContract m)
    (DonationManager._nextCampaignId m) (DonationManager._nextExpenseId m)
    (DonationManager.totalDonationsReceived m + value)
    (DonationManager.totalExpensesLogged m)
    (<[campaignId := DonationManager.set_totalRaised
                       (DonationManager.c_totalRaised camp + value) camp]>
       (DonationManager.campaigns m))
    (DonationManager.campaignIds m)
    (DonationManager.allDonations m ++
       [DonationManager.mkDonation (Z.of_nat idx + 1) sender campaignId value
          (block_timestamp e) (prev_blockhash e) minted])
    (<[sender := DonationManager.donations_of_donor m sender ++ [idx]]>
       (DonationManager.donorDonations m))
    (<[campaignId := DonationManager.donations_of_campaign m campaignId ++ [idx]]>
       (DonationManager.campaignDonations m))
    (DonationManager.allExpenses m)
    (<[sender := DonationManager.donor_total m sender + value]>
       (DonationManager.donorTotalAmount m))
    (if decide (sender ∈ DonationManager.hasDonated m) then DonationManager.uniqueDonors m
     else DonationManager.uniqueDonors m ++ [sender])
    (if decide (sender ∈ DonationManager.hasDonated m) then DonationManager.hasDonated m
     else {[sender]} ∪ DonationManager.hasDonated m).

(** ** Strings of digits *)

(** The string has no decimal point. *)
Fixpoint dotless (s : string) : Prop :=
  match s with
  | EmptyString => True
  | String c s => c ≠ "."%char ∧ dotless s
  end.

(** The number a string of decimal digits stands for, leading zeros
    allowed. *)
Definition digit_value (c : Ascii.ascii) : Z := Z.of_nat (Ascii.nat_of_ascii c) - 48.

Fixpoint decimal_value (acc : Z) (s : string) : Z :=
  match s with
  | EmptyString => acc
  | String c s => decimal_value (10 * acc + digit_value c) s
  end.

(** ** Certificates and donation records *)

(** The provenance record [detail] is that of the donation record [d],
    made to a campaign of the ledger [m]. *)
Definition certifies (m : DonationManager.state) (detail : DonachainNFT.DonationDetail)
    (d : DonationManager.Donation) : Prop :=
  DonationManager.d_nftMinted d = true ∧
  DonachainNFT.dd_donor detail = DonationManager.d_donor d ∧
  DonachainNFT.dd_amount detail = DonationManager.d_amount d ∧
  DonachainNFT.dd_campaignId detail = DonationManager.d_campaignId d ∧
  DonachainNFT.dd_campaignTitle detail =
    DonationManager.c_title (DonationManager.campaign_at m (DonationManager.d_campaignId d)) ∧
  DonachainNFT.dd_timestamp detail = DonationManager.d_timestamp d ∧
  DonachainNFT.dd_txHash detail = DonationManager.d_txHash d.

(** Every donation record flagged [nftMinted] has its certificate in a
    deployed registry. *)
Definition minted_have_certificates (w : World) : Prop :=
  ∀ d, d ∈ DonationManager.allDonations (manager w) →
    DonationManager.d_nftMinted d = true →
    ∃ a s t detail, nfts w !! a = Some s ∧
      DonachainNFT.donationDetails s !! t = Some detail ∧
      certifies (manager w) detail d.

(** Every certificate of every registry stands for a donation record. *)
Definition certificates_have_donations (w : World) : Prop :=
  ∀ a s t detail, nfts w !! a = Some s →
    DonachainNFT.donationDetails s !! t = Some detail →
    ∃ d, d ∈ DonationManager.allDonations (manager w) ∧ certifies (manager w) detail d.

(** Certificates are minted by donations only: no account calls
    [mintCertificate] itself. *)
Definition no_direct_mint (c : Call) : Prop :=
  match c with NftMintCertificate _ _ _ _ _ _ _ => False | _ => True end.


(** ** A concrete deployment, for examples *)

(** A hash whose draw is 7777 (not Special), recipients that accept every
    transfer, and an auditing recipient that accepts a transfer only when
    the last record of the expense log is the withdrawal it is being paid. *)
Definition fixed_keccak : Keccak := λ _ _ _ _ _, 7777.
Definition lucky_keccak : Keccak := λ _ _ _ _ _, 20042.
Definition plain_recipients : DonationManager.Recipients := λ _ _ _, true.
Definition auditing_recipients : DonationManager.Recipients :=
  λ recipient amount m,
    match last (DonationManager.allExpenses m) with
    | Some x => bool_decide (DonationManager.x_recipient x = recipient ∧
                             DonationManager.x_amount x = amount)
    | None => false
    end.

Definition ledger_addr : address := 100.
Definition registry_addr : address := 200.
Definition other_registry_addr : address := 201.
Definition admin : address := 1.
Definition alice : address := 10.
Definition bob : address := 11.
Definition carol : address := 12.

Definition at_time (sender : address) (now : Z) : Env := mkEnv sender now 0 0.

(** Ledger and ballot registry just constructed; no registry deployed yet. *)
Definition world_init : World :=
  mkWorld ∅ (Voting.mkState admin false registry_addr ∅ ∅)
          (DonationManager.constructor ledger_addr admin).

(** The deployment script, then a campaign with deadline 1000. *)
Definition setup_calls : list Call :=
  [ DeployNFT registry_addr admin;
    NftSetDonationManager registry_addr (at_time admin 10) ledger_addr;
    ManagerSetNFTContract (at_time admin 10) registry_addr;
    ManagerCreateCampaign (at_time admin 10) "Wells" "Clean water" "cid"
      1000000000000000000 1000 ].

Definition world_setup : World :=
  @run fixed_keccak plain_recipients world_init setup_calls.

(** Alice gives 0.02 ether to campaign 1 and receives certificate 1. *)
Definition world_donated : World :=
  @run fixed_keccak plain_recipients world_setup
    [ ManagerDonate (at_time alice 20) 20000000000000000 1 ].

(** The administrator then closes campaign 1. *)
Definition world_closed : World :=
  @run fixed_keccak plain_recipients world_donated
    [ ManagerUpdateCampaignStatus (at_time admin 40) 1 false ].

(** Alice votes with certificate 1. *)
Definition world_voted : World :=
  @run fixed_keccak plain_recipients world_donated
    [ VotingVote (at_time alice 50) 1 1 ].

(** A second registry is deployed, with the administrator as its minter;
    it mints its certificate 1 to Bob, for campaign 2; then the ballot
    registry is pointed at it. *)
Definition world_repointed : World :=
  @run fixed_keccak plain_recipients world_voted
    [ DeployNFT other_registry_addr admin;
      NftSetDonationManager other_registry_addr (at_time admin 60) admin;
      NftMintCertificate other_registry_addr (at_time admin 61) bob
        20000000000000000 2 "Schools" 0;
      VotingSetNFTContract (at_time admin 62) other_registry_addr ].

(** Alice and Bob give 1 wei each, then Carol gives 2 wei. *)
Definition world_tie : World :=
  @run fixed_keccak plain_recipients world_setup
    [ ManagerDonate (at_time alice 20) 1 1;
      ManagerDonate (at_time bob 21) 1 1;
      ManagerDonate (at_time carol 22) 2 1 ].

(** Alice gives 1 wei, Bob 3 and Carol 2, all to campaign 1. *)
Definition world_ranked : World :=
  @run fixed_keccak plain_recipients world_setup
    [ ManagerDonate (at_time alice 20) 1 1;
      ManagerDonate (at_time bob 21) 3 1;
      ManagerDonate (at_time carol 22) 2 1 ].

(** The administrator then pays 4 wei to Bob, for campaign 1. *)
Definition world_spent : World :=
  @run fixed_keccak plain_recipients world_ranked
    [ ManagerWithdrawWithLog (at_time admin 30) "rent" bob 4 1 ].

(** After the donation of 0.02 ether Alice hands certificate 1 to Bob. *)
Definition world_handed : World :=
  @run fixed_keccak plain_recipients world_donated
    [ NftTransferFrom registry_addr alice bob 1 ].

(** The registry of the deployment in a world. *)
Definition registry_in (w : World) : DonachainNFT.state :=
  default (DonachainNFT.constructor 0) (nfts w !! registry_addr).

(** Alice gives once more, 5 wei, after Bob and Carol. *)
Definition world_again : World :=
  @run fixed_keccak plain_recipients world_ranked
    [ ManagerDonate (at_time alice 23) 5 1 ].


(** ** Reasoning about results *)

Lemma bind_OK {A B} (m : Result A) (f : A → Result B) (b : B) :
  m ≫= f = OK b ↔ ∃ a, m = OK a ∧ f a = OK b.
Proof.
  destruct m as [a|e]; simpl; split.
  - intros Hf. by exists a.
  - intros (a' & Ha & Hf). by simplify_eq.
  - intros [=].
  - by intros (a' & [=] & _).
Qed.

Lemma bind_Err {A B} (m : Result A) (f : A → Result B) (e : Error) :
  m ≫= f = Err e ↔ m = Err e ∨ ∃ a, m = OK a ∧ f a = Err e.
Proof.
  destruct m as [a|e']; simpl; split.
  - intros Hf. right. by exists a.
  - intros [[=] | (a' & Ha & Hf)]. by simplify_eq.
  - intros Hf. left. by simplify_eq.
  - intros [He | (a' & [=] & _)]. by simplify_eq.
Qed.

Lemma require_OK (P : Prop) `{Decision P} (e : Error) (u : unit) :
  require P e = OK u ↔ P.
Proof. unfold require. destruct u. case_decide; naive_solver. Qed.

Lemma require_Err (P : Prop) `{Decision P} (e e' : Error) :
  require P e = Err e' ↔ ¬ P ∧ e' = e.
Proof.
  unfold require. case_decide; split; intros Hx; try done.
  - by destruct Hx.
  - by simplify_eq.
  - destruct Hx as [_ ->]. done.
Qed.

Lemma require_true (P : Prop) `{Decision P} (e : Error) : P → require P e = OK tt.
Proof. intros HP. by apply require_OK. Qed.

Lemma require_false (P : Prop) `{Decision P} (e : Error) : ¬ P → require P e = Err e.
Proof. intros HP. by apply require_Err. Qed.

Lemma checked_add_OK (a b c : Z) :
  checked_add a b = OK c ↔ c = a + b ∧ a + b ≤ MAX_UINT256.
Proof.
  unfold checked_add. case_decide; split; intros Hx; try done.
  - by simplify_eq.
  - destruct Hx as [-> _]. done.
  - by destruct Hx.
Qed.

Lemma checked_add_fits (a b : Z) :
  a + b ≤ MAX_UINT256 → checked_add a b = OK (a + b).
Proof. intros Hle. by apply checked_add_OK. Qed.

Lemma MAX_UINT256_pos : 0 < MAX_UINT256.
Proof. by vm_compute. Qed.

(** Decompose a successful run into the successes of its steps. *)
Ltac inv_ok :=
  repeat match goal with
  | H : _ ≫= _ = OK _ |- _ =>
      let a := fresh "r" in apply bind_OK in H as (a & ? & H)
  | H : (let '(_, _) := ?p in _) = OK _ |- _ => destruct p
  | H : require _ _ = OK _ |- _ => apply require_OK in H
  | H : checked_add _ _ = OK _ |- _ => apply checked_add_OK in H as [-> ?]
  | H : OK _ = OK _ |- _ => injection H as H
  | H : Err _ = OK _ |- _ => discriminate H
  | H : (_, _) = (_, _) |- _ => injection H as ? ?
  end.

Lemma require_ext (P Q : Prop) `{Decision P} `{Decision Q} (e : Error) :
  (P ↔ Q) → require P e = require Q e.
Proof. intros HPQ. unfold require. repeat case_decide; tauto. Qed.

Lemma require_bind_true {B} (P : Prop) `{Decision P} (e : Error) (f : unit → Result B) :
  P → require P e ≫= f = f tt.
Proof. intros HP. by rewrite require_true. Qed.

Lemma require_bind_false {B} (P : Prop) `{Decision P} (e : Error) (f : unit → Result B) :
  ¬ P → require P e ≫= f = Err e.
Proof. intros HP. by rewrite require_false. Qed.

Lemma bind_OK_l {A B} (a : A) (f : A → Result B) : OK a ≫= f = f a.
Proof. reflexivity. Qed.

Lemma checked_add_bind {B} (a b : Z) (f : Z → Result B) :
  a + b ≤ MAX_UINT256 → checked_add a b ≫= f = f (a + b).
Proof. intros Hle. by rewrite checked_add_fits. Qed.


(** ** Certificate Registry: tiers *)

Section Tier.
Context `{Keccak}.
Import DonachainNFT.

Lemma tier_of_amount_mono (a b : Z) :
  a ≤ b → tier_rank (tier_of_amount a) ≤ tier_rank (tier_of_amount b).
Proof.
  unfold tier_of_amount, GOLD_THRESHOLD, SILVER_THRESHOLD.
  intros Hab. repeat case_decide; simpl; lia.
Qed.

Lemma tier_of_amount_cases (a : Z) :
  (tier_of_amount a = Gold ↔ 100000000000000000 ≤ a) ∧
  (tier_of_amount a = Silver ↔ 50000000000000000 ≤ a < 100000000000000000) ∧
  (tier_of_amount a = Bronze ↔ a < 50000000000000000) ∧
  tier_of_amount a ≠ Special.
Proof.
  unfold tier_of_amount, GOLD_THRESHOLD, SILVER_THRESHOLD.
  repeat case_decide; repeat split; intros; try done; try lia.
Qed.

Lemma mintCertificate_OK e donor amount campaignId title txHash s tokenId s' :
  mintCertificate e donor amount campaignId title txHash s = OK (tokenId, s') →
  let draw := keccak256_packed (block_timestamp e) (block_prevrandao e) donor tokenId
                (_randomNonce s + 1) `mod` 10000 in
  let d := mkDetail donor amount campaignId title (block_timestamp e) txHash
             (tier_of_draw draw amount) in
  msg_sender e = donationManager s ∧
  donor ≠ 0 ∧
  tokenId = _nextTokenId s ∧
  _nextTokenId s + 1 ≤ MAX_UINT256 ∧
  _owners s !! tokenId = None ∧
  s' = mkState (owner s) (<[tokenId := donor]> (_owners s)) (_nextTokenId s + 1)
         (_randomNonce s + 1) (donationManager s)
         (<[tokenId := d]> (donationDetails s))
         (<[donor := tokens_of s donor ++ [tokenId]]> (donorTokens s)).
Proof.
  unfold mintCertificate, _determineTier, _generateRandom, _safeMint.
  intros Hm. inv_ok. simplify_eq/=. done.
Qed.

End Tier.


(** ** Certificate Registry: invariant *)

Section Registry.
Context `{Keccak}.
Import DonachainNFT.

Lemma registry_inv_constructor a : registry_inv (constructor a).
Proof.
  split; simpl.
  - pose proof MAX_UINT256_pos. lia.
  - intros t. rewrite lookup_empty. split; [by intros [? ?] | lia].
  - intros t. rewrite lookup_empty. split; [by intros [? ?] | lia].
Qed.

Lemma registry_inv_transferOwnership e a s s' :
  transferOwnership e a s = OK s' → registry_inv s → registry_inv s'.
Proof.
  unfold transferOwnership, onlyOwner. intros Hs [? ? ?]. inv_ok. subst s'.
  by split.
Qed.

Lemma registry_inv_setDonationManager e a s s' :
  setDonationManager e a s = OK s' → registry_inv s → registry_inv s'.
Proof.
  unfold setDonationManager, onlyOwner. intros Hs [? ? ?]. inv_ok. subst s'.
  by split.
Qed.

Lemma lookup_insert_is_Some_iff {V} (m : gmap Z V) (i j : Z) (x : V) :
  is_Some (<[i := x]> m !! j) ↔ j = i ∨ is_Some (m !! j).
Proof.
  rewrite lookup_insert_is_Some. split.
  - intros [-> | [_ Hs]]; auto.
  - intros [-> | Hs]; [by left |].
    destruct (decide (i = j)); [by left | by right].
Qed.

Lemma registry_inv_mintCertificate e donor amount campaignId title txHash s tokenId s' :
  mintCertificate e donor amount campaignId title txHash s = OK (tokenId, s') →
  registry_inv s → registry_inv s'.
Proof.
  intros Hm [Hn Ho Hd].
  apply mintCertificate_OK in Hm as (_ & _ & -> & Hmax & _ & ->).
  split; simpl.
  - lia.
  - intros t. rewrite lookup_insert_is_Some_iff, Ho. lia.
  - intros t. rewrite lookup_insert_is_Some_iff, Hd. lia.
Qed.

Lemma transferFrom_OK from to tokenId s s' :
  transferFrom from to tokenId s = OK s' →
  to ≠ 0 ∧ _owners s !! tokenId = Some from ∧
  s' = set_owners (<[tokenId := to]> (_owners s)) s.
Proof.
  unfold transferFrom, ownerOf. intros Ht. inv_ok.
  destruct (_owners s !! tokenId) eqn:Ho; inv_ok. by simplify_eq.
Qed.

Lemma registry_inv_transferFrom from to tokenId s s' :
  transferFrom from to tokenId s = OK s' → registry_inv s → registry_inv s'.
Proof.
  intros Ht [Hn Ho Hd]. apply transferFrom_OK in Ht as (_ & Hfrom & ->).
  split; simpl; try done.
  intros t. rewrite lookup_insert_is_Some_iff, <-Ho.
  split; [intros [-> | ?]; [by eexists | done] | by right].
Qed.

End Registry.


(** ** Ballot Registry *)

Section Ballot.
Import Voting.

(** A set of integers between 1 and [n] has at most [n] elements. *)
Lemma size_bounded (X : gset Z) (n : Z) :
  0 ≤ n → (∀ t, t ∈ X → 1 ≤ t ≤ n) → Z.of_nat (size X) ≤ n.
Proof.
  intros Hn HX.
  assert (X ⊆ list_to_set (seqZ 1 n)) as Hsub.
  { intros t Ht. apply elem_of_list_to_set, elem_of_seqZ. specialize (HX t Ht). lia. }
  apply subseteq_size in Hsub.
  rewrite size_list_to_set in Hsub by apply NoDup_seqZ.
  rewrite length_seqZ in Hsub. lia.
Qed.

Lemma getVotes_insert v c c' n :
  getVotes (set_campaignVotes (<[c := n]> (campaignVotes v)) v) c' =
  if decide (c = c') then n else getVotes v c'.
Proof.
  unfold getVotes. simpl. rewrite lookup_insert. by case_decide.
Qed.

(** What a successful vote has checked and what it has written. *)
Lemma vote_OK ns e campaignId tokenId v v' :
  vote ns e campaignId tokenId v = OK v' →
  locked v = false ∧
  call_ownerOf ns (nftContract v) tokenId = OK (msg_sender e) ∧
  (tokenId ∉ tokenUsed v) ∧
  (∃ d, call_donationDetails ns (nftContract v) tokenId = OK d ∧
        DonachainNFT.dd_campaignId d = campaignId) ∧
  getVotes v campaignId + 1 ≤ MAX_UINT256 ∧
  v' = mkState (owner v) false (nftContract v)
         (<[campaignId := getVotes v campaignId + 1]> (campaignVotes v))
         ({[tokenId]} ∪ tokenUsed v).
Proof.
  unfold vote, nonReentrantBefore, nonReentrantAfter, hasVoted.
  intros Hv. inv_ok. simplify_eq/=.
  match goal with Hu : bool_decide _ = false |- _ => apply bool_decide_eq_false in Hu end.
  repeat split; try done. by eexists.
Qed.

(** The checks of [vote], in the order of the code. *)
Lemma vote_run ns e campaignId tokenId v :
  locked v = false →
  vote ns e campaignId tokenId v =
    (o ← call_ownerOf ns (nftContract v) tokenId;
     require (o = msg_sender e) NotOwner;;
     require (tokenId ∉ tokenUsed v) AlreadyUsed;;
     d ← call_donationDetails ns (nftContract v) tokenId;
     require (DonachainNFT.dd_campaignId d = campaignId) CampaignMismatch;;
     n ← checked_add (getVotes v campaignId) 1;
     OK (mkState (owner v) false (nftContract v)
           (<[campaignId := n]> (campaignVotes v)) ({[tokenId]} ∪ tokenUsed v))).
Proof.
  intros Hl. unfold vote, nonReentrantBefore, nonReentrantAfter, hasVoted.
  rewrite (require_true _ _ Hl). destruct v as [o l a cv tu]. simpl.
  rewrite (require_ext (bool_decide (tokenId ∈ tu) = false) (tokenId ∉ tu))
    by apply bool_decide_eq_false.
  done.
Qed.

Lemma call_ownerOf_OK ns a t o :
  call_ownerOf ns a t = OK o ↔
  ∃ s, ns !! a = Some s ∧ DonachainNFT._owners s !! t = Some o.
Proof.
  unfold call_ownerOf, DonachainNFT.ownerOf. split.
  - destruct (ns !! a) as [s|]; [|done].
    destruct (DonachainNFT._owners s !! t) eqn:Ho; [|done].
    intros ?. simplify_eq. by exists s.
  - intros (s & -> & ->). done.
Qed.


(** The id of an owned certificate is below the registry's counter. *)
Lemma owned_token_range ns a t o :
  (∀ a s, ns !! a = Some s → registry_inv s) →
  call_ownerOf ns a t = OK o → 1 ≤ t ≤ MAX_UINT256 - 1.
Proof.
  intros Hns (s & Hs & Ho)%call_ownerOf_OK.
  destruct (Hns a s Hs) as [Hn Hown _].
  assert (is_Some (DonachainNFT._owners s !! t)) as Hsome by by eexists.
  apply Hown in Hsome. lia.
Qed.

Lemma size_used_add (X : gset Z) (t : Z) :
  t ∉ X → size ({[t]} ∪ X) = S (size X).
Proof.
  intros Ht. rewrite size_union by set_solver. by rewrite size_singleton.
Qed.

(** In a state of the ballot registry between transactions the tally
    cannot overflow: so the three checks decide the vote. *)
Lemma vote_succeeds_iff ns e campaignId tokenId v :
  (∀ a s, ns !! a = Some s → registry_inv s) →
  ballot_inv v →
  succeeds (vote ns e campaignId tokenId v) ↔
    call_ownerOf ns (nftContract v) tokenId = OK (msg_sender e) ∧
    (tokenId ∉ tokenUsed v) ∧
    ∃ d, call_donationDetails ns (nftContract v) tokenId = OK d ∧
         DonachainNFT.dd_campaignId d = campaignId.
Proof.
  intros Hns [Hl Hr Hb]. split.
  - intros [v' Hv]. apply vote_OK in Hv as (_ & Ho & Hu & Hd & _). done.
  - intros (Ho & Hu & d & Hd & Hc).
    rewrite vote_run by done. rewrite Ho. simpl.
    rewrite require_true by done. simpl.
    rewrite require_true by done. simpl.
    rewrite Hd. simpl. rewrite require_true by done. simpl.
    rewrite checked_add_fits; [by eexists|].
    pose proof (owned_token_range _ _ _ _ Hns Ho) as Ht.
    assert (Z.of_nat (size ({[tokenId]} ∪ tokenUsed v)) ≤ MAX_UINT256 - 1) as Hsz.
    { apply size_bounded; [lia|]. intros t [->%elem_of_singleton | Hin]%elem_of_union.
      - done.
      - by apply Hr. }
    rewrite size_used_add in Hsz by done.
    specialize (Hb campaignId). lia.
Qed.

Lemma ballot_inv_vote ns e campaignId tokenId v v' :
  (∀ a s, ns !! a = Some s → registry_inv s) →
  vote ns e campaignId tokenId v = OK v' → ballot_inv v → ballot_inv v'.
Proof.
  intros Hns Hv [Hl Hr Hb].
  apply vote_OK in Hv as (_ & Ho & Hu & _ & Hfit & ->).
  pose proof (owned_token_range _ _ _ _ Hns Ho) as Ht.
  split; simpl.
  - done.
  - intros t [->%elem_of_singleton | Hin]%elem_of_union; [done | by apply Hr].
  - intros c. specialize (Hb c). rewrite size_used_add by done.
    unfold getVotes in *. simpl. rewrite lookup_insert.
    case_decide; simplify_eq/=; lia.
Qed.

Lemma ballot_inv_constructor a n v : constructor a n = OK v → ballot_inv v.
Proof.
  unfold constructor. intros Hc. inv_ok. subst v. split; simpl.
  - done.
  - intros t. set_solver.
  - intros c. unfold getVotes. simpl. rewrite lookup_empty. simpl. lia.
Qed.

Lemma ballot_inv_transferOwnership e a v v' :
  transferOwnership e a v = OK v' → ballot_inv v → ballot_inv v'.
Proof.
  unfold transferOwnership, onlyOwner. intros Hs [? ? ?]. inv_ok. subst v'.
  by split.
Qed.

Lemma ballot_inv_setNFTContract e a v v' :
  setNFTContract e a v = OK v' → ballot_inv v → ballot_inv v'.
Proof.
  unfold setNFTContract, onlyOwner. intros Hs [? ? ?]. inv_ok. subst v'.
  by split.
Qed.

End Ballot.


(** ** Ballot Registry: tallies against used certificates *)

Section Tally.
Import Voting.


Lemma used_count_no_registry ns v c :
  ns !! nftContract v = None → used_count ns v c = 0.
Proof. intros Hs. unfold used_count, used_certificates. by rewrite Hs. Qed.









End Tally.


(** ** Campaign Ledger *)

Section Ledger.
Context `{Keccak} `{DonationManager.Recipients}.
Import DonationManager.

Lemma alter_last {A} (f : A → A) (l : list A) (x : A) :
  alter f (length (l ++ [x]) - 1)%nat (l ++ [x]) = l ++ [f x].
Proof.
  rewrite length_app. simpl.
  replace (length l + 1 - 1)%nat with (length l + 0)%nat by lia.
  by rewrite alter_app_r.
Qed.

(** What an accepted donation has checked and what it has written. *)
Lemma donate_OK ns e value campaignId m m' ns' :
  donate ns e value campaignId m = OK (m', ns') →
  let sender := msg_sender e in
  let camp := campaign_at m campaignId in
  let idx := length (allDonations m) in
  let minted := bool_decide (MIN_DONATION_FOR_NFT ≤ value ∧ nftContract m ≠ 0) in
  let donation := mkDonation (Z.of_nat idx + 1) sender campaignId value
                    (block_timestamp e) (prev_blockhash e) minted in
  locked m = false ∧ 0 < value ∧ c_id camp ≠ 0 ∧ c_isActive camp = true ∧
  block_timestamp e ≤ c_deadline camp ∧
  c_totalRaised camp + value ≤ MAX_UINT256 ∧
  totalDonationsReceived m + value ≤ MAX_UINT256 ∧
  m' = mkState (self m) (owner m) false (balance m + value) (nftContract m)
         (_nextCampaignId m) (_nextExpenseId m) (totalDonationsReceived m + value)
         (totalExpensesLogged m)
         (<[campaignId := set_totalRaised (c_totalRaised camp + value) camp]>
            (campaigns m))
         (campaignIds m) (allDonations m ++ [donation])
         (<[sender := donations_of_donor m sender ++ [idx]]> (donorDonations m))
         (<[campaignId := donations_of_campaign m campaignId ++ [idx]]>
            (campaignDonations m))
         (allExpenses m)
         (<[sender := donor_total m sender + value]> (donorTotalAmount m))
         (if decide (sender ∈ hasDonated m) then uniqueDonors m
          else uniqueDonors m ++ [sender])
         (if decide (sender ∈ hasDonated m) then hasDonated m
          else {[sender]} ∪ hasDonated m) ∧
  (if minted
   then ∃ tokenId, call_mintCertificate ns (nftContract m) (with_sender (self m) e)
                     sender value campaignId (c_title camp) (prev_blockhash e)
                   = OK (tokenId, ns')
   else ns' = ns).
Proof.
  unfold donate, donate_record, nonReentrantBefore, nonReentrantAfter.
  destruct m as [this own lk bal nft nc nx rcv spt cs cids ds dd cd xs dt ud hd].
  unfold campaign_at, donor_total, donations_of_donor, donations_of_campaign. simpl.
  intros Hd. inv_ok. subst. simpl in *.
  rewrite length_app in *. simpl in *.
  replace (length ds + 1 - 1)%nat with (length ds + 0)%nat in * by lia.
  destruct (decide (msg_sender e ∈ hd)); simpl in *.
  all: case_decide as Hmint; simpl in *.
  all: inv_ok; subst; simpl in *.
  all: rewrite ?alter_app_r; simpl.
  all: rewrite ?Nat.add_0_r in *.
  all: rewrite ?lookup_insert_eq in *; simpl in *.
  all: first [rewrite bool_decide_eq_true_2 by done
             | rewrite bool_decide_eq_false_2 by done].
  all: repeat split; try done.
  all: by eexists.
Qed.

(** The checks of [donate] up to the deadline, in the order of the code. *)
Lemma donate_checks ns e value campaignId m :
  locked m = false →
  let camp := campaign_at m campaignId in
  (¬ 0 < value → donate ns e value campaignId m = Err InvalidInput) ∧
  (0 < value → c_id camp = 0 → donate ns e value campaignId m = Err NotFound) ∧
  (0 < value → c_id camp ≠ 0 → c_isActive camp ≠ true →
     donate ns e value campaignId m = Err CampaignInactive) ∧
  (0 < value → c_id camp ≠ 0 → c_isActive camp = true →
     c_deadline camp < block_timestamp e →
     donate ns e value campaignId m = Err DeadlinePassed).
Proof.
  intros Hl camp. subst camp. unfold donate, nonReentrantBefore.
  rewrite (require_bind_true (locked m = false)) by done.
  rewrite !bind_OK_l. cbv beta zeta.
  change (campaign_at (set_balance _ (set_locked true m)) campaignId)
    with (campaign_at m campaignId).
  repeat split.
  - intros Hv. by rewrite (require_bind_false (0 < value)).
  - intros Hv Hid. rewrite (require_bind_true (0 < value)) by done.
    rewrite (require_bind_false (_ ≠ 0)); [reflexivity | by intros Hne].
  - intros Hv Hid Ha. rewrite (require_bind_true (0 < value)) by done.
    rewrite (require_bind_true (_ ≠ 0)) by done.
    by rewrite (require_bind_false (_ = true)).
  - intros Hv Hid Ha Hdl. rewrite (require_bind_true (0 < value)) by done.
    rewrite (require_bind_true (_ ≠ 0)) by done.
    rewrite (require_bind_true (_ = true)) by done.
    rewrite (require_bind_false (_ ≤ _)); [reflexivity | lia].
Qed.

Lemma donate_locked ns e value campaignId m :
  locked m = true → donate ns e value campaignId m = Err Reentrant.
Proof.
  intros Hl. unfold donate, nonReentrantBefore.
  rewrite (require_bind_false (locked m = false)); [reflexivity | by rewrite Hl].
Qed.

Lemma withdrawWithLog_OK e description recipient amount campaignId m m' :
  withdrawWithLog e description recipient amount campaignId m = OK m' →
  msg_sender e = owner m ∧ locked m = false ∧
  (0 < String.length description)%nat ∧ recipient ≠ 0 ∧
  0 < amount ≤ balance m ∧
  _nextExpenseId m + 1 ≤ MAX_UINT256 ∧
  totalExpensesLogged m + amount ≤ MAX_UINT256 ∧
  accepts_transfer recipient amount
    (withdrawal_logged e description recipient amount campaignId m) = true ∧
  m' = set_locked false (withdrawal_logged e description recipient amount campaignId m).
Proof.
  unfold withdrawWithLog, onlyOwner, nonReentrantBefore, transfer,
    nonReentrantAfter, withdrawal_logged.
  destruct m as [this own lk bal nft nc nx rcv spt cs cids ds dd cd xs dt ud hd].
  simpl. intros Hw. inv_ok. subst. simpl in *.
  match goal with Hx : (if ?b then _ else _) = OK _ |- _ =>
    destruct b eqn:Hacc; [|discriminate Hx] end.
  inv_ok. subst. repeat split; try done; lia.
Qed.

(** Once its checks pass, [withdrawWithLog] logs, then transfers: the
    verdict of the recipient on the logged state is the outcome. *)
Lemma withdrawWithLog_run e description recipient amount campaignId m :
  msg_sender e = owner m → locked m = false →
  (0 < String.length description)%nat → recipient ≠ 0 →
  0 < amount ≤ balance m →
  _nextExpenseId m + 1 ≤ MAX_UINT256 →
  totalExpensesLogged m + amount ≤ MAX_UINT256 →
  withdrawWithLog e description recipient amount campaignId m =
    if accepts_transfer recipient amount
         (withdrawal_logged e description recipient amount campaignId m)
    then OK (set_locked false
               (withdrawal_logged e description recipient amount campaignId m))
    else Err TransferRejected.
Proof.
  intros Ho Hl Hd Hr [Ha Hb] Hx Hs.
  unfold withdrawWithLog, onlyOwner, nonReentrantBefore, transfer,
    nonReentrantAfter, withdrawal_logged.
  destruct m as [this own lk bal nft nc nx rcv spt cs cids ds dd cd xs dt ud hd].
  simpl in *.
  rewrite (require_bind_true (msg_sender e = own)) by done.
  rewrite (require_bind_true (lk = false)) by done. simpl.
  rewrite (require_bind_true (0 < String.length description)%nat) by done.
  rewrite (require_bind_true (recipient ≠ 0)) by done.
  rewrite (require_bind_true (0 < amount)) by done.
  rewrite (require_bind_true (amount ≤ bal)) by done.
  rewrite (checked_add_bind nx 1) by done. simpl.
  rewrite (checked_add_bind spt amount) by done. simpl.
  subst lk. by destruct (accepts_transfer _ _ _).
Qed.


End Ledger.


(** ** Campaign Ledger: sums and invariant *)

Section LedgerInv.
Context `{Keccak} `{DonationManager.Recipients}.
Import DonationManager.

Lemma sum_app (l1 l2 : list Z) :
  foldr Z.add 0 (l1 ++ l2) = foldr Z.add 0 l1 + foldr Z.add 0 l2.
Proof. induction l1 as [|x l1 IH]; simpl; lia. Qed.

Lemma total_donated_snoc ds d : total_donated (ds ++ [d]) = total_donated ds + d_amount d.
Proof. unfold total_donated. rewrite fmap_app, sum_app. simpl. lia. Qed.

Lemma spent_total_snoc xs x : spent_total (xs ++ [x]) = spent_total xs + x_amount x.
Proof. unfold spent_total. rewrite fmap_app, sum_app. simpl. lia. Qed.

Lemma donated_to_snoc id ds d :
  donated_to id (ds ++ [d]) =
    donated_to id ds + (if decide (d_campaignId d = id) then d_amount d else 0).
Proof.
  unfold donated_to. rewrite filter_app, fmap_app, sum_app. f_equal.
  rewrite filter_cons, filter_nil. case_decide; simpl; lia.
Qed.

Lemma donated_by_snoc a ds d :
  donated_by a (ds ++ [d]) =
    donated_by a ds + (if decide (d_donor d = a) then d_amount d else 0).
Proof.
  unfold donated_by. rewrite filter_app, fmap_app, sum_app. f_equal.
  rewrite filter_cons, filter_nil. case_decide; simpl; lia.
Qed.

Lemma donated_to_absent id ds :
  (∀ d, d ∈ ds → d_campaignId d ≠ id) → donated_to id ds = 0.
Proof.
  unfold donated_to. induction ds as [|d ds IH]; intros Hds; [done|].
  rewrite filter_cons. rewrite decide_False by (apply Hds; left).
  apply IH. intros d' Hd'. apply Hds. by right.
Qed.

Lemma campaign_at_exists m id :
  c_id (campaign_at m id) ≠ 0 → campaigns m !! id = Some (campaign_at m id).
Proof.
  unfold campaign_at. destruct (campaigns m !! id) as [c|]; [done|].
  simpl. by intros [].
Qed.

Lemma campaign_at_insert m m' id id' c :
  campaigns m' = <[id := c]> (campaigns m) →
  campaign_at m' id' = if decide (id = id') then c else campaign_at m id'.
Proof.
  intros Hm'. unfold campaign_at. rewrite Hm', lookup_insert.
  by case_decide.
Qed.

Lemma campaign_at_same m m' id :
  campaigns m' = campaigns m → campaign_at m' id = campaign_at m id.
Proof. intros Hm'. unfold campaign_at. by rewrite Hm'. Qed.

Lemma campaign_exists_iff m id :
  ledger_inv m → campaign_exists m id ↔ is_Some (campaigns m !! id).
Proof.
  intros Hinv. unfold campaign_exists. split.
  - intros Hc. rewrite campaign_at_exists by done. by eexists.
  - intros [c Hc]. unfold campaign_at. rewrite Hc. simpl.
    destruct (ledger_campaign_ids m Hinv id c Hc) as [-> ?]. lia.
Qed.

Lemma ledger_inv_constructor this admin : ledger_inv (constructor this admin).
Proof.
  split; simpl; try done.
  - intros d Hd. by apply elem_of_nil in Hd.
  - constructor.
  - intros a. rewrite elem_of_nil. split; [|done]. apply not_elem_of_empty.
  - intros a. rewrite elem_of_nil. split; [done|].
    intros (d & Hd & _). by apply elem_of_nil in Hd.
Qed.

Lemma ledger_inv_transferOwnership e a m m' :
  transferOwnership e a m = OK m' → ledger_inv m → ledger_inv m'.
Proof.
  unfold transferOwnership, onlyOwner. intros Hs []. inv_ok. subst m'.
  by split.
Qed.

Lemma ledger_inv_setNFTContract e a m m' :
  setNFTContract e a m = OK m' → ledger_inv m → ledger_inv m'.
Proof.
  unfold setNFTContract, onlyOwner. intros Hs []. inv_ok. subst m'.
  by split.
Qed.

Lemma createCampaign_OK e title description imageCID targetAmount deadline m id m' :
  createCampaign e title description imageCID targetAmount deadline m = OK (id, m') →
  msg_sender e = owner m ∧ id = _nextCampaignId m ∧
  _nextCampaignId m + 1 ≤ MAX_UINT256 ∧
  m' = set_campaignIds (campaignIds m ++ [id])
         (set_campaigns
            (<[id := mkCampaign id title description imageCID targetAmount 0 true
                       (block_timestamp e) deadline (msg_sender e)]> (campaigns m))
            (set_nextCampaignId (id + 1) m)).
Proof.
  unfold createCampaign, onlyOwner. intros Hc. inv_ok. by simplify_eq.
Qed.

Lemma ledger_inv_createCampaign e title description imageCID targetAmount deadline
    m id m' :
  createCampaign e title description imageCID targetAmount deadline m = OK (id, m') →
  ledger_inv m → ledger_inv m'.
Proof.
  intros (_ & -> & Hfit & ->)%createCampaign_OK [Hl Hb Hbn Hr Hs Hn Hids Hds Hra Hdt Hud Hhd Hdn].
  split; simpl; try done.
  - lia.
  - intros id c [[<- <-] | [Hne Hc]]%lookup_insert_Some; simpl.
    + lia.
    + destruct (Hids id c Hc). lia.
  - intros d Hd. destruct (Hds d Hd) as [Hsome Hpos]. split; [|done].
    apply lookup_insert_is_Some_iff. by right.
  - intros id c [[<- <-] | [Hne Hc]]%lookup_insert_Some; simpl.
    + symmetry. apply donated_to_absent. intros d Hd Heq.
      destruct (Hds d Hd) as [[c Hc] _]. destruct (Hids _ c Hc). lia.
    + by apply Hra.
Qed.

Lemma updateCampaignStatus_OK e id isActive m m' :
  updateCampaignStatus e id isActive m = OK m' →
  msg_sender e = owner m ∧
  campaigns m !! id = Some (campaign_at m id) ∧
  m' = set_campaigns (<[id := set_isActive isActive (campaign_at m id)]> (campaigns m)) m.
Proof.
  unfold updateCampaignStatus, onlyOwner. intros Hu. inv_ok. simplify_eq.
  repeat split; try done. by apply campaign_at_exists.
Qed.

Lemma ledger_inv_updateCampaignStatus e id isActive m m' :
  updateCampaignStatus e id isActive m = OK m' → ledger_inv m → ledger_inv m'.
Proof.
  intros (_ & Hc & ->)%updateCampaignStatus_OK [Hl Hb Hbn Hr Hs Hn Hids Hds Hra Hdt Hud Hhd Hdn].
  split; simpl; try done.
  - intros id' c [[<- <-] | [Hne Hc']]%lookup_insert_Some; simpl.
    + by apply Hids.
    + by apply Hids.
  - intros d Hd. destruct (Hds d Hd) as [Hsome Hpos]. split; [|done].
    apply lookup_insert_is_Some_iff. by right.
  - intros id' c [[<- <-] | [Hne Hc']]%lookup_insert_Some; simpl.
    + by apply Hra.
    + by apply Hra.
Qed.

Lemma ledger_inv_withdrawWithLog e description recipient amount campaignId m m' :
  withdrawWithLog e description recipient amount campaignId m = OK m' →
  ledger_inv m → ledger_inv m'.
Proof.
  intros (_ & _ & _ & _ & Ha & _ & _ & _ & ->)%withdrawWithLog_OK
    [Hl Hb Hbn Hr Hs Hn Hids Hds Hra Hdt Hud Hhd Hdn].
  unfold ledger_balance in *.
  split; simpl; try done.
  - unfold ledger_balance. simpl. lia.
  - lia.
  - rewrite spent_total_snoc. simpl. lia.
Qed.

Lemma ledger_inv_donate ns e value campaignId m m' ns' :
  donate ns e value campaignId m = OK (m', ns') → ledger_inv m → ledger_inv m'.
Proof.
  intros Hd [Hl Hb Hbn Hr Hs Hn Hids Hds Hra Hdt Hud Hhd Hdn].
  apply donate_OK in Hd as (_ & Hv & Hid & _ & _ & _ & _ & -> & _).
  apply campaign_at_exists in Hid.
  unfold ledger_balance in *.
  split; simpl; try done.
  - unfold ledger_balance. simpl. lia.
  - lia.
  - rewrite total_donated_snoc. simpl. lia.
  - intros id c [[<- <-] | [Hne Hc]]%lookup_insert_Some; simpl.
    + by apply Hids.
    + by apply Hids.
  - intros d [Hd | ->%list_elem_of_singleton]%elem_of_app.
    + destruct (Hds d Hd) as [Hsome Hpos]. split; [|done].
      apply lookup_insert_is_Some_iff. by right.
    + simpl. split; [|done]. apply lookup_insert_is_Some_iff. by left.
  - intros id c [[<- <-] | [Hne Hc]]%lookup_insert_Some; simpl.
    + rewrite donated_to_snoc. simpl. rewrite decide_True by done.
      rewrite (Hra _ _ Hid). done.
    + rewrite donated_to_snoc. simpl. rewrite decide_False by done.
      rewrite (Hra _ _ Hc). lia.
  - intros a. unfold donor_total in *. simpl. rewrite donated_by_snoc. simpl.
    rewrite lookup_insert. specialize (Hdt a) as Ha. specialize (Hdt (msg_sender e)).
    case_decide; simplify_eq/=; lia.
  - case_decide as Hin; [done|].
    apply NoDup_app. repeat split; [done | | apply NoDup_singleton].
    intros a Ha ->%list_elem_of_singleton. apply Hin. by apply Hhd.
  - intros a. case_decide as Hin.
    + apply Hhd.
    + rewrite elem_of_union, elem_of_singleton, elem_of_app, list_elem_of_singleton.
      rewrite Hhd. tauto.
  - intros a.
    assert (a ∈ (if decide (msg_sender e ∈ hasDonated m) then uniqueDonors m
                 else uniqueDonors m ++ [msg_sender e])
            ↔ a ∈ uniqueDonors m ∨ a = msg_sender e) as ->.
    { case_decide as Hin.
      - split; [by left|]. intros [Ha | ->]; [done | by apply Hhd].
      - by rewrite elem_of_app, list_elem_of_singleton. }
    rewrite Hdn. split.
    + intros [(d & Hd & Hda) | ->].
      * exists d. split; [|done]. apply elem_of_app. by left.
      * eexists. split; [apply elem_of_app; right; by apply list_elem_of_singleton|].
        done.
    + intros (d & [Hd | ->%list_elem_of_singleton]%elem_of_app & Hda).
      * left. by exists d.
      * right. by simpl in Hda.
Qed.

End LedgerInv.


(** ** Loops *)

Section Loops.

Lemma for_loop_empty {St} (lo hi : nat) (body : nat → St → St) (s : St) :
  (hi ≤ lo)%nat → for_loop lo hi body s = s.
Proof.
  intros Hle. unfold for_loop. by replace (hi - lo)%nat with 0%nat by lia.
Qed.

Lemma for_loop_snoc {St} (lo hi : nat) (body : nat → St → St) (s : St) :
  (lo ≤ hi)%nat → for_loop lo (S hi) body s = body hi (for_loop lo hi body s).
Proof.
  intros Hle. unfold for_loop.
  replace (S hi - lo)%nat with (S (hi - lo)) by lia.
  rewrite seq_S, foldl_snoc. f_equal. lia.
Qed.

(** Invariant rule of the [for] loop. *)
Lemma for_loop_ind {St} (P : nat → St → Prop) (lo hi : nat) (body : nat → St → St) (s : St) :
  (lo ≤ hi)%nat →
  P lo s →
  (∀ k s, (lo ≤ k < hi)%nat → P k s → P (S k) (body k s)) →
  P hi (for_loop lo hi body s).
Proof.
  intros Hle H0 Hstep. induction Hle as [|hi Hle IH].
  - by rewrite for_loop_empty.
  - rewrite for_loop_snoc by done. apply Hstep; [lia|].
    apply IH. intros k s' Hk. apply Hstep. lia.
Qed.

(** A loop over a pair whose components do not interact. *)
Lemma for_loop_pair {A B} (lo hi : nat) (F : nat → A → A) (G : nat → B → B) a b :
  for_loop lo hi (λ i '(x, y), (F i x, G i y)) (a, b) =
    (for_loop lo hi F a, for_loop lo hi G b).
Proof.
  unfold for_loop. generalize (seq lo (hi - lo)). intros l. revert a b.
  induction l as [|i l IH]; intros a b; simpl; [done|]. by rewrite IH.
Qed.

(** The second component of a loop that computes it on its own. *)
Lemma for_loop_snd {A B} (lo hi : nat) (F : nat → A * B → A * B) (G : nat → B → B) p :
  (∀ k q, (F k q).2 = G k q.2) →
  (for_loop lo hi F p).2 = for_loop lo hi G p.2.
Proof.
  intros HFG. unfold for_loop. generalize (seq lo (hi - lo)). intros l. revert p.
  induction l as [|i l IH]; intros p; simpl; [done|]. by rewrite IH, HFG.
Qed.

(** [for i < k: a[i] = g(i)] fills the first [k] cells. *)
Lemma fill_loop {A} (g : nat → A) (k : nat) (a0 : list A) :
  (k ≤ length a0)%nat →
  for_loop 0 k (λ i a, <[i := g i]> a) a0 = (g <$> seq 0 k) ++ drop k a0.
Proof.
  intros Hk.
  apply (for_loop_ind (λ k a, a = (g <$> seq 0 k) ++ drop k a0)); [lia | done |].
  intros j a Hj ->.
  destruct (lookup_lt_is_Some_2 a0 j) as [x Hx]; [lia|].
  rewrite (drop_S a0 x j) by done.
  rewrite seq_S, fmap_app. simpl. rewrite <-app_assoc. simpl.
  rewrite insert_app_r_alt; rewrite length_fmap, length_seq; [|lia].
  by replace (j - j)%nat with 0%nat by lia.
Qed.

Lemma lookups_take {A} `{!Inhabited A} (l : list A) (k : nat) :
  (k ≤ length l)%nat → (λ i, l !!! i) <$> seq 0 k = take k l.
Proof.
  intros Hk. apply list_eq. intros i.
  rewrite list_lookup_fmap.
  destruct (decide (i < k)%nat) as [Hi|Hi].
  - rewrite lookup_seq_lt, lookup_take_lt by done. simpl.
    destruct (lookup_lt_is_Some_2 l i) as [x Hx]; [lia|].
    by rewrite (list_lookup_total_correct _ _ _ Hx), Hx.
  - by rewrite lookup_seq_ge, lookup_take_ge by lia.
Qed.

Lemma lookups_all {A} `{!Inhabited A} (l : list A) :
  (λ i, l !!! i) <$> seq 0 (length l) = l.
Proof. rewrite lookups_take by done. by rewrite firstn_all. Qed.

End Loops.

(** ** The sorting loop of [getLeaderboard] *)

Section Sorting.
Import DonationManager.

Lemma exchange_if_greater_snd i j p :
  (exchange_if_greater i j p).2 = exchange_totals i j p.2.
Proof.
  destruct p as [donors totals]. unfold exchange_if_greater, exchange_totals. simpl.
  by case_decide.
Qed.

Lemma exchange_totals_length i j t : length (exchange_totals i j t) = length t.
Proof. unfold exchange_totals. case_decide; by rewrite ?length_insert. Qed.

(** After the exchange the larger total is at [i], the smaller at [j]. *)
Lemma exchange_totals_lookup i j t p :
  (i < j < length t)%nat → (p < length t)%nat →
  exchange_totals i j t !!! p =
    if decide (p = i) then Z.max (t !!! i) (t !!! j)
    else if decide (p = j) then Z.min (t !!! i) (t !!! j)
    else t !!! p.
Proof.
  intros Hij Hp. unfold exchange_totals.
  destruct (decide (t !!! i < t !!! j)) as [Hlt|Hge].
  - destruct (decide (p = i)) as [->|Hpi].
    + rewrite list_lookup_total_insert_ne by lia.
      rewrite list_lookup_total_insert_eq by lia. lia.
    + destruct (decide (p = j)) as [->|Hpj].
      * rewrite list_lookup_total_insert_eq by (rewrite length_insert; lia). lia.
      * by rewrite !list_lookup_total_insert_ne by done.
  - repeat case_decide; subst; lia.
Qed.

(** The inner loop at [i] brings a largest total of the positions from
    [i] on to position [i], leaves the positions before [i] alone and
    only moves totals among the positions from [i] on. *)
Lemma inner_loop_totals i t :
  (i < length t)%nat →
  let t' := for_loop (i + 1) (length t) (exchange_totals i) t in
  length t' = length t ∧
  (∀ p, (p < i)%nat → t' !!! p = t !!! p) ∧
  (∀ p, (i < p < length t)%nat → t' !!! p ≤ t' !!! i) ∧
  (∀ q, (i ≤ q < length t)%nat → ∃ q', (i ≤ q' < length t)%nat ∧ t' !!! q = t !!! q').
Proof.
  intros Hi. simpl.
  apply (for_loop_ind (λ k s,
    length s = length t ∧
    (∀ p, (p < i)%nat → s !!! p = t !!! p) ∧
    (∀ p, (i < p < k)%nat → s !!! p ≤ s !!! i) ∧
    (∀ q, (i ≤ q < length t)%nat →
       ∃ q', (i ≤ q' < length t)%nat ∧ s !!! q = t !!! q'))).
  - lia.
  - repeat split; try done; [lia|]. intros q Hq. by exists q.
  - intros k s Hk (Hlen & Hpre & Hmax & Hfrom).
    assert (∀ p, (p < length t)%nat →
              exchange_totals i k s !!! p =
                if decide (p = i) then Z.max (s !!! i) (s !!! k)
                else if decide (p = k) then Z.min (s !!! i) (s !!! k)
                else s !!! p) as Hx.
    { intros p Hp. apply exchange_totals_lookup; lia. }
    repeat split.
    + by rewrite exchange_totals_length.
    + intros p Hp. rewrite Hx by lia.
      rewrite decide_False by lia. rewrite decide_False by lia. by apply Hpre.
    + intros p Hp. rewrite (Hx p), (Hx i) by lia.
      rewrite (decide_False (P := p = i)) by lia.
      rewrite (decide_True (P := i = i)) by done.
      destruct (decide (p = k)) as [->|Hpk]; [lia|].
      assert (s !!! p ≤ s !!! i) by (apply Hmax; lia). lia.
    + intros q Hq. rewrite Hx by lia.
      destruct (Hfrom i) as (qi & Hqi & Hei); [lia|].
      destruct (Hfrom k) as (qk & Hqk & Hek); [lia|].
      destruct (decide (q = i)) as [->|Hqi'].
      * destruct (Z.max_spec (s !!! i) (s !!! k)) as [[_ ->] | [_ ->]];
          [by exists qk | by exists qi].
      * destruct (decide (q = k)) as [->|Hqk'].
        -- destruct (Z.min_spec (s !!! i) (s !!! k)) as [[_ ->] | [_ ->]];
             [by exists qi | by exists qk].
        -- by apply Hfrom.
Qed.

(** The two nested loops leave the totals in descending order. *)
Lemma sort_loop_totals t :
  let t' := for_loop 0 (length t)
              (λ i, for_loop (i + 1) (length t) (exchange_totals i)) t in
  length t' = length t ∧
  ∀ p q, (p < q < length t)%nat → t' !!! q ≤ t' !!! p.
Proof.
  simpl.
  enough (length (for_loop 0 (length t)
                    (λ i, for_loop (i + 1) (length t) (exchange_totals i)) t)
            = length t ∧
          ∀ p q, (p < length t)%nat → (p < q < length t)%nat →
            for_loop 0 (length t)
              (λ i, for_loop (i + 1) (length t) (exchange_totals i)) t !!! q
            ≤ for_loop 0 (length t)
                (λ i, for_loop (i + 1) (length t) (exchange_totals i)) t !!! p)
    as [Hl Hs].
  { split; [done|]. intros p q Hpq. apply Hs; lia. }
  apply (for_loop_ind (λ i s,
    length s = length t ∧
    ∀ p q, (p < i)%nat → (p < q < length t)%nat → s !!! q ≤ s !!! p)).
  - lia.
  - split; [done|]. intros p q Hp. lia.
  - intros i s Hi [Hlen Hsorted]. rewrite <-Hlen.
    destruct (inner_loop_totals i s) as (Hlen' & Hpre & Hmax & Hfrom); [lia|].
    split; [done|].
    intros p q Hp Hq. destruct (decide (p = i)) as [->|Hpi].
    + apply Hmax. lia.
    + rewrite (Hpre p) by lia.
      destruct (decide (q < i)%nat) as [Hqi|Hqi].
      * rewrite (Hpre q) by lia. apply Hsorted; lia.
      * destruct (Hfrom q) as (q' & Hq' & ->); [lia|]. apply Hsorted; lia.
Qed.

(** An exchange keeps the two arrays aligned: the donor stays with its
    total. *)
Lemma exchange_if_greater_zip n i j (d : list address) (t : list Z) :
  (i < n)%nat → (j < n)%nat → length d = n → length t = n →
  length (exchange_if_greater i j (d, t)).1 = n ∧
  length (exchange_if_greater i j (d, t)).2 = n ∧
  zip (exchange_if_greater i j (d, t)).1 (exchange_if_greater i j (d, t)).2 ≡ₚ zip d t.
Proof.
  intros Hi Hj Hd Ht. unfold exchange_if_greater. case_decide; simpl; [|done].
  rewrite !length_insert. repeat split; try done.
  rewrite <-!insert_zip_with.
  apply Permutation_insert_swap.
  - rewrite lookup_zip_with.
    rewrite (list_lookup_lookup_total_lt d i), (list_lookup_lookup_total_lt t i) by lia.
    done.
  - rewrite lookup_zip_with.
    rewrite (list_lookup_lookup_total_lt d j), (list_lookup_lookup_total_lt t j) by lia.
    done.
Qed.

Lemma sort_loop_zip (d : list address) (t : list Z) :
  length d = length t →
  let r := for_loop 0 (length t)
             (λ i, for_loop (i + 1) (length t) (λ j, exchange_if_greater i j)) (d, t) in
  length r.1 = length t ∧ length r.2 = length t ∧ zip r.1 r.2 ≡ₚ zip d t.
Proof.
  intros Hd. simpl.
  apply (for_loop_ind (λ (_ : nat) (r : list address * list Z),
    length r.1 = length t ∧ length r.2 = length t ∧ zip r.1 r.2 ≡ₚ zip d t)).
  - lia.
  - done.
  - intros i r Hi Hr.
    apply (for_loop_ind (λ (_ : nat) (r : list address * list Z),
      length r.1 = length t ∧ length r.2 = length t ∧ zip r.1 r.2 ≡ₚ zip d t)).
    + lia.
    + done.
    + intros j [d' t'] Hj (Hd' & Ht' & Hp). simpl in Hd', Ht', Hp.
      destruct (exchange_if_greater_zip (length t) i j d' t') as (? & ? & Hp');
        [lia | lia | done | done |].
      repeat split; try done. by rewrite Hp'.
Qed.

Lemma zip_with_totals (f : address → Z) (u : list address) :
  zip u (f <$> u) = (λ a, (a, f a)) <$> u.
Proof. induction u as [|a u IH]; simpl; [done|]. f_equal. exact IH. Qed.

Lemma StronglySorted_lookup {A} (R : A → A → Prop) (l : list A) :
  (∀ i j x y, (i < j)%nat → l !! i = Some x → l !! j = Some y → R x y) →
  StronglySorted R l.
Proof.
  induction l as [|a l IH]; intros Hl; constructor.
  - apply IH. intros i j x y Hij Hx Hy. by apply (Hl (S i) (S j)); [lia | |].
  - apply Forall_lookup. intros j y Hy. by apply (Hl 0%nat (S j)); [lia | |].
Qed.

(** [getLeaderboard] returns the first [count] entries of a ranking of the
    donors that is a rearrangement of the donor list, totals descending. *)
Lemma getLeaderboard_ranked count m :
  ∃ ranked : list (address * Z),
    ranked ≡ₚ leaderboard_entries m ∧
    descending ranked ∧
    getLeaderboard count m = ((take count ranked).*1, (take count ranked).*2).
Proof.
  unfold getLeaderboard.
  set (n := length (uniqueDonors m)).
  set (c := if decide (n < count)%nat then n else count).
  assert (c = Nat.min count n) as Hc by (unfold c; case_decide; lia).
  (* the fill loop *)
  rewrite (for_loop_pair 0 n (λ i a, <[i := uniqueDonors m !!! i]> a)
             (λ i a, <[i := donor_total m (uniqueDonors m !!! i)]> a)).
  rewrite !fill_loop by (rewrite length_replicate; lia).
  rewrite !drop_ge by (rewrite length_replicate; lia).
  rewrite !app_nil_r.
  change (λ i, donor_total m (uniqueDonors m !!! i))
    with (donor_total m ∘ (λ i, uniqueDonors m !!! i)).
  rewrite list_fmap_compose. unfold n. rewrite lookups_all. fold n.
  set (u := uniqueDonors m). set (t := donor_total m <$> u).
  assert (length t = n) as Ht by (unfold t; by rewrite length_fmap).
  (* the sorting loops *)
  rewrite <-Ht.
  pose proof (sort_loop_zip u t) as Hzip.
  pose proof (sort_loop_totals t) as Hsort.
  pose proof (for_loop_snd 0 (length t)
                (λ i, for_loop (i + 1) (length t) (λ j, exchange_if_greater i j))
                (λ i, for_loop (i + 1) (length t) (exchange_totals i)) (u, t)) as Hsnd.
  simpl in Hzip, Hsort, Hsnd.
  destruct (for_loop 0 (length t)
              (λ i, for_loop (i + 1) (length t) (λ j, exchange_if_greater i j)) (u, t))
    as [d' t'] eqn:Hloop.
  simpl in Hzip, Hsnd.
  destruct Hzip as (Hd' & Ht' & Hperm); [by rewrite Ht|].
  rewrite <-Hsnd in Hsort.
  2:{ intros k q. apply for_loop_snd. intros j p. apply exchange_if_greater_snd. }
  destruct Hsort as [_ Hsort].
  (* the copy loop *)
  rewrite (for_loop_pair 0 c (λ i a, <[i := d' !!! i]> a) (λ i a, <[i := t' !!! i]> a)).
  rewrite !fill_loop by (rewrite length_replicate; lia).
  rewrite !drop_ge by (rewrite length_replicate; lia).
  rewrite !app_nil_r.
  rewrite !lookups_take by lia.
  exists (zip d' t'). repeat split.
  - rewrite Hperm. unfold t. by rewrite zip_with_totals.
  - apply StronglySorted_lookup. intros i j [a x] [b y] Hij Hi Hj.
    apply lookup_zip_with_Some in Hi as (a' & x' & [= <- <-] & Ha & Hx).
    apply lookup_zip_with_Some in Hj as (b' & y' & [= <- <-] & Hb & Hy).
    simpl.
    rewrite <-(list_lookup_total_correct _ _ _ Hx), <-(list_lookup_total_correct _ _ _ Hy).
    apply Hsort. apply lookup_lt_Some in Hy. lia.
  - f_equal.
    + rewrite fmap_take, fst_zip by lia.
      rewrite Hc. destruct (decide (count ≤ n)%nat).
      * by rewrite Nat.min_l by done.
      * rewrite Nat.min_r by lia. by rewrite !take_ge by lia.
    + rewrite fmap_take, snd_zip by lia.
      rewrite Hc. destruct (decide (count ≤ n)%nat).
      * by rewrite Nat.min_l by done.
      * rewrite Nat.min_r by lia. by rewrite !take_ge by lia.
Qed.

End Sorting.


(** ** The three contracts together: every transaction keeps the invariants *)

Section WorldInv.
Context `{Keccak} `{DonationManager.Recipients}.

Lemma on_nft_OK w a f w' :
  on_nft w a f = OK w' →
  ∃ s s', nfts w !! a = Some s ∧ f s = OK s' ∧ w' = set_nfts (<[a := s']> (nfts w)) w.
Proof.
  unfold on_nft. destruct (nfts w !! a) as [s|]; [|done].
  intros Hf. inv_ok. subst. by eexists _, _.
Qed.

Lemma on_voting_OK w f w' :
  on_voting w f = OK w' → ∃ v, f (voting w) = OK v ∧ w' = set_voting v w.
Proof. unfold on_voting. intros Hf. inv_ok. subst. by eexists. Qed.

Lemma on_manager_OK w f w' :
  on_manager w f = OK w' → ∃ m, f (manager w) = OK m ∧ w' = set_manager m w.
Proof. unfold on_manager. intros Hf. inv_ok. subst. by eexists. Qed.

Lemma call_mintCertificate_OK ns a e donor amount campaignId title txHash tokenId ns' :
  call_mintCertificate ns a e donor amount campaignId title txHash = OK (tokenId, ns') →
  ∃ s s', ns !! a = Some s ∧
          DonachainNFT.mintCertificate e donor amount campaignId title txHash s
            = OK (tokenId, s') ∧
          ns' = <[a := s']> ns.
Proof.
  unfold call_mintCertificate. destruct (ns !! a) as [s|]; [|done].
  intros Hm. inv_ok. subst. by eexists _, _.
Qed.

Lemma registries_inv_insert ns a s :
  registries_inv ns → registry_inv s → registries_inv (<[a := s]> ns).
Proof.
  intros Hns Hs a' s' [[<- <-] | [_ Hs']]%lookup_insert_Some; [done|].
  by apply (Hns a').
Qed.

Lemma registries_inv_mint ns a e donor amount campaignId title txHash tokenId ns' :
  call_mintCertificate ns a e donor amount campaignId title txHash = OK (tokenId, ns') →
  registries_inv ns → registries_inv ns'.
Proof.
  intros (s & s' & Hs & Hm & ->)%call_mintCertificate_OK Hns.
  apply registries_inv_insert; [done|].
  eapply registry_inv_mintCertificate; [done|]. by apply (Hns a).
Qed.

Lemma registry_step_refl o : registry_step o o.
Proof. destruct o; simpl; auto. Qed.

Lemma registry_step_insert (ns : gmap address DonachainNFT.state) a s s' a' :
  ns !! a = Some s →
  registry_step (Some s) (Some s') →
  registry_step (ns !! a') (<[a := s']> ns !! a').
Proof.
  intros Hs Hstep. destruct (decide (a = a')) as [<-|Hne].
  - by rewrite lookup_insert_eq, Hs.
  - rewrite lookup_insert_ne by done. apply registry_step_refl.
Qed.

Lemma registry_step_mint ns a e donor amount campaignId title txHash tokenId ns' a' :
  call_mintCertificate ns a e donor amount campaignId title txHash = OK (tokenId, ns') →
  registry_step (ns !! a') (ns' !! a').
Proof.
  intros (s & s' & Hs & Hm & ->)%call_mintCertificate_OK.
  apply (registry_step_insert ns a s); [done|].
  apply mintCertificate_OK in Hm as (_ & _ & -> & _ & _ & ->). simpl.
  right. by eexists.
Qed.

Lemma donate_registries ns e value campaignId m m' ns' :
  DonationManager.donate ns e value campaignId m = OK (m', ns') →
  (registries_inv ns → registries_inv ns') ∧
  ∀ a, registry_step (ns !! a) (ns' !! a).
Proof.
  intros Hd. apply donate_OK in Hd as (_ & _ & _ & _ & _ & _ & _ & _ & Hmint).
  destruct (bool_decide _).
  - destruct Hmint as [tokenId Hmint]. split.
    + by eapply registries_inv_mint.
    + intros a. by eapply registry_step_mint.
  - subst ns'. split; [done|]. intros a. apply registry_step_refl.
Qed.

(** Every transaction keeps the invariants of the three contracts. *)
Lemma world_inv_exec w c w' : exec w c = OK w' → world_inv w → world_inv w'.
Proof.
  intros Hx [Hn Hv Hm]. destruct c; simpl in Hx.
  - (* DeployNFT *)
    inv_ok. subst w'. split; simpl; try done.
    apply registries_inv_insert; [done|]. apply registry_inv_constructor.
  - apply on_nft_OK in Hx as (s & s' & Hs & Hf & ->). split; simpl; try done.
    apply registries_inv_insert; [done|].
    eapply registry_inv_transferOwnership; [done|]. by apply (Hn nft).
  - apply on_nft_OK in Hx as (s & s' & Hs & Hf & ->). split; simpl; try done.
    apply registries_inv_insert; [done|].
    eapply registry_inv_setDonationManager; [done|]. by apply (Hn nft).
  - inv_ok. subst w'. split; simpl; try done.
    by eapply registries_inv_mint.
  - apply on_nft_OK in Hx as (s & s' & Hs & Hf & ->). split; simpl; try done.
    apply registries_inv_insert; [done|].
    eapply registry_inv_transferFrom; [done|]. by apply (Hn nft).
  - apply on_voting_OK in Hx as (v & Hf & ->). split; simpl; try done.
    by eapply ballot_inv_transferOwnership.
  - apply on_voting_OK in Hx as (v & Hf & ->). split; simpl; try done.
    by eapply ballot_inv_setNFTContract.
  - apply on_voting_OK in Hx as (v & Hf & ->). split; simpl; try done.
    by eapply ballot_inv_vote.
  - apply on_manager_OK in Hx as (m & Hf & ->). split; simpl; try done.
    by eapply ledger_inv_transferOwnership.
  - apply on_manager_OK in Hx as (m & Hf & ->). split; simpl; try done.
    by eapply ledger_inv_setNFTContract.
  - inv_ok. subst w'. split; simpl; try done.
    by eapply ledger_inv_createCampaign.
  - apply on_manager_OK in Hx as (m & Hf & ->). split; simpl; try done.
    by eapply ledger_inv_updateCampaignStatus.
  - apply on_manager_OK in Hx as (m & Hf & ->). split; simpl; try done.
    by eapply ledger_inv_withdrawWithLog.
  - inv_ok. subst w'. split; simpl; try done.
    + by eapply donate_registries.
    + by eapply ledger_inv_donate.
  - apply on_manager_OK in Hx as (m & Hf & ->). done.
Qed.

(** A transaction changes the registries by deployments, mints and changes
    that leave provenance alone. *)
Lemma registry_step_exec w c w' a :
  exec w c = OK w' → registry_step (nfts w !! a) (nfts w' !! a).
Proof.
  intros Hx. destruct c; simpl in Hx.
  - inv_ok. subst w'. simpl. destruct (decide (nft = a)) as [<-|Hne].
    + rewrite lookup_insert_eq. by match goal with Hnone : _ !! _ = None |- _ =>
        rewrite Hnone end.
    + rewrite lookup_insert_ne by done. apply registry_step_refl.
  - apply on_nft_OK in Hx as (s & s' & Hs & Hf & ->). simpl.
    apply (registry_step_insert _ _ s); [done|].
    unfold DonachainNFT.transferOwnership, DonachainNFT.onlyOwner in Hf.
    inv_ok. subst s'. by left.
  - apply on_nft_OK in Hx as (s & s' & Hs & Hf & ->). simpl.
    apply (registry_step_insert _ _ s); [done|].
    unfold DonachainNFT.setDonationManager, DonachainNFT.onlyOwner in Hf.
    inv_ok. subst s'. by left.
  - inv_ok. subst w'. simpl. by eapply registry_step_mint.
  - apply on_nft_OK in Hx as (s & s' & Hs & Hf & ->). simpl.
    apply (registry_step_insert _ _ s); [done|].
    apply transferFrom_OK in Hf as (_ & _ & ->). by left.
  - apply on_voting_OK in Hx as (v & Hf & ->). apply registry_step_refl.
  - apply on_voting_OK in Hx as (v & Hf & ->). apply registry_step_refl.
  - apply on_voting_OK in Hx as (v & Hf & ->). apply registry_step_refl.
  - apply on_manager_OK in Hx as (m & Hf & ->). apply registry_step_refl.
  - apply on_manager_OK in Hx as (m & Hf & ->). apply registry_step_refl.
  - inv_ok. subst w'. apply registry_step_refl.
  - apply on_manager_OK in Hx as (m & Hf & ->). apply registry_step_refl.
  - apply on_manager_OK in Hx as (m & Hf & ->). apply registry_step_refl.
  - inv_ok. subst w'. simpl. by eapply donate_registries.
  - apply on_manager_OK in Hx as (m & Hf & ->). done.
Qed.

Lemma reachable_by_inv allowed w : reachable_by allowed w → world_inv w.
Proof.
  induction 1 as [this admin deployer nft v Hv | w c w' _ IH _ Hx].
  - split; simpl.
    + intros a s Hs. by rewrite lookup_empty in Hs.
    + by eapply ballot_inv_constructor.
    + apply ledger_inv_constructor.
  - by eapply world_inv_exec.
Qed.

Lemma reachable_by_mono (P Q : Call → Prop) w :
  (∀ c, P c → Q c) → reachable_by P w → reachable_by Q w.
Proof.
  intros HPQ. induction 1 as [this admin deployer nft v Hv | w c w' _ IH Hc Hx].
  - by eapply reachable_init.
  - eapply (reachable_step _ w c); [exact IH | by apply HPQ | done].
Qed.



End WorldInv.


(** ** Runs stay within the reachable worlds *)

Section Runs.
Context `{Keccak} `{DonationManager.Recipients}.

Lemma reachable_by_apply_call allowed w c :
  reachable_by allowed w → allowed c → reachable_by allowed (apply_call w c).
Proof.
  intros Hw Hc. unfold apply_call. destruct (exec w c) as [w'|] eqn:Hx; [|done].
  by apply (reachable_step _ w c).
Qed.

Lemma reachable_by_run allowed w cs :
  reachable_by allowed w → Forall allowed cs → reachable_by allowed (run w cs).
Proof.
  intros Hw Hcs. revert w Hw. unfold run.
  induction Hcs as [|c cs Hc _ IH]; intros w Hw; simpl; [done|].
  apply IH. by apply reachable_by_apply_call.
Qed.

Lemma reachable_run w cs : reachable w → reachable (run w cs).
Proof.
  intros Hw. apply reachable_by_run; [done|]. by apply Forall_forall.
Qed.

Lemma reachable_by_reachable allowed w : reachable_by allowed w → reachable w.
Proof. by apply reachable_by_mono. Qed.


Lemma hasVoted_true v t : Voting.hasVoted v t = true ↔ t ∈ Voting.tokenUsed v.
Proof. unfold Voting.hasVoted. apply bool_decide_eq_true. Qed.

Lemma hasVoted_false v t : Voting.hasVoted v t = false ↔ t ∉ Voting.tokenUsed v.
Proof. unfold Voting.hasVoted. apply bool_decide_eq_false. Qed.

(** In a reachable world the entries the leaderboard ranks are the
    donors, each once, with the sum of their donations. *)
Lemma leaderboard_entries_reachable w :
  reachable w →
  NoDup (leaderboard_entries (manager w)).*1 ∧
  ∀ a t, (a, t) ∈ leaderboard_entries (manager w) ↔
    (∃ d, d ∈ DonationManager.allDonations (manager w) ∧
          DonationManager.d_donor d = a) ∧
    t = donated_by a (DonationManager.allDonations (manager w)).
Proof.
  intros Hw. pose proof (reachable_by_inv _ _ Hw) as [_ _ Hm].
  unfold leaderboard_entries. split.
  - rewrite <-list_fmap_compose.
    replace (fst ∘ (λ a, (a, DonationManager.donor_total (manager w) a)) <$>
               DonationManager.uniqueDonors (manager w))
      with (DonationManager.uniqueDonors (manager w)).
    + apply (ledger_unique_donors _ Hm).
    + induction (DonationManager.uniqueDonors (manager w)) as [|a l IH]; [done|].
      simpl. by f_equal.
  - intros a t. rewrite list_elem_of_fmap.
    rewrite <-(ledger_donors _ Hm a), <-(ledger_donor_totals _ Hm a). split.
    + intros (a' & Heq & Ha'). by simplify_eq.
    + intros [Ha ->]. by exists a.
Qed.

End Runs.


(** ** The views of the ledger *)

Section Views.
Context `{Keccak} `{DonationManager.Recipients}.
Import DonationManager.

Lemma getAllCampaigns_fmap s : getAllCampaigns s = campaign_at s <$> campaignIds s.
Proof.
  unfold getAllCampaigns.
  rewrite (fill_loop (λ i, campaign_at s (campaignIds s !!! i))) by (by rewrite length_replicate).
  rewrite drop_replicate, Nat.sub_diag, app_nil_r.
  transitivity (campaign_at s <$> ((λ i, campaignIds s !!! i) <$>
                                     seq 0 (length (campaignIds s)))).
  - by rewrite <-list_fmap_compose.
  - by rewrite lookups_all.
Qed.

Lemma take_fmap_lookup_total s k :
  (k < length (campaignIds s))%nat →
  take (S k) (campaign_at s <$> campaignIds s) =
    take k (campaign_at s <$> campaignIds s) ++ [campaign_at s (campaignIds s !!! k)].
Proof.
  intros Hk. apply take_S_r. rewrite list_lookup_fmap.
  by rewrite (list_lookup_lookup_total_lt _ _ Hk).
Qed.

Lemma count_active_filter e s :
  count_active e s = length (filter (λ c, is_open e c) (getAllCampaigns s)).
Proof.
  rewrite getAllCampaigns_fmap. unfold count_active.
  set (cs := campaign_at s <$> campaignIds s).
  assert (take (length (campaignIds s)) cs = cs) as Hcs
    by (apply take_ge; subst cs; by rewrite length_fmap).
  rewrite <-Hcs.
  apply (for_loop_ind (λ k n, n = length (filter (λ c, is_open e c) (take k cs)))).
  - lia.
  - done.
  - intros k n [_ Hk] ->. subst cs. rewrite take_fmap_lookup_total by done.
    rewrite filter_app, length_app. cbv zeta.
    destruct (is_open e (campaign_at s (campaignIds s !!! k))) eqn:Ho.
    + rewrite filter_cons_True by (by apply Is_true_true_2). simpl. lia.
    + rewrite filter_cons_False by (by apply Is_true_false_2). simpl. lia.
Qed.

Lemma getActiveCampaigns_filter e s :
  getActiveCampaigns e s = Some (filter (λ c, is_open e c) (getAllCampaigns s)).
Proof.
  unfold getActiveCampaigns. rewrite count_active_filter, getAllCampaigns_fmap.
  set (cs := campaign_at s <$> campaignIds s).
  set (P := λ c : Campaign, Is_true (is_open e c)).
  set (n := length (filter P cs)).
  assert (take (length (campaignIds s)) cs = cs) as Hcs
    by (apply take_ge; subst cs; by rewrite length_fmap).
  match goal with |- fst <$> ?loop = _ =>
    enough (loop = Some (filter P (take (length (campaignIds s)) cs) ++
                    replicate (n - length (filter P (take (length (campaignIds s)) cs)))
                      zero_campaign,
                  length (filter P (take (length (campaignIds s)) cs)))) as ->
  end.
  { simpl. rewrite Hcs. subst n. by rewrite Nat.sub_diag, app_nil_r. }
  apply (for_loop_ind (λ k acc,
           acc = Some (filter P (take k cs) ++
                         replicate (n - length (filter P (take k cs))) zero_campaign,
                       length (filter P (take k cs))))).
  - lia.
  - simpl. by rewrite Nat.sub_0_r.
  - intros k acc [_ Hk] ->. simpl.
    assert (length (filter P (take (S k) cs)) ≤ n)%nat as Hle.
    { subst n. rewrite <-(take_drop (S k) cs) at 2.
      rewrite filter_app, length_app. lia. }
    revert Hle. subst cs. rewrite take_fmap_lookup_total by done.
    set (cs := campaign_at s <$> campaignIds s).
    rewrite filter_app, length_app.
    destruct (is_open e (campaign_at s (campaignIds s !!! k))) eqn:Ho.
    + rewrite filter_cons_True by (by apply Is_true_true_2). simpl. intros Hle.
      unfold store. rewrite length_app, length_replicate.
      rewrite decide_True by lia. simpl.
      do 2 f_equal; try lia.
      rewrite insert_app_r_alt by lia. rewrite Nat.sub_diag.
      rewrite <-app_assoc. f_equal.
      destruct (n - length (filter P (take k cs)))%nat as [|r] eqn:Hr; [lia|].
      simpl. do 2 f_equal. lia.
    + rewrite filter_cons_False by (by apply Is_true_false_2). simpl. intros _.
      by rewrite filter_nil, app_nil_r, Nat.add_0_r.
Qed.

Lemma donations_at_Forall2 s indices target :
  Forall2 (λ i d, allDonations s !! i = Some d) indices target →
  donations_at s indices = Some target.
Proof.
  intros Hf. pose proof (Forall2_length _ _ _ Hf) as Hlen.
  unfold donations_at.
  match goal with |- ?loop = _ =>
    enough (loop = Some (take (length indices) target ++
                    replicate (length indices - length indices) zero_donation)) as ->
  end.
  { rewrite Nat.sub_diag, app_nil_r. rewrite take_ge by lia. done. }
  apply (for_loop_ind (λ k acc,
           acc = Some (take k target ++ replicate (length indices - k) zero_donation))).
  - lia.
  - simpl. by rewrite Nat.sub_0_r.
  - intros k acc [_ Hk] ->. simpl.
    destruct (lookup_lt_is_Some_2 indices k Hk) as [i Hi].
    destruct (Forall2_lookup_l _ _ _ _ _ Hf Hi) as (d & Hd & Hid).
    rewrite (list_lookup_total_correct _ _ _ Hi), Hid. simpl. f_equal.
    rewrite (take_S_r _ _ _ Hd).
    assert (length (take k target) = k) as Hlk by (rewrite length_take; lia).
    rewrite insert_app_r_alt by lia. rewrite Hlk, Nat.sub_diag, <-app_assoc. f_equal.
    destruct (length indices - k)%nat as [|r] eqn:Hr; [lia|].
    simpl. do 2 f_equal. lia.
Qed.

(** An index outside the donation array makes the view panic. *)
Lemma donations_at_None s indices :
  Exists (λ i, length (allDonations s) ≤ i)%nat indices → donations_at s indices = None.
Proof.
  intros Hex. unfold donations_at.
  apply Exists_exists in Hex as (i & Hi & Hge).
  apply list_elem_of_lookup in Hi as [k Hk].
  pose proof (lookup_lt_Some _ _ _ Hk) as Hlt.
  assert (∀ hi, (k < hi ≤ length indices)%nat →
    for_loop 0 hi
      (λ i acc, result ← acc; d ← allDonations s !! (indices !!! i);
                Some (<[i := d]> result))
      (Some (replicate (length indices) zero_donation)) = None) as Hloop.
  { intros hi. induction hi as [|hi IH]; [lia|]. intros Hhi.
    rewrite for_loop_snoc by lia.
    destruct (decide (k = hi)) as [<-|Hne].
    - destruct (for_loop _ _ _ _); [|done]. simpl.
      rewrite (list_lookup_total_correct _ _ _ Hk).
      by rewrite (lookup_ge_None_2 _ _ Hge).
    - rewrite IH by lia. done. }
  apply Hloop. lia.
Qed.
End Views.


(** ** Ids, positions and index arrays of the ledger *)

Section Records.
Context `{Keccak} `{DonationManager.Recipients}.
Import DonationManager.

Lemma seqZ_snoc (n : Z) : 1 ≤ n → seqZ 1 n = seqZ 1 (n - 1) ++ [n].
Proof.
  intros Hn. replace n with ((n - 1) + 1) at 1 by lia.
  rewrite seqZ_app by lia. f_equal.
  rewrite seqZ_cons by lia. rewrite seqZ_nil by lia. f_equal. lia.
Qed.

Lemma positions_snoc {A} (P : A → Prop) `{∀ x, Decision (P x)} (ds : list A) (d : A)
    (indices : list nat) :
  Forall2 (λ i x, ds !! i = Some x) indices (filter P ds) →
  Forall2 (λ i x, (ds ++ [d]) !! i = Some x)
    (if decide (P d) then indices ++ [length ds] else indices)
    (filter P (ds ++ [d])).
Proof.
  intros Hf. rewrite filter_app.
  assert (Forall2 (λ i x, (ds ++ [d]) !! i = Some x) indices (filter P ds)) as Hf'.
  { eapply Forall2_impl; [exact Hf|]. intros i x Hi. by apply lookup_app_l_Some. }
  case_decide as HP.
  - rewrite filter_cons_True by done. rewrite filter_nil.
    apply Forall2_app; [done|]. constructor; [|constructor].
    rewrite lookup_app_r by lia. by rewrite Nat.sub_diag.
  - rewrite filter_cons_False by done. by rewrite filter_nil, app_nil_r.
Qed.

Lemma ledger_records_inv_constructor this admin :
  ledger_records_inv (constructor this admin).
Proof.
  split; simpl; try done.
  - intros id Hid. lia.
  - intros x Hx. by apply elem_of_nil in Hx.
  - intros d Hd. by apply elem_of_nil in Hd.
Qed.

Lemma ledger_records_inv_createCampaign e title description imageCID targetAmount
    deadline m id m' :
  createCampaign e title description imageCID targetAmount deadline m = OK (id, m') →
  ledger_inv m → ledger_records_inv m → ledger_records_inv m'.
Proof.
  intros (_ & -> & _ & ->)%createCampaign_OK Hm [Hids Hcs Hd Hx Hnx Hpos Hfit Hmt Hord Hbc Hbd].
  split; simpl; try done.
  - rewrite Hids. replace (_nextCampaignId m + 1 - 1) with (_nextCampaignId m) by lia.
    symmetry. apply seqZ_snoc. apply (ledger_next_campaign _ Hm).
  - intros id Hid. apply lookup_insert_is_Some_iff.
    destruct (decide (id = _nextCampaignId m)) as [->|Hne]; [by left|].
    right. apply Hcs. lia.
Qed.

Lemma ledger_records_inv_updateCampaignStatus e id isActive m m' :
  updateCampaignStatus e id isActive m = OK m' →
  ledger_records_inv m → ledger_records_inv m'.
Proof.
  intros (_ & Hc & ->)%updateCampaignStatus_OK [Hids Hcs Hd Hx Hnx Hpos Hfit Hmt Hord Hbc Hbd].
  split; simpl; try done.
  intros id' Hid'. apply lookup_insert_is_Some_iff. right. by apply Hcs.
Qed.

Lemma ledger_records_inv_withdrawWithLog e description recipient amount campaignId m m' :
  withdrawWithLog e description recipient amount campaignId m = OK m' →
  ledger_records_inv m → ledger_records_inv m'.
Proof.
  intros (_ & _ & _ & _ & [Ha _] & _ & _ & _ & ->)%withdrawWithLog_OK
    [Hids Hcs Hd Hx Hnx Hpos Hfit Hmt Hord Hbc Hbd].
  split; simpl; try done.
  - intros i x [Hi | [Hi Hxx]]%lookup_app_Some; [by apply Hx|].
    destruct (i - length (allExpenses m))%nat as [|k] eqn:Hk; [|done].
    simpl in Hxx. injection Hxx as <-. simpl. lia.
  - rewrite length_app. simpl. lia.
  - intros x [Hin | Hin%list_elem_of_singleton]%elem_of_app; [by apply Hpos|].
    by subst x.
Qed.

Lemma first_donors_snoc ds d :
  first_donors (ds ++ [d]) =
    if decide (d_donor d ∈ d_donor <$> ds) then first_donors ds
    else first_donors ds ++ [d_donor d].
Proof.
  unfold first_donors. rewrite fmap_app.
  change (d_donor <$> [d]) with [d_donor d]. rewrite reverse_snoc.
  change (remove_dups (d_donor d :: reverse (d_donor <$> ds)))
    with (if decide_rel elem_of (d_donor d) (reverse (d_donor <$> ds))
          then remove_dups (reverse (d_donor <$> ds))
          else d_donor d :: remove_dups (reverse (d_donor <$> ds))).
  destruct (decide_rel elem_of (d_donor d) (reverse (d_donor <$> ds))) as [Hin|Hin].
  - rewrite decide_True; [done|]. by apply elem_of_reverse.
  - rewrite decide_False; [by rewrite reverse_cons|].
    intros Hx. by apply Hin, elem_of_reverse.
Qed.

Lemma ledger_records_inv_donate ns e value campaignId m m' ns' :
  donate ns e value campaignId m = OK (m', ns') →
  ledger_inv m → ledger_records_inv m → ledger_records_inv m'.
Proof.
  intros Hdo Hm [Hids Hcs Hd Hx Hnx Hpos Hfit Hmt Hord Hbc Hbd].
  apply donate_OK in Hdo as (_ & _ & Hid & _ & _ & _ & Hrc & -> & _).
  split; simpl; try done.
  - intros id' Hid'. apply lookup_insert_is_Some_iff. right. by apply Hcs.
  - intros i d [Hi | [Hi Hdd]]%lookup_app_Some; [by apply Hd|].
    destruct (i - length (allDonations m))%nat as [|k] eqn:Hk; [|done].
    simpl in Hdd. injection Hdd as <-. simpl. lia.
  - intros d [Hin | Hin%list_elem_of_singleton]%elem_of_app; [by apply Hmt|].
    subst d. simpl. intros Hb%bool_decide_eq_true. by destruct Hb.
  - rewrite first_donors_snoc. simpl. rewrite <-Hord.
    assert (msg_sender e ∈ hasDonated m ↔ msg_sender e ∈ d_donor <$> allDonations m)
      as Hiff.
    { rewrite (ledger_has_donated _ Hm), (ledger_donors _ Hm), list_elem_of_fmap.
      split; intros (d & Ha & Hb); by exists d. }
    destruct (decide (msg_sender e ∈ hasDonated m)) as [Hin|Hin].
    + rewrite decide_True; [done | by apply Hiff].
    + rewrite decide_False; [done|]. intros Hx'. by apply Hin, Hiff.
  - intros c. unfold donations_of_campaign. simpl.
    pose proof (positions_snoc (λ d, d_campaignId d = c) (allDonations m)
      (mkDonation (Z.of_nat (length (allDonations m)) + 1) (msg_sender e) campaignId
         value (block_timestamp e) (prev_blockhash e)
         (bool_decide (MIN_DONATION_FOR_NFT ≤ value ∧ nftContract m ≠ 0)))
      _ (Hbc c)) as Hsn.
    simpl in Hsn. destruct (decide (campaignId = c)) as [->|Hne].
    + by rewrite lookup_insert_eq.
    + by rewrite lookup_insert_ne.
  - intros a. unfold donations_of_donor. simpl.
    pose proof (positions_snoc (λ d, d_donor d = a) (allDonations m)
      (mkDonation (Z.of_nat (length (allDonations m)) + 1) (msg_sender e) campaignId
         value (block_timestamp e) (prev_blockhash e)
         (bool_decide (MIN_DONATION_FOR_NFT ≤ value ∧ nftContract m ≠ 0)))
      _ (Hbd a)) as Hsn.
    simpl in Hsn. destruct (decide (msg_sender e = a)) as [->|Hne].
    + by rewrite lookup_insert_eq.
    + by rewrite lookup_insert_ne.
Qed.

Lemma ledger_records_inv_exec w c w' :
  exec w c = OK w' → world_inv w →
  ledger_records_inv (manager w) → ledger_records_inv (manager w').
Proof.
  intros Hx [_ _ Hm] Hr. destruct c; simpl in Hx.
  all: try (apply on_nft_OK in Hx as (s & s' & Hs & Hf & ->); done).
  all: try (apply on_voting_OK in Hx as (v & Hf & ->); done).
  - inv_ok. by subst w'.
  - inv_ok. by subst w'.
  - apply on_manager_OK in Hx as (m & Hf & ->). simpl.
    unfold transferOwnership, onlyOwner in Hf. inv_ok. subst m. by destruct Hr.
  - apply on_manager_OK in Hx as (m & Hf & ->). simpl.
    unfold setNFTContract, onlyOwner in Hf. inv_ok. subst m. by destruct Hr.
  - inv_ok. subst w'. simpl. by eapply ledger_records_inv_createCampaign.
  - apply on_manager_OK in Hx as (m & Hf & ->). simpl.
    by eapply ledger_records_inv_updateCampaignStatus.
  - apply on_manager_OK in Hx as (m & Hf & ->). simpl.
    by eapply ledger_records_inv_withdrawWithLog.
  - inv_ok. subst w'. simpl. by eapply ledger_records_inv_donate.
  - apply on_manager_OK in Hx as (m & Hf & ->). done.
Qed.

Lemma reachable_records w : reachable w → ledger_records_inv (manager w).
Proof.
  induction 1 as [this admin deployer nft v Hv | w c w' Hr IH _ Hx].
  - apply ledger_records_inv_constructor.
  - eapply ledger_records_inv_exec; [done | | done]. by eapply reachable_by_inv.
Qed.
End Records.


(** ** Provenance of the certificates; the sum of the tallies *)

Section Provenance.
Context `{Keccak} `{DonationManager.Recipients}.

Lemma filter_ext_in {A} (P Q : A → Prop) `{∀ x, Decision (P x)} `{∀ x, Decision (Q x)}
    (l : list A) :
  (∀ x, x ∈ l → P x ↔ Q x) → filter P l = filter Q l.
Proof.
  induction l as [|x l IH]; intros HPQ; [done|].
  assert (filter P l = filter Q l) as Hl.
  { apply IH. intros y Hy. apply HPQ. by right. }
  destruct (decide (P x)) as [HP|HP].
  - rewrite !filter_cons_True; [by f_equal | | done]. apply HPQ; [by left | done].
  - rewrite !filter_cons_False; [done | | done]. intros HQ. apply HP.
    apply HPQ; [by left | done].
Qed.

Lemma provenance_inv_constructor a : provenance_inv (DonachainNFT.constructor a).
Proof.
  split; [done | | done]. intros t d Hd. simpl in Hd. by rewrite lookup_empty in Hd.
Qed.

Lemma provenance_inv_mintCertificate e donor amount campaignId title txHash s tokenId s' :
  DonachainNFT.mintCertificate e donor amount campaignId title txHash s = OK (tokenId, s') →
  registry_inv s → provenance_inv s → provenance_inv s'.
Proof.
  intros Hm Hs [Hn Hrec Ht].
  apply mintCertificate_OK in Hm as (_ & Hdonor & -> & _ & _ & ->).
  pose proof (registry_next _ Hs) as Hnext.
  unfold DonachainNFT.totalSupply in *.
  split; simpl.
  - unfold DonachainNFT.totalSupply. simpl. lia.
  - intros t d [[_ <-] | [_ Hd]]%lookup_insert_Some; [|by apply (Hrec t)].
    simpl. split; [done|]. unfold DonachainNFT.tier_of_draw. case_decide; auto.
  - intros a. unfold DonachainNFT.tokens_of, DonachainNFT.totalSupply,
      DonachainNFT.donationDetails_get. simpl.
    replace (DonachainNFT._nextTokenId s + 1 - 1) with (DonachainNFT._nextTokenId s)
      by lia.
    rewrite seqZ_snoc by lia. rewrite filter_app.
    assert (filter (λ t, DonachainNFT.dd_donor
               (default DonachainNFT.zero_detail
                  (<[DonachainNFT._nextTokenId s := _]> (DonachainNFT.donationDetails s)
                     !! t)) = a) (seqZ 1 (DonachainNFT._nextTokenId s - 1))
            = DonachainNFT.tokens_of s a) as ->.
    { rewrite Ht. apply filter_ext_in. intros t [_ Hlt]%elem_of_seqZ.
      unfold DonachainNFT.donationDetails_get.
      rewrite lookup_insert_ne by lia. done. }
    destruct (decide (donor = a)) as [->|Hne].
    + rewrite lookup_insert_eq. simpl.
      rewrite filter_cons_True by (by rewrite lookup_insert_eq).
      by rewrite filter_nil.
    + rewrite lookup_insert_ne by done.
      rewrite filter_cons_False by (by rewrite lookup_insert_eq).
      by rewrite filter_nil, app_nil_r.
Qed.

Lemma provenances_inv_insert ns a s :
  provenances_inv ns → provenance_inv s → provenances_inv (<[a := s]> ns).
Proof.
  intros Hns Hs a' s' [[<- <-] | [_ Hs']]%lookup_insert_Some; [done|].
  by apply (Hns a').
Qed.

Lemma provenances_inv_mint ns a e donor amount campaignId title txHash tokenId ns' :
  call_mintCertificate ns a e donor amount campaignId title txHash = OK (tokenId, ns') →
  registries_inv ns → provenances_inv ns → provenances_inv ns'.
Proof.
  intros (s & s' & Hs & Hm & ->)%call_mintCertificate_OK Hr Hns.
  apply provenances_inv_insert; [done|].
  eapply provenance_inv_mintCertificate; [done | by apply (Hr a) | by apply (Hns a)].
Qed.

Lemma provenances_inv_exec w c w' :
  exec w c = OK w' → world_inv w →
  provenances_inv (nfts w) → provenances_inv (nfts w').
Proof.
  intros Hx [Hr _ _] Hp. destruct c; simpl in Hx.
  all: try (apply on_voting_OK in Hx as (v & Hf & ->); done).
  all: try (apply on_manager_OK in Hx as (m & Hf & ->); done).
  - inv_ok. subst w'. simpl. apply provenances_inv_insert; [done|].
    apply provenance_inv_constructor.
  - apply on_nft_OK in Hx as (s & s' & Hs & Hf & ->). simpl.
    apply provenances_inv_insert; [done|].
    unfold DonachainNFT.transferOwnership, DonachainNFT.onlyOwner in Hf.
    inv_ok. subst s'. destruct (Hp _ _ Hs). by split.
  - apply on_nft_OK in Hx as (s & s' & Hs & Hf & ->). simpl.
    apply provenances_inv_insert; [done|].
    unfold DonachainNFT.setDonationManager, DonachainNFT.onlyOwner in Hf.
    inv_ok. subst s'. destruct (Hp _ _ Hs). by split.
  - inv_ok. subst w'. simpl. by eapply provenances_inv_mint.
  - apply on_nft_OK in Hx as (s & s' & Hs & Hf & ->). simpl.
    apply provenances_inv_insert; [done|].
    apply transferFrom_OK in Hf as (_ & _ & ->). destruct (Hp _ _ Hs). by split.
  - inv_ok. by subst w'.
  - inv_ok. subst w'. simpl.
    match goal with Hd : DonationManager.donate _ _ _ _ _ = OK _ |- _ =>
      apply donate_OK in Hd as (_ & _ & _ & _ & _ & _ & _ & _ & Hmint) end.
    destruct (bool_decide _).
    + destruct Hmint as [tokenId Hmint]. by eapply provenances_inv_mint.
    + by subst.
Qed.

Lemma reachable_provenances w : reachable w → provenances_inv (nfts w).
Proof.
  induction 1 as [this admin deployer nft v Hv | w c w' Hr IH _ Hx].
  - intros a s Hs. simpl in Hs. by rewrite lookup_empty in Hs.
  - eapply provenances_inv_exec; [done | | done]. by eapply reachable_by_inv.
Qed.

(** *** The sum of the tallies *)

Lemma total_votes_insert (cv : gmap Z Z) (c n : Z) :
  map_fold (λ _ n acc, n + acc) 0 (<[c := n]> cv) =
    map_fold (λ _ n acc, n + acc) 0 cv - default 0 (cv !! c) + n.
Proof.
  assert (∀ m : gmap Z Z, ∀ (j1 j2 : Z) (z1 z2 y : Z),
    j1 ≠ j2 → m !! j1 = Some z1 → m !! j2 = Some z2 →
    z1 + (z2 + y) = z2 + (z1 + y)) as Hcomm by (intros; lia).
  destruct (cv !! c) as [x|] eqn:Hc; simpl.
  - rewrite <-(insert_delete_eq cv c n).
    rewrite (map_fold_insert_L (λ _ n acc, n + acc)); [|apply Hcomm|apply lookup_delete_eq].
    rewrite (map_fold_delete_L (λ _ n acc, n + acc) 0 c x cv); [lia|apply Hcomm|done].
  - rewrite (map_fold_insert_L (λ _ n acc, n + acc)); [lia|apply Hcomm|done].
Qed.

Lemma total_votes_vote ns e campaignId tokenId v v' :
  Voting.vote ns e campaignId tokenId v = OK v' →
  total_votes v = Z.of_nat (size (Voting.tokenUsed v)) →
  total_votes v' = Z.of_nat (size (Voting.tokenUsed v')).
Proof.
  intros (_ & _ & Hu & _ & _ & ->)%vote_OK Ht. unfold total_votes in *. simpl.
  rewrite total_votes_insert, Ht, size_used_add by done.
  unfold Voting.getVotes. lia.
Qed.

Lemma total_votes_exec w c w' :
  exec w c = OK w' →
  total_votes (voting w) = Z.of_nat (size (Voting.tokenUsed (voting w))) →
  total_votes (voting w') = Z.of_nat (size (Voting.tokenUsed (voting w'))).
Proof.
  intros Hx Ht. destruct c; simpl in Hx.
  all: try (apply on_nft_OK in Hx as (s & s' & Hs & Hf & ->); done).
  all: try (apply on_manager_OK in Hx as (m & Hf & ->); done).
  all: try (inv_ok; by subst w').
  - apply on_voting_OK in Hx as (v & Hf & ->). simpl.
    unfold Voting.transferOwnership, Voting.onlyOwner in Hf. inv_ok. by subst v.
  - apply on_voting_OK in Hx as (v & Hf & ->). simpl.
    unfold Voting.setNFTContract, Voting.onlyOwner in Hf. inv_ok. by subst v.
  - apply on_voting_OK in Hx as (v & Hf & ->). simpl.
    by eapply total_votes_vote.
Qed.

Lemma reachable_total_votes w :
  reachable w → total_votes (voting w) = Z.of_nat (size (Voting.tokenUsed (voting w))).
Proof.
  induction 1 as [this admin deployer nft v Hv | w c w' Hr IH _ Hx].
  - unfold Voting.constructor in Hv. inv_ok. subst v. done.
  - by eapply total_votes_exec.
Qed.
End Provenance.


(** ** The run of an accepted donation *)

Section DonateRun.
Context `{Keccak} `{DonationManager.Recipients}.
Import DonationManager.




End DonateRun.


(** * The claims of the specification *)

Section Claims.
Context `{Keccak} `{DonationManager.Recipients}.

(** C1. In every reachable state of the Campaign Ledger, the total raised
    of every existing campaign is the sum of the amounts of the donation
    records against its id; and a transaction changes that total only by
    adding the amount of an accepted donation to that campaign, which it
    records. *)
Theorem raised_is_sum_of_donations (w : World) (campaignId : Z) :
  reachable w →
  campaign_exists (manager w) campaignId →
  DonationManager.c_totalRaised (DonationManager.campaign_at (manager w) campaignId)
    = donated_to campaignId (DonationManager.allDonations (manager w)) ∧
  ∀ c w', exec w c = OK w' →
    campaign_exists (manager w') campaignId ∧
    match c with
    | ManagerDonate e value target =>
        0 < value ∧
        (∃ d, DonationManager.allDonations (manager w')
                = DonationManager.allDonations (manager w) ++ [d] ∧
              DonationManager.d_campaignId d = target ∧
              DonationManager.d_amount d = value ∧
              DonationManager.d_donor d = msg_sender e) ∧
        DonationManager.c_totalRaised
          (DonationManager.campaign_at (manager w') campaignId)
        = DonationManager.c_totalRaised
            (DonationManager.campaign_at (manager w) campaignId)
          + (if decide (target = campaignId) then value else 0)
    | _ =>
        DonationManager.allDonations (manager w')
          = DonationManager.allDonations (manager w) ∧
        DonationManager.c_totalRaised
          (DonationManager.campaign_at (manager w') campaignId)
        = DonationManager.c_totalRaised
            (DonationManager.campaign_at (manager w) campaignId)
    end.
Proof.
  intros Hw Hex.
  pose proof (reachable_by_inv _ _ Hw) as [_ _ Hm].
  split; [apply (ledger_raised _ Hm); by apply campaign_at_exists |].
  intros c w' Hx. unfold campaign_exists in *.
  destruct c; simpl in Hx.
  all: try (apply on_nft_OK in Hx as (s & s' & Hs & Hf & ->); done).
  all: try (apply on_voting_OK in Hx as (v & Hf & ->); done).
  - inv_ok. by subst w'.
  - inv_ok. by subst w'.
  - apply on_manager_OK in Hx as (m & Hf & ->).
    unfold DonationManager.transferOwnership, DonationManager.onlyOwner in Hf.
    inv_ok. by subst m.
  - apply on_manager_OK in Hx as (m & Hf & ->).
    unfold DonationManager.setNFTContract, DonationManager.onlyOwner in Hf.
    inv_ok. by subst m.
  - (* createCampaign: a fresh id *)
    inv_ok. subst w'.
    match goal with Hcc : DonationManager.createCampaign _ _ _ _ _ _ _ = OK _ |- _ =>
      apply createCampaign_OK in Hcc as (_ & -> & _ & ->) end.
    destruct (ledger_campaign_ids _ Hm _ _ (campaign_at_exists _ _ Hex)) as [_ Hlt].
    simpl. erewrite campaign_at_insert by reflexivity.
    rewrite decide_False by lia. done.
  - (* updateCampaignStatus: the flag only *)
    apply on_manager_OK in Hx as (m & Hf & ->).
    apply updateCampaignStatus_OK in Hf as (_ & _ & ->). simpl.
    erewrite campaign_at_insert by reflexivity.
    case_decide; [by subst | done].
  - apply on_manager_OK in Hx as (m & Hf & ->).
    by apply withdrawWithLog_OK in Hf as (_ & _ & _ & _ & _ & _ & _ & _ & ->).
  - (* donate *)
    inv_ok. subst w'.
    match goal with Hd : DonationManager.donate _ _ _ _ _ = OK _ |- _ =>
      apply donate_OK in Hd as (_ & Hv & _ & _ & _ & _ & _ & -> & _) end.
    simpl. erewrite campaign_at_insert by reflexivity.
    case_decide; [subst; simpl | ].
    + repeat split; try done. by eexists.
    + repeat split; try done; [by eexists | lia].
  - apply on_manager_OK in Hx as (m & Hf & ->). done.
Qed.



(** C4. Every mint draws a number in [0, 10000).  Below 500 the tier of
    the certificate is Special whatever the amount; otherwise it is Gold
    exactly when the amount is at least 0.1 ether, Silver exactly when it
    is at least 0.05 and below 0.1 ether, Bronze exactly when it is below
    0.05 ether.  So a tier other than Special is a function of the amount
    alone, and that function is monotone. *)
Theorem mint_tier (e : Env) (donor : address) (amount campaignId : Z) (title : string)
    (txHash : Z) (s s' : DonachainNFT.state) (tokenId : Z) :
  DonachainNFT.mintCertificate e donor amount campaignId title txHash s
    = OK (tokenId, s') →
  let draw := keccak256_packed (block_timestamp e) (block_prevrandao e) donor tokenId
                (DonachainNFT._randomNonce s + 1) `mod` 10000 in
  0 ≤ draw < 10000 ∧
  ∃ d, DonachainNFT.donationDetails s' !! tokenId = Some d ∧
    DonachainNFT.dd_amount d = amount ∧
    (draw < 500 → DonachainNFT.dd_tier d = DonachainNFT.Special) ∧
    (500 ≤ draw →
       (DonachainNFT.dd_tier d = DonachainNFT.Gold ↔ 100000000000000000 ≤ amount) ∧
       (DonachainNFT.dd_tier d = DonachainNFT.Silver ↔
          50000000000000000 ≤ amount < 100000000000000000) ∧
       (DonachainNFT.dd_tier d = DonachainNFT.Bronze ↔ amount < 50000000000000000)) ∧
    (DonachainNFT.dd_tier d ≠ DonachainNFT.Special →
       DonachainNFT.dd_tier d = DonachainNFT.tier_of_amount amount) ∧
    ∀ a b, a ≤ b →
      tier_rank (DonachainNFT.tier_of_amount a)
        ≤ tier_rank (DonachainNFT.tier_of_amount b).
Proof.
  intros Hm draw.
  apply mintCertificate_OK in Hm as (_ & _ & -> & _ & _ & ->).
  split; [apply Z.mod_pos_bound; lia|].
  eexists. split; [simpl; apply lookup_insert_eq|]. simpl.
  fold draw. unfold DonachainNFT.tier_of_draw, DonachainNFT.SPECIAL_CHANCE.
  split; [done|]. split; [|split; [|split]].
  - intros Hlt. by rewrite decide_True.
  - intros Hge. rewrite decide_False by lia.
    pose proof (tier_of_amount_cases amount) as (? & ? & ? & _). done.
  - case_decide; [done|]. done.
  - apply tier_of_amount_mono.
Qed.

(** C5 (amended). For every state and every [n], [getLeaderboard n]
    returns the first [n] entries (all of them when [n] exceeds the number
    of unique donors) of a rearrangement of the unique donors, each with
    its total, in which the totals are in descending order.  Donors of
    equal totals come in the order the exchange sort leaves them in. *)
Theorem leaderboard_is_descending_ranking (count : nat) (m : DonationManager.state) :
  ∃ ranked : list (address * Z),
    ranked ≡ₚ leaderboard_entries m ∧
    descending ranked ∧
    DonationManager.getLeaderboard count m
      = ((take count ranked).*1, (take count ranked).*2) ∧
    length (take count ranked)
      = Nat.min count (length (DonationManager.uniqueDonors m)).
Proof.
  destruct (getLeaderboard_ranked count m) as (ranked & Hp & Hd & Hg).
  exists ranked. repeat split; try done.
  rewrite length_take, Hp. unfold leaderboard_entries. by rewrite length_fmap.
Qed.

(** C6 (amended). For every existing campaign whose deadline is strictly
    before the current time, every [donate] call that targets it fails:
    with InvalidInput when no amount is attached, with CampaignInactive
    when the active flag is false, and with DeadlinePassed otherwise, that
    is whenever an amount is attached and the active flag is true. *)
Theorem donate_after_deadline_fails (w : World) (e : Env) (value campaignId : Z) :
  reachable w →
  campaign_exists (manager w) campaignId →
  DonationManager.c_deadline (DonationManager.campaign_at (manager w) campaignId)
    < block_timestamp e →
  DonationManager.donate (nfts w) e value campaignId (manager w)
    = Err (if decide (0 < value) then
             if DonationManager.c_isActive
                  (DonationManager.campaign_at (manager w) campaignId)
             then DeadlinePassed else CampaignInactive
           else InvalidInput).
Proof.
  intros Hw Hex Hdl.
  pose proof (reachable_by_inv _ _ Hw) as [_ _ Hm].
  pose proof (donate_checks (nfts w) e value campaignId (manager w)
                (ledger_unlocked _ Hm)) as (Hc1 & Hc2 & Hc3 & Hc4).
  case_decide; [|by apply Hc1].
  destruct (DonationManager.c_isActive _) eqn:Ha.
  - by apply Hc4.
  - by apply Hc3.
Qed.

(** C7. A donor who holds a certificate of a campaign votes twice with
    it on that campaign, from a state in which the certificate is unused
    and the tally of the campaign is 0: the first vote succeeds, sets the
    used-flag and brings the tally to 1; the second fails with AlreadyUsed
    and leaves the tally at 1 and the whole state as it was. *)
Theorem second_vote_is_rejected (w : World) (e : Env) (campaignId tokenId : Z) :
  reachable w →
  call_ownerOf (nfts w) (Voting.nftContract (voting w)) tokenId = OK (msg_sender e) →
  (∃ d, call_donationDetails (nfts w) (Voting.nftContract (voting w)) tokenId = OK d ∧
        DonachainNFT.dd_campaignId d = campaignId) →
  Voting.hasVoted (voting w) tokenId = false →
  Voting.getVotes (voting w) campaignId = 0 →
  ∃ w1,
    exec w (VotingVote e campaignId tokenId) = OK w1 ∧
    Voting.hasVoted (voting w1) tokenId = true ∧
    Voting.getVotes (voting w1) campaignId = 1 ∧
    exec w1 (VotingVote e campaignId tokenId) = Err AlreadyUsed ∧
    apply_call w1 (VotingVote e campaignId tokenId) = w1 ∧
    Voting.getVotes (voting (apply_call w1 (VotingVote e campaignId tokenId))) campaignId
      = 1.
Proof.
  intros Hw Ho Hd Hu%hasVoted_false Hz.
  pose proof (reachable_by_inv _ _ Hw) as [Hn Hv _].
  destruct (proj2 (vote_succeeds_iff (nfts w) e campaignId tokenId (voting w) Hn Hv))
    as [v1 Hv1]; [done|].
  exists (set_voting v1 w).
  assert (exec w (VotingVote e campaignId tokenId) = OK (set_voting v1 w)) as Hx1.
  { simpl. unfold on_voting. by rewrite Hv1. }
  pose proof Hv1 as Hv1'.
  apply vote_OK in Hv1' as (_ & _ & _ & _ & _ & Hv1eq).
  assert (Voting.getVotes v1 campaignId = 1) as Hone.
  { subst v1. unfold Voting.getVotes in *. simpl. rewrite lookup_insert_eq. simpl. lia. }
  assert (exec (set_voting v1 w) (VotingVote e campaignId tokenId) = Err AlreadyUsed)
    as Hx2.
  { simpl. unfold on_voting. simpl.
    rewrite vote_run by (by subst v1).
    replace (Voting.nftContract v1) with (Voting.nftContract (voting w))
      by (by subst v1).
    rewrite Ho. simpl. rewrite (require_bind_true (_ = _)) by done.
    rewrite (require_bind_false (_ ∉ _)); [done|].
    subst v1. simpl. intros Hnot. apply Hnot.
    apply elem_of_union. left. by apply elem_of_singleton. }
  repeat split; try done.
  - apply hasVoted_true. subst v1. simpl.
    apply elem_of_union. left. by apply elem_of_singleton.
  - unfold apply_call. by rewrite Hx2.
  - unfold apply_call. by rewrite Hx2.
Qed.

(** C8. An accepted [donate] records one donation; its certificate-minted
    flag is true, and one certificate (the next id of the configured
    registry) is minted to the donor for the donated amount and campaign,
    exactly when the amount is at least 0.01 ether and a registry address
    is configured; otherwise the registries are untouched and the flag is
    false. *)
Theorem donate_mints_iff_qualifying (ns : gmap address DonachainNFT.state) (e : Env)
    (value campaignId : Z) (m m' : DonationManager.state)
    (ns' : gmap address DonachainNFT.state) :
  DonationManager.donate ns e value campaignId m = OK (m', ns') →
  let qualifies := 10000000000000000 ≤ value ∧ DonationManager.nftContract m ≠ 0 in
  ∃ d,
    DonationManager.allDonations m' = DonationManager.allDonations m ++ [d] ∧
    DonationManager.d_donor d = msg_sender e ∧
    DonationManager.d_amount d = value ∧
    DonationManager.d_campaignId d = campaignId ∧
    (DonationManager.d_nftMinted d = true ↔ qualifies) ∧
    (qualifies →
       ∃ s s' tokenId detail,
         ns !! DonationManager.nftContract m = Some s ∧
         ns' = <[DonationManager.nftContract m := s']> ns ∧
         tokenId = DonachainNFT._nextTokenId s ∧
         DonachainNFT.ownerOf s tokenId = Err NotFound ∧
         DonachainNFT.ownerOf s' tokenId = OK (msg_sender e) ∧
         DonachainNFT.donationDetails s' !! tokenId = Some detail ∧
         DonachainNFT.dd_donor detail = msg_sender e ∧
         DonachainNFT.dd_amount detail = value ∧
         DonachainNFT.dd_campaignId detail = campaignId ∧
         DonachainNFT.totalSupply s' = DonachainNFT.totalSupply s + 1 ∧
         ∀ t, t ≠ tokenId →
           DonachainNFT._owners s' !! t = DonachainNFT._owners s !! t) ∧
    (¬ qualifies → ns' = ns ∧ DonationManager.d_nftMinted d = false).
Proof.
  intros Hd qualifies.
  apply donate_OK in Hd as (_ & _ & _ & _ & _ & _ & _ & -> & Hmint).
  simpl. eexists. split; [reflexivity|]. simpl.
  change DonationManager.MIN_DONATION_FOR_NFT with 10000000000000000 in *.
  fold qualifies in Hmint |- *.
  split; [done|]. split; [done|]. split; [done|].
  split; [apply bool_decide_eq_true|].
  split.
  - intros Hq. rewrite bool_decide_eq_true_2 in Hmint by done.
    destruct Hmint as (tokenId & (s & s' & Hs & Hm & ->)%call_mintCertificate_OK).
    apply mintCertificate_OK in Hm as (_ & _ & -> & _ & Hfresh & ->).
    eexists s, _, _, _.
    split; [done|]. split; [done|]. split; [done|].
    split; [unfold DonachainNFT.ownerOf; by rewrite Hfresh|].
    split; [unfold DonachainNFT.ownerOf; simpl; by rewrite lookup_insert_eq|].
    split; [simpl; by rewrite lookup_insert_eq|].
    split; [done|]. split; [done|]. split; [done|].
    split; [unfold DonachainNFT.totalSupply; simpl; lia|].
    intros t Ht. simpl. by rewrite lookup_insert_ne.
  - intros Hq. rewrite bool_decide_eq_false_2 in Hmint by done.
    split; [done|]. by apply bool_decide_eq_false_2.
Qed.

(** C9. In every successful [withdrawWithLog] the recipient's code runs
    on a state in which the expense record is already the last entry of
    the log and total-spent already includes the amount: whatever that
    code is, it has accepted the transfer on that state, and the log and
    the total of the final state are the ones it observed.  Conversely,
    once the checks of the call have passed, the outcome is the verdict
    of the recipient's code on that state. *)
Theorem expense_logged_before_transfer (e : Env) (description : string)
    (recipient : address) (amount campaignId : Z) (m : DonationManager.state) :
  let seen := withdrawal_logged e description recipient amount campaignId m in
  let expense := DonationManager.mkExpense (DonationManager._nextExpenseId m)
                   description amount recipient (block_timestamp e)
                   (prev_blockhash e) campaignId in
  (∀ m',
     DonationManager.withdrawWithLog e description recipient amount campaignId m
       = OK m' →
     DonationManager.accepts_transfer recipient amount seen = true ∧
     DonationManager.allExpenses seen = DonationManager.allExpenses m ++ [expense] ∧
     DonationManager.totalExpensesLogged seen
       = DonationManager.totalExpensesLogged m + amount ∧
     DonationManager.balance seen = DonationManager.balance m - amount ∧
     DonationManager.locked seen = true ∧
     m' = DonationManager.set_locked false seen) ∧
  (msg_sender e = DonationManager.owner m →
   DonationManager.locked m = false →
   (0 < String.length description)%nat → recipient ≠ 0 →
   0 < amount ≤ DonationManager.balance m →
   DonationManager._nextExpenseId m + 1 ≤ MAX_UINT256 →
   DonationManager.totalExpensesLogged m + amount ≤ MAX_UINT256 →
   DonationManager.withdrawWithLog e description recipient amount campaignId m
     = if DonationManager.accepts_transfer recipient amount seen
       then OK (DonationManager.set_locked false seen) else Err TransferRejected).
Proof.
  intros seen expense. split.
  - intros m' Hw.
    apply withdrawWithLog_OK in Hw as (Ho & Hl & Hd & Hr & Ha & Hx & Hs & Hacc & ->).
    repeat split; done.
  - apply withdrawWithLog_run.
Qed.

(** C10. In every reachable state, [vote] succeeds exactly when the caller
    owns the token, the token's used-flag is false and the certificate's
    stored campaign id is the given one; a successful vote raises the
    tally by one; and the campaign ledger plays no part: with any other
    ledger state in its place (the campaign inactive, past its deadline
    or absent) the vote has the same outcome. *)
Theorem vote_needs_only_the_certificate (w : World) (e : Env) (campaignId tokenId : Z) :
  reachable w →
  (succeeds (exec w (VotingVote e campaignId tokenId)) ↔
     call_ownerOf (nfts w) (Voting.nftContract (voting w)) tokenId = OK (msg_sender e) ∧
     Voting.hasVoted (voting w) tokenId = false ∧
     ∃ d, call_donationDetails (nfts w) (Voting.nftContract (voting w)) tokenId = OK d ∧
          DonachainNFT.dd_campaignId d = campaignId) ∧
  (∀ w', exec w (VotingVote e campaignId tokenId) = OK w' →
     Voting.getVotes (voting w') campaignId
       = Voting.getVotes (voting w) campaignId + 1 ∧
     Voting.hasVoted (voting w') tokenId = true) ∧
  (∀ ledger : DonationManager.state,
     match exec w (VotingVote e campaignId tokenId) with
     | OK w' => exec (set_manager ledger w) (VotingVote e campaignId tokenId)
                  = OK (set_manager ledger w')
     | Err err => exec (set_manager ledger w) (VotingVote e campaignId tokenId)
                    = Err err
     end).
Proof.
  intros Hw.
  pose proof (reachable_by_inv _ _ Hw) as [Hn Hv _].
  split; [|split].
  - rewrite hasVoted_false.
    rewrite <-(vote_succeeds_iff (nfts w) e campaignId tokenId (voting w) Hn Hv).
    simpl. unfold on_voting, succeeds. split.
    + intros [w' Hx]. inv_ok. by eexists.
    + intros [v' Hv']. rewrite Hv'. by eexists.
  - intros w' Hx. simpl in Hx. apply on_voting_OK in Hx as (v' & Hv' & ->).
    apply vote_OK in Hv' as (_ & _ & _ & _ & _ & ->). simpl. split.
    + unfold Voting.getVotes. simpl. by rewrite lookup_insert_eq.
    + apply hasVoted_true. simpl. apply elem_of_union. left. by apply elem_of_singleton.
  - intros ledger. simpl. unfold on_voting. simpl.
    by destruct (Voting.vote _ _ _ _ _).
Qed.

End Claims.


(** * The claims on the concrete deployment *)

Lemma world_init_reachable allowed :
  @reachable_by fixed_keccak plain_recipients allowed world_init.
Proof. by apply (reachable_init allowed ledger_addr admin admin registry_addr). Qed.

Lemma world_setup_reachable :
  @reachable_by fixed_keccak plain_recipients keeps_registry world_setup.
Proof.
  apply reachable_by_run; [apply world_init_reachable|].
  repeat constructor.
Qed.

Lemma world_donated_reachable :
  @reachable_by fixed_keccak plain_recipients keeps_registry world_donated.
Proof.
  apply reachable_by_run; [apply world_setup_reachable|].
  repeat constructor.
Qed.

Lemma world_voted_reachable :
  @reachable_by fixed_keccak plain_recipients keeps_registry world_voted.
Proof.
  apply reachable_by_run; [apply world_donated_reachable|].
  repeat constructor.
Qed.

Lemma world_closed_reachable : @reachable fixed_keccak plain_recipients world_closed.
Proof.
  apply reachable_run, (reachable_by_reachable keeps_registry), world_donated_reachable.
Qed.

Lemma world_repointed_reachable :
  @reachable fixed_keccak plain_recipients world_repointed.
Proof.
  apply reachable_run, (reachable_by_reachable keeps_registry), world_voted_reachable.
Qed.

Lemma world_tie_reachable : @reachable fixed_keccak plain_recipients world_tie.
Proof.
  apply reachable_run, (reachable_by_reachable keeps_registry), world_setup_reachable.
Qed.

(** The scenarios of the specification on the deployment. *)

Example scenario_first_donation :
  DonationManager.c_totalRaised (DonationManager.campaign_at (manager world_donated) 1)
    = 20000000000000000 ∧
  DonationManager.d_nftMinted <$> DonationManager.allDonations (manager world_donated)
    = [true] ∧
  call_ownerOf (nfts world_donated) registry_addr 1 = OK alice ∧
  DonachainNFT.dd_tier <$> call_donationDetails (nfts world_donated) registry_addr 1
    = OK DonachainNFT.Bronze.
Proof. repeat split; by vm_compute. Qed.

Example scenario_wrong_campaign :
  @exec fixed_keccak plain_recipients world_donated (VotingVote (at_time alice 50) 2 1)
    = Err CampaignMismatch.
Proof. by vm_compute. Qed.

Example scenario_stranger_creates_campaign :
  @exec fixed_keccak plain_recipients world_donated
    (ManagerCreateCampaign (at_time bob 50) "Roads" "Repairs" "cid" 1 2000)
    = Err Unauthorized ∧
  DonationManager._nextCampaignId (manager world_donated) = 2.
Proof. split; by vm_compute. Qed.

(** C1 on the deployment: campaign 1 has raised what Alice gave, and a
    further 5 wei from Bob raise it by 5. *)
Lemma raised_is_sum_of_donations_witness :
  @reachable fixed_keccak plain_recipients world_donated ∧
  campaign_exists (manager world_donated) 1 ∧
  DonationManager.c_totalRaised (DonationManager.campaign_at (manager world_donated) 1)
    = donated_to 1 (DonationManager.allDonations (manager world_donated)) ∧
  DonationManager.c_totalRaised
    (DonationManager.campaign_at
       (manager (@apply_call fixed_keccak plain_recipients world_donated
                   (ManagerDonate (at_time bob 30) 5 1))) 1)
    = 20000000000000005.
Proof.
  assert (@reachable fixed_keccak plain_recipients world_donated) as Hr
    by apply (reachable_by_reachable keeps_registry), world_donated_reachable.
  assert (campaign_exists (manager world_donated) 1) as Hex by (by vm_compute).
  destruct (@raised_is_sum_of_donations fixed_keccak plain_recipients world_donated 1
              Hr Hex) as [Hsum Hstep].
  repeat split; try done.
Defined.





(** C4 on a registry whose minter is the ledger: the draw is 42, so a
    donation of 1 ether gets a Special certificate. *)
Lemma mint_tier_witness :
  let s := DonachainNFT.set_donationManager ledger_addr (DonachainNFT.constructor admin) in
  ∃ s',
    @DonachainNFT.mintCertificate lucky_keccak (at_time ledger_addr 20) alice
      1000000000000000000 1 "Wells" 0 s = OK (1, s') ∧
    ∃ d, DonachainNFT.donationDetails s' !! 1 = Some d ∧
         DonachainNFT.dd_tier d = DonachainNFT.Special.
Proof.
  simpl.
  destruct (@DonachainNFT.mintCertificate lucky_keccak (at_time ledger_addr 20) alice
              1000000000000000000 1 "Wells" 0
              (DonachainNFT.set_donationManager ledger_addr
                 (DonachainNFT.constructor admin))) as [[t s']|err] eqn:Hm;
    [|by vm_compute in Hm].
  assert (t = 1) as -> by (vm_compute in Hm; by simplify_eq).
  exists s'. split; [done|].
  destruct (@mint_tier lucky_keccak _ _ _ _ _ _ _ _ _ Hm) as (_ & d & Hd & _ & Hsp & _).
  exists d. split; [done|]. apply Hsp. by vm_compute.
Defined.

(** C5 as stated fails on a tie: Alice and Bob have given 1 wei each,
    Alice first, yet the leaderboard ranks Bob ahead of Alice. *)
Lemma leaderboard_tie_not_by_insertion_order :
  @reachable fixed_keccak plain_recipients world_tie ∧
  DonationManager.uniqueDonors (manager world_tie) = [alice; bob; carol] ∧
  DonationManager.getLeaderboard 3 (manager world_tie) = ([carol; bob; alice], [2; 1; 1]) ∧
  spec_leaderboard 3 (manager world_tie) = ([carol; alice; bob], [2; 1; 1]) ∧
  DonationManager.getLeaderboard 3 (manager world_tie)
    ≠ spec_leaderboard 3 (manager world_tie).
Proof.
  split; [apply world_tie_reachable|].
  split; [by vm_compute|]. split; [by vm_compute|]. split; [by vm_compute|].
  by vm_compute.
Defined.

(** C6 on the deployment: at time 2000, past the deadline 1000 of the
    active campaign 1, a donation of 5 wei fails with DeadlinePassed. *)
Lemma donate_after_deadline_fails_witness :
  @reachable fixed_keccak plain_recipients world_donated ∧
  campaign_exists (manager world_donated) 1 ∧
  DonationManager.c_deadline (DonationManager.campaign_at (manager world_donated) 1)
    < block_timestamp (at_time bob 2000) ∧
  @DonationManager.donate fixed_keccak (nfts world_donated) (at_time bob 2000) 5 1
    (manager world_donated) = Err DeadlinePassed.
Proof.
  assert (@reachable fixed_keccak plain_recipients world_donated) as Hr
    by apply (reachable_by_reachable keeps_registry), world_donated_reachable.
  assert (campaign_exists (manager world_donated) 1) as Hex by (by vm_compute).
  assert (DonationManager.c_deadline
            (DonationManager.campaign_at (manager world_donated) 1)
          < block_timestamp (at_time bob 2000)) as Hdl by (by vm_compute).
  split; [done|]. split; [done|]. split; [done|].
  exact (@donate_after_deadline_fails fixed_keccak plain_recipients world_donated
           (at_time bob 2000) 5 1 Hr Hex Hdl).
Defined.

(** C6 as stated fails for a call without an attached amount: past the
    deadline of the active campaign 1 it fails with InvalidInput. *)
Lemma empty_donation_is_invalid_not_late :
  @reachable fixed_keccak plain_recipients world_donated ∧
  campaign_exists (manager world_donated) 1 ∧
  DonationManager.c_isActive (DonationManager.campaign_at (manager world_donated) 1)
    = true ∧
  DonationManager.c_deadline (DonationManager.campaign_at (manager world_donated) 1)
    < block_timestamp (at_time bob 2000) ∧
  @DonationManager.donate fixed_keccak (nfts world_donated) (at_time bob 2000) 0 1
    (manager world_donated) = Err InvalidInput ∧
  @DonationManager.donate fixed_keccak (nfts world_donated) (at_time bob 2000) 0 1
    (manager world_donated) ≠ Err DeadlinePassed.
Proof.
  split; [apply (reachable_by_reachable keeps_registry), world_donated_reachable|].
  split; [by vm_compute|]. split; [by vm_compute|]. split; [by vm_compute|].
  split; [by vm_compute|]. by vm_compute.
Defined.

(** C7 on the deployment: Alice votes twice with certificate 1. *)
Lemma second_vote_is_rejected_witness :
  @reachable fixed_keccak plain_recipients world_donated ∧
  call_ownerOf (nfts world_donated) (Voting.nftContract (voting world_donated)) 1
    = OK alice ∧
  Voting.hasVoted (voting world_donated) 1 = false ∧
  Voting.getVotes (voting world_donated) 1 = 0 ∧
  ∃ w1,
    @exec fixed_keccak plain_recipients world_donated (VotingVote (at_time alice 50) 1 1)
      = OK w1 ∧
    Voting.getVotes (voting w1) 1 = 1 ∧
    @exec fixed_keccak plain_recipients w1 (VotingVote (at_time alice 50) 1 1)
      = Err AlreadyUsed.
Proof.
  assert (@reachable fixed_keccak plain_recipients world_donated) as Hr
    by apply (reachable_by_reachable keeps_registry), world_donated_reachable.
  assert (call_ownerOf (nfts world_donated) (Voting.nftContract (voting world_donated)) 1
          = OK (msg_sender (at_time alice 50))) as Ho by (by vm_compute).
  assert (∃ d, call_donationDetails (nfts world_donated)
                 (Voting.nftContract (voting world_donated)) 1 = OK d ∧
               DonachainNFT.dd_campaignId d = 1) as Hd.
  { exists (DonachainNFT.mkDetail alice 20000000000000000 1 "Wells" 20 0
              DonachainNFT.Bronze).
    split; by vm_compute. }
  assert (Voting.hasVoted (voting world_donated) 1 = false) as Hu by (by vm_compute).
  assert (Voting.getVotes (voting world_donated) 1 = 0) as Hz by (by vm_compute).
  destruct (@second_vote_is_rejected fixed_keccak plain_recipients world_donated
              (at_time alice 50) 1 1 Hr Ho Hd Hu Hz)
    as (w1 & Hx1 & _ & Hone & Hx2 & _).
  split; [done|]. split; [exact Ho|]. split; [done|]. split; [done|].
  exists w1. by repeat split.
Defined.

(** C8 on the deployment: Alice's donation of 0.02 ether to campaign 1. *)
Lemma donate_mints_iff_qualifying_witness :
  @DonationManager.donate fixed_keccak (nfts world_setup) (at_time alice 20)
    20000000000000000 1 (manager world_setup)
    = OK (manager world_donated, nfts world_donated) ∧
  ∃ d, DonationManager.allDonations (manager world_donated)
         = DonationManager.allDonations (manager world_setup) ++ [d] ∧
       DonationManager.d_nftMinted d = true ∧
       call_ownerOf (nfts world_donated) registry_addr 1 = OK alice.
Proof.
  assert (@DonationManager.donate fixed_keccak (nfts world_setup) (at_time alice 20)
            20000000000000000 1 (manager world_setup)
          = OK (manager world_donated, nfts world_donated)) as Hd by (by vm_compute).
  split; [done|].
  destruct (@donate_mints_iff_qualifying fixed_keccak _ _ _ _ _ _ _ Hd)
    as (d & Happ & _ & _ & _ & Hflag & _).
  exists d. split; [exact Happ|]. split; [|by vm_compute].
  apply Hflag. vm_compute. split; intros Hx; discriminate Hx.
Defined.

(** C9 on the deployment: the auditing recipient accepts a transfer only
    when the expense log already ends with its withdrawal; the withdrawal
    of 0.01 ether to Bob goes through. *)
Lemma expense_logged_before_transfer_witness :
  let seen := withdrawal_logged (at_time admin 30) "rent" bob 10000000000000000 1
                (manager world_donated) in
  @DonationManager.withdrawWithLog auditing_recipients (at_time admin 30) "rent" bob
    10000000000000000 1 (manager world_donated)
    = OK (DonationManager.set_locked false seen) ∧
  @DonationManager.accepts_transfer auditing_recipients bob 10000000000000000 seen = true ∧
  @DonationManager.accepts_transfer auditing_recipients bob 10000000000000000
    (manager world_donated) = false.
Proof.
  intros seen.
  assert (@DonationManager.withdrawWithLog auditing_recipients (at_time admin 30) "rent"
            bob 10000000000000000 1 (manager world_donated)
          = OK (DonationManager.set_locked false seen)) as Hw by (by vm_compute).
  destruct (@expense_logged_before_transfer auditing_recipients (at_time admin 30) "rent"
              bob 10000000000000000 1 (manager world_donated)) as [Hseen _].
  destruct (Hseen _ Hw) as (Hacc & _).
  split; [exact Hw|]. split; [exact Hacc | by vm_compute].
Defined.

(** C10 on the deployment: campaign 1 is closed and, at time 5000, past its
    deadline; Alice's vote with certificate 1 succeeds all the same. *)
Lemma vote_needs_only_the_certificate_witness :
  @reachable fixed_keccak plain_recipients world_closed ∧
  DonationManager.c_isActive (DonationManager.campaign_at (manager world_closed) 1)
    = false ∧
  DonationManager.c_deadline (DonationManager.campaign_at (manager world_closed) 1)
    < block_timestamp (at_time alice 5000) ∧
  succeeds (@exec fixed_keccak plain_recipients world_closed
              (VotingVote (at_time alice 5000) 1 1)).
Proof.
  destruct (@vote_needs_only_the_certificate fixed_keccak plain_recipients world_closed
              (at_time alice 5000) 1 1 world_closed_reachable) as (Hiff & _ & _).
  split; [apply world_closed_reachable|].
  split; [by vm_compute|]. split; [by vm_compute|].
  apply Hiff. split; [by vm_compute|]. split; [by vm_compute|].
  exists (DonachainNFT.mkDetail alice 20000000000000000 1 "Wells" 20 0
            DonachainNFT.Bronze).
  split; by vm_compute.
Defined.


(** * Further properties of the three contracts *)

Section Extras.
Context `{Keccak} `{DonationManager.Recipients}.
Import DonationManager.

(** ** Campaign Ledger: campaigns *)

Lemma campaign_exists_range m id :
  ledger_inv m → ledger_records_inv m →
  campaign_exists m id ↔ 1 ≤ id < _nextCampaignId m.
Proof.
  intros Hm Hr. rewrite (campaign_exists_iff _ _ Hm). split.
  - intros [c Hc]. by apply (ledger_campaign_ids _ Hm) in Hc as [_ Hid].
  - apply (records_campaigns _ Hr).
Qed.

Lemma getCampaign_OK m id c :
  getCampaign m id = OK c ↔ campaign_exists m id ∧ c = campaign_at m id.
Proof.
  unfold getCampaign, campaign_exists. split.
  - intros Hg. inv_ok. by subst.
  - intros [Hid ->]. by rewrite (require_bind_true (_ ≠ 0)).
Qed.

Lemma getCampaign_same m m' id c :
  campaigns m' = campaigns m → getCampaign m id = OK c → getCampaign m' id = OK c.
Proof.
  intros Hc. unfold getCampaign. by rewrite (campaign_at_same m m' id Hc).
Qed.

Lemma same_terms_refl c : same_terms c c.
Proof. unfold same_terms. repeat split; lia. Qed.

(** X1.  Campaign ids are handed out in sequence.  In every reachable
    state [campaignIds] is the list 1, 2, ..., [_nextCampaignId - 1], and
    a campaign exists exactly for these ids.  A successful [createCampaign]
    returns the number of campaigns plus one, an id that did not exist, and
    [getCampaign] then returns the campaign as created: the arguments,
    nothing raised, active, created now by the caller. *)
Theorem campaign_ids_are_sequential w :
  reachable w →
  campaignIds (manager w) = seqZ 1 (_nextCampaignId (manager w) - 1) ∧
  (∀ id, campaign_exists (manager w) id ↔ 1 ≤ id < _nextCampaignId (manager w)) ∧
  ∀ e title description imageCID targetAmount deadline id m',
    createCampaign e title description imageCID targetAmount deadline (manager w)
      = OK (id, m') →
    id = Z.of_nat (length (campaignIds (manager w))) + 1 ∧
    ¬ campaign_exists (manager w) id ∧
    getCampaign m' id =
      OK (mkCampaign id title description imageCID targetAmount 0 true
            (block_timestamp e) deadline (msg_sender e)).
Proof.
  intros Hw. pose proof (reachable_by_inv _ _ Hw) as [_ _ Hm].
  pose proof (reachable_records _ Hw) as Hr.
  split; [apply (records_campaign_ids _ Hr)|].
  split; [intros id; by apply campaign_exists_range|].
  intros e title description imageCID targetAmount deadline id m' Hc.
  pose proof (ledger_next_campaign _ Hm) as Hnext.
  apply createCampaign_OK in Hc as (_ & -> & Hfit & ->).
  split; [|split].
  - rewrite (records_campaign_ids _ Hr), length_seqZ. lia.
  - rewrite campaign_exists_range by done. lia.
  - apply getCampaign_OK. unfold campaign_exists, campaign_at. simpl.
    rewrite lookup_insert_eq. simpl. split; [lia | done].
Qed.

(** X2.  In every reachable state the entry at position [i] of
    [getAllCampaigns] is the campaign [getCampaign] returns for id
    [i + 1], and there is an entry exactly when that campaign exists: the
    list holds every campaign once, in the order of creation, and no
    empty slot. *)
Theorem getAllCampaigns_matches_getCampaign w i c :
  reachable w →
  getAllCampaigns (manager w) !! i = Some c ↔
  getCampaign (manager w) (Z.of_nat i + 1) = OK c.
Proof.
  intros Hw. pose proof (reachable_by_inv _ _ Hw) as [_ _ Hm].
  pose proof (reachable_records _ Hw) as Hr.
  rewrite getAllCampaigns_fmap, list_lookup_fmap, (records_campaign_ids _ Hr).
  rewrite getCampaign_OK, campaign_exists_range by done.
  pose proof (ledger_next_campaign _ Hm) as Hnext. split.
  - intros Hl. destruct (seqZ _ _ !! i) as [id|] eqn:Hi; [|done].
    apply lookup_seqZ in Hi as [-> Hlt]. simpl in Hl. injection Hl as <-.
    split; [lia|]. f_equal. lia.
  - intros [Hlt ->]. rewrite lookup_seqZ_lt by lia. simpl. do 2 f_equal. lia.
Qed.

(** X3.  For every state and time, [getActiveCampaigns] returns the
    campaigns of [getAllCampaigns] that are active and whose deadline has
    not passed, in the same order; the position it writes to is always
    inside the array it allocated, so the view never panics. *)
Theorem getActiveCampaigns_filters_getAllCampaigns e s :
  getActiveCampaigns e s =
    Some (filter (λ c, c_isActive c = true ∧ block_timestamp e ≤ c_deadline c)
            (getAllCampaigns s)).
Proof.
  rewrite getActiveCampaigns_filter. f_equal. apply list_filter_iff.
  intros c. unfold is_open. rewrite andb_True, bool_decide_spec.
  by rewrite Is_true_true.
Qed.


Lemma sum_indicator (ids : list Z) (c a : Z) :
  NoDup ids →
  foldr Z.add 0 ((λ id, if decide (c = id) then a else 0) <$> ids) =
    if decide (c ∈ ids) then a else 0.
Proof.
  induction 1 as [|id ids Hnin _ IH].
  - rewrite decide_False; [done | by intros Hx%elem_of_nil].
  - rewrite fmap_cons. simpl foldr. rewrite IH. destruct (decide (c = id)) as [->|Hne].
    + rewrite decide_False by done. rewrite decide_True by (by left). lia.
    + destruct (decide (c ∈ ids)) as [Hin|Hin].
      * rewrite decide_True by (by right). lia.
      * rewrite decide_False; [lia|]. intros [Hx|Hx]%elem_of_cons; done.
Qed.

Lemma sum_fmap_add {A} (f g : A → Z) (l : list A) :
  foldr Z.add 0 ((λ x, f x + g x) <$> l) =
    foldr Z.add 0 (f <$> l) + foldr Z.add 0 (g <$> l).
Proof.
  induction l as [|x l IH]; [done|]. rewrite !fmap_cons. simpl foldr. lia.
Qed.

(** Every donation counts for exactly one of the ids. *)
Lemma sum_donated_to (ids : list Z) (ds : list Donation) :
  NoDup ids → (∀ d, d ∈ ds → d_campaignId d ∈ ids) →
  foldr Z.add 0 ((λ id, donated_to id ds) <$> ids) = total_donated ds.
Proof.
  intros Hnd. induction ds as [|d ds IH] using rev_ind; intros Hin.
  - clear. induction ids as [|id ids IHids]; [done|].
    rewrite fmap_cons. simpl foldr. rewrite IHids. done.
  - rewrite total_donated_snoc, <-IH.
    + erewrite list_fmap_ext; [|intros i id _; apply donated_to_snoc].
      rewrite (sum_fmap_add (λ id, donated_to id ds)). f_equal.
      rewrite sum_indicator by done. rewrite decide_True; [done|].
      apply Hin, elem_of_app. right. by apply list_elem_of_singleton.
    + intros d' Hd'. apply Hin, elem_of_app. by left.
Qed.

(** X5.  In every reachable state the raised totals of the campaigns
    [getAllCampaigns] lists add up to [totalDonationsReceived]: every wei
    received is credited to exactly one campaign. *)
Theorem raised_totals_add_up w :
  reachable w →
  raised_total (getAllCampaigns (manager w)) = totalDonationsReceived (manager w).
Proof.
  intros Hw. pose proof (reachable_by_inv _ _ Hw) as [_ _ Hm].
  pose proof (reachable_records _ Hw) as Hr.
  unfold raised_total. rewrite getAllCampaigns_fmap, <-list_fmap_compose.
  rewrite (ledger_received _ Hm).
  rewrite <-(sum_donated_to (campaignIds (manager w))).
  - f_equal. apply list_fmap_ext. intros i id Hi. simpl.
    assert (campaign_exists (manager w) id) as Hex.
    { apply campaign_exists_range; [done..|].
      rewrite (records_campaign_ids _ Hr) in Hi. apply lookup_seqZ in Hi. lia. }
    apply campaign_at_exists in Hex. by apply (ledger_raised _ Hm).
  - rewrite (records_campaign_ids _ Hr). apply NoDup_seqZ.
  - intros d Hd. apply (ledger_donations _ Hm) in Hd as [[c Hc] _].
    apply (ledger_campaign_ids _ Hm) in Hc as [_ Hid].
    rewrite (records_campaign_ids _ Hr). apply elem_of_seqZ. lia.
Qed.

(** ** Campaign Ledger: donations and expenses *)

(** X6.  In every reachable state [getDonationsForCampaign] does not
    panic and returns exactly the donation records made to that campaign
    id, in the order they were made; their amounts add up to the raised
    total stored for the campaign (zero for an id without a campaign). *)
Theorem getDonationsForCampaign_lists_its_donations w campaignId :
  reachable w →
  ∃ ds, getDonationsForCampaign (manager w) campaignId = Some ds ∧
        ds = filter (λ d, d_campaignId d = campaignId) (getAllDonations (manager w)) ∧
        total_donated ds = c_totalRaised (campaign_at (manager w) campaignId).
Proof.
  intros Hw. pose proof (reachable_by_inv _ _ Hw) as [_ _ Hm].
  pose proof (reachable_records _ Hw) as Hr.
  eexists. split; [|split; [reflexivity|]].
  - apply donations_at_Forall2, (records_by_campaign _ Hr).
  - unfold getAllDonations.
    change (total_donated (filter (λ d, d_campaignId d = campaignId)
                             (allDonations (manager w))))
      with (donated_to campaignId (allDonations (manager w))).
    destruct (campaigns (manager w) !! campaignId) as [c|] eqn:Hc.
    + unfold campaign_at. rewrite Hc. simpl. symmetry. by apply (ledger_raised _ Hm).
    + unfold campaign_at. rewrite Hc. simpl. apply donated_to_absent.
      intros d Hd Hid. apply (ledger_donations _ Hm) in Hd as [[c' Hc'] _].
      rewrite Hid, Hc in Hc'. done.
Qed.

(** X7.  In every reachable state [getDonationsByDonor] does not panic
    and returns exactly the donation records of that donor, in the order
    they were made; their amounts add up to the donor's total (the amount
    the leaderboard ranks), and the donor is among the unique donors
    exactly when the list is not empty. *)
Theorem getDonationsByDonor_lists_their_donations w donor :
  reachable w →
  ∃ ds, getDonationsByDonor (manager w) donor = Some ds ∧
        ds = filter (λ d, d_donor d = donor) (getAllDonations (manager w)) ∧
        total_donated ds = donor_total (manager w) donor ∧
        (donor ∈ uniqueDonors (manager w) ↔ ds ≠ []).
Proof.
  intros Hw. pose proof (reachable_by_inv _ _ Hw) as [_ _ Hm].
  pose proof (reachable_records _ Hw) as Hr.
  eexists. split; [|split; [reflexivity|split]].
  - apply donations_at_Forall2, (records_by_donor _ Hr).
  - symmetry. apply (ledger_donor_totals _ Hm).
  - unfold getAllDonations. rewrite (ledger_donors _ Hm). split.
    + intros (d & Hd & Ha) Hnil.
      by eapply (filter_nil_not_elem_of (λ d, d_donor d = donor)).
    + intros Hne. destruct (filter _ _) as [|d l] eqn:Hf; [done|].
      assert (d ∈ filter (λ d, d_donor d = donor) (allDonations (manager w))) as Hd
        by (rewrite Hf; by left).
      apply list_elem_of_filter in Hd as [Ha Hd]. by exists d.
Qed.

(** X8.  In every reachable state the record at position [i] of
    [getAllDonations] has id [i + 1], a positive amount and the id of an
    existing campaign, and is flagged [nftMinted] only if its amount is at
    least 0.01 ether; the record at position [i] of [getAllExpenses] has id
    [i + 1] and a positive amount; and the next expense id is the number
    of expenses plus one. *)
Theorem record_ids_are_positions w :
  reachable w →
  (∀ i d, getAllDonations (manager w) !! i = Some d →
     d_id d = Z.of_nat i + 1 ∧ 0 < d_amount d ∧
     campaign_exists (manager w) (d_campaignId d) ∧
     (d_nftMinted d = true → MIN_DONATION_FOR_NFT ≤ d_amount d)) ∧
  (∀ i x, getAllExpenses (manager w) !! i = Some x →
     x_id x = Z.of_nat i + 1 ∧ 0 < x_amount x) ∧
  _nextExpenseId (manager w) = Z.of_nat (length (getAllExpenses (manager w))) + 1.
Proof.
  intros Hw. pose proof (reachable_by_inv _ _ Hw) as [_ _ Hm].
  pose proof (reachable_records _ Hw) as Hr.
  unfold getAllDonations, getAllExpenses. split; [|split].
  - intros i d Hi. pose proof (list_elem_of_lookup_2 _ _ _ Hi) as Hd.
    split; [by apply (records_donation_ids _ Hr)|].
    destruct (ledger_donations _ Hm d Hd) as [Hc Hpos].
    split; [done|]. split; [by apply campaign_exists_iff|].
    by apply (records_minted _ Hr).
  - intros i x Hi. pose proof (list_elem_of_lookup_2 _ _ _ Hi) as Hx.
    split; [by apply (records_expense_ids _ Hr)
           | by apply (records_expenses_positive _ Hr)].
  - apply (records_next_expense _ Hr).
Qed.



(** What a transaction does to an existing campaign. *)
Lemma campaign_step w c w' id c0 :
  ledger_inv (manager w) → exec w c = OK w' →
  getCampaign (manager w) id = OK c0 →
  ∃ c1, getCampaign (manager w') id = OK c1 ∧ same_terms c0 c1 ∧
        (c_isActive c1 ≠ c_isActive c0 →
           ∃ e, c = ManagerUpdateCampaignStatus e id (c_isActive c1) ∧
                msg_sender e = owner (manager w)) ∧
        (c_totalRaised c1 ≠ c_totalRaised c0 →
           ∃ e value, c = ManagerDonate e value id ∧
                      c_totalRaised c1 = c_totalRaised c0 + value).
Proof.
  intros Hm Hx Hg.
  assert (campaigns (manager w') = campaigns (manager w) →
          ∃ c1, getCampaign (manager w') id = OK c1 ∧ same_terms c0 c1 ∧
            (c_isActive c1 ≠ c_isActive c0 →
               ∃ e, c = ManagerUpdateCampaignStatus e id (c_isActive c1) ∧
                    msg_sender e = owner (manager w)) ∧
            (c_totalRaised c1 ≠ c_totalRaised c0 →
               ∃ e value, c = ManagerDonate e value id ∧
                          c_totalRaised c1 = c_totalRaised c0 + value)) as Hsame.
  { intros Hc. exists c0. split; [by eapply getCampaign_same|].
    split; [apply same_terms_refl|]. by split. }
  pose proof Hg as [Hex ->]%getCampaign_OK.
  pose proof (campaign_at_exists _ _ Hex) as Hc0.
  pose proof (ledger_campaign_ids _ Hm _ _ Hc0) as [Hid0 Hrange].
  destruct c; simpl in Hx.
  all: try (apply on_nft_OK in Hx as (s & s' & Hs & Hf & ->); by apply Hsame).
  all: try (apply on_voting_OK in Hx as (v & Hf & ->); by apply Hsame).
  - inv_ok. subst w'. by apply Hsame.
  - inv_ok. subst w'. by apply Hsame.
  - apply on_manager_OK in Hx as (m & Hf & ->).
    unfold transferOwnership, onlyOwner in Hf. inv_ok. subst m. by apply Hsame.
  - apply on_manager_OK in Hx as (m & Hf & ->).
    unfold setNFTContract, onlyOwner in Hf. inv_ok. subst m. by apply Hsame.
  - inv_ok. subst w'.
    match goal with Hc : createCampaign _ _ _ _ _ _ _ = OK _ |- _ =>
      apply createCampaign_OK in Hc as (_ & -> & _ & ->) end.
    exists (campaign_at (manager w) id).
    split; [|split; [apply same_terms_refl|by split]].
    apply getCampaign_OK. unfold campaign_exists, campaign_at. simpl.
    rewrite lookup_insert_ne by lia. done.
  - apply on_manager_OK in Hx as (m & Hf & ->).
    apply updateCampaignStatus_OK in Hf as (Ho & _ & ->).
    destruct (decide (campaignId = id)) as [->|Hne].
    + exists (set_isActive isActive (campaign_at (manager w) id)).
      split; [|split; [|split]].
      * apply getCampaign_OK. unfold campaign_exists, campaign_at. simpl.
        rewrite lookup_insert_eq. done.
      * unfold same_terms. simpl. repeat split; lia.
      * intros _. by exists e.
      * done.
    + exists (campaign_at (manager w) id).
      split; [|split; [apply same_terms_refl|by split]].
      apply getCampaign_OK. unfold campaign_exists, campaign_at. simpl.
      rewrite lookup_insert_ne by done. done.
  - apply on_manager_OK in Hx as (m & Hf & ->).
    apply withdrawWithLog_OK in Hf as (_ & _ & _ & _ & _ & _ & _ & _ & ->).
    by apply Hsame.
  - inv_ok. subst w'.
    match goal with Hd : donate _ _ _ _ _ = OK _ |- _ =>
      apply donate_OK in Hd as (_ & Hv & _ & _ & _ & _ & _ & -> & _) end.
    destruct (decide (campaignId = id)) as [->|Hne].
    + exists (set_totalRaised (c_totalRaised (campaign_at (manager w) id) + value)
                (campaign_at (manager w) id)).
      split; [|split; [|split]].
      * apply getCampaign_OK. unfold campaign_exists, campaign_at. simpl.
        rewrite lookup_insert_eq. done.
      * unfold same_terms. simpl. repeat split; lia.
      * done.
      * intros _. by exists e, value.
    + exists (campaign_at (manager w) id).
      split; [|split; [apply same_terms_refl|by split]].
      apply getCampaign_OK. unfold campaign_exists, campaign_at. simpl.
      rewrite lookup_insert_ne by done. done.
  - apply on_manager_OK in Hx as (m & Hf & ->). done.
Qed.

(** X11.  No transaction deletes a campaign or changes its id, title,
    description, image, target, creation time, deadline or creator, and
    none lowers its raised total.  The active flag changes only by an
    [updateCampaignStatus] of the owner for that campaign, and the raised
    total only by a donation to that campaign, by the amount donated. *)
Theorem campaign_terms_are_immutable w c w' id c0 :
  reachable w → exec w c = OK w' →
  getCampaign (manager w) id = OK c0 →
  ∃ c1, getCampaign (manager w') id = OK c1 ∧ same_terms c0 c1 ∧
        (c_isActive c1 ≠ c_isActive c0 →
           ∃ e, c = ManagerUpdateCampaignStatus e id (c_isActive c1) ∧
                msg_sender e = owner (manager w)) ∧
        (c_totalRaised c1 ≠ c_totalRaised c0 →
           ∃ e value, c = ManagerDonate e value id ∧
                      c_totalRaised c1 = c_totalRaised c0 + value).
Proof.
  intros Hw Hx Hg. pose proof (reachable_by_inv _ _ Hw) as [_ _ Hm].
  by eapply campaign_step.
Qed.


Lemma NoDup_fmap_eq {A B} (f : A → B) (l : list A) (x y : A) :
  NoDup (f <$> l) → x ∈ l → y ∈ l → f x = f y → x = y.
Proof.
  induction l as [|z l IH]; intros Hnd Hx Hy Hf.
  - by apply elem_of_nil in Hx.
  - rewrite fmap_cons in Hnd. apply NoDup_cons in Hnd as [Hz Hnd].
    apply elem_of_cons in Hx as [->|Hx]; apply elem_of_cons in Hy as [->|Hy].
    + done.
    + exfalso. apply Hz. rewrite Hf. by apply list_elem_of_fmap_2.
    + exfalso. apply Hz. rewrite <-Hf. by apply list_elem_of_fmap_2.
    + by apply IH.
Qed.

(** X13.  When no two donors have the same total, the leaderboard is
    determined: whatever list arranges the unique donors with their totals
    in descending order, [getLeaderboard] returns its first [count]
    entries.  Ties are the only freedom the exchange sort has. *)
Theorem leaderboard_is_unique_without_ties count m ranked :
  NoDup (leaderboard_entries m).*2 →
  ranked ≡ₚ leaderboard_entries m →
  descending ranked →
  getLeaderboard count m = ((take count ranked).*1, (take count ranked).*2).
Proof.
  intros Hnd Hperm Hdesc.
  destruct (getLeaderboard_ranked count m) as (ranked0 & Hperm0 & Hdesc0 & ->).
  enough (ranked0 = ranked) as -> by done.
  apply (StronglySorted_unique_strong (λ x y : address * Z, y.2 ≤ x.2)).
  - intros x1 x2 Hx1 Hx2 H12 H21.
    apply (NoDup_fmap_eq snd (leaderboard_entries m)); [done | | | lia].
    + by rewrite <-Hperm0.
    + by rewrite <-Hperm.
  - exact Hdesc0.
  - exact Hdesc.
  - by rewrite Hperm0, Hperm.
Qed.

(** ** Certificate Registry *)

Lemma getDonationDetail_OK s t d :
  DonachainNFT.getDonationDetail s t = OK d ↔
  is_Some (DonachainNFT._owners s !! t) ∧ d = DonachainNFT.donationDetails_get s t.
Proof.
  unfold DonachainNFT.getDonationDetail. split.
  - intros Hg. inv_ok. by subst.
  - intros [Ho ->]. by rewrite (require_bind_true (is_Some _)).
Qed.

(** A step of a registry keeps the provenance records it has. *)
Lemma registry_step_details s s' t d :
  registry_inv s → registry_step (Some s) (Some s') →
  DonachainNFT.donationDetails s !! t = Some d →
  DonachainNFT.donationDetails s' !! t = Some d.
Proof.
  intros Hs [Heq | [d' Heq]] Hd; rewrite Heq; [done|].
  rewrite lookup_insert_ne; [done|]. intros <-.
  assert (is_Some (DonachainNFT.donationDetails s !! DonachainNFT._nextTokenId s)) as Hx
    by (by eexists).
  apply (registry_details _ Hs) in Hx. lia.
Qed.

(** X14.  No transaction removes a registry, burns a certificate or
    changes its provenance record: what [getDonationDetail] returns for a
    token id (donor, amount, campaign, title, time, hash and tier) it
    returns after every further transaction, transfers of the token
    included; and the supply of a registry never decreases. *)
Theorem provenance_is_immutable w c w' a s tokenId d :
  reachable w → exec w c = OK w' →
  nfts w !! a = Some s →
  DonachainNFT.getDonationDetail s tokenId = OK d →
  ∃ s', nfts w' !! a = Some s' ∧
        DonachainNFT.getDonationDetail s' tokenId = OK d ∧
        DonachainNFT.totalSupply s ≤ DonachainNFT.totalSupply s'.
Proof.
  intros Hw Hx Hs Hg.
  assert (reachable w') as Hw' by (by apply (reachable_step _ w c)).
  pose proof (reachable_by_inv _ _ Hw) as [Hn _ _].
  pose proof (reachable_by_inv _ _ Hw') as [Hn' _ _].
  pose proof (registry_step_exec w c w' a Hx) as Hstep. rewrite Hs in Hstep.
  destruct (nfts w' !! a) as [s'|] eqn:Hs'; [|done].
  pose proof (Hn _ _ Hs) as Hreg. pose proof (Hn' _ _ Hs') as Hreg'.
  exists s'. split; [done|].
  assert (∀ t, 1 ≤ t < DonachainNFT._nextTokenId s → 1 ≤ t < DonachainNFT._nextTokenId s')
    as Hmono.
  { intros t Ht. apply (registry_details _ Hreg) in Ht as [d' Hd'].
    apply (registry_details _ Hreg'). exists d'.
    by apply (registry_step_details s s'). }
  split.
  - apply getDonationDetail_OK in Hg as [Ho ->]. apply getDonationDetail_OK.
    apply (registry_owners _ Hreg) in Ho. split.
    + apply (registry_owners _ Hreg'). by apply Hmono.
    + apply (registry_details _ Hreg) in Ho as [d' Hd'].
      unfold DonachainNFT.donationDetails_get.
      by rewrite Hd', (registry_step_details s s' _ _ Hreg Hstep Hd').
  - unfold DonachainNFT.totalSupply.
    pose proof (registry_next _ Hreg) as Hnext.
    pose proof (registry_next _ Hreg') as Hnext'.
    destruct (decide (DonachainNFT._nextTokenId s = 1)) as [->|Hne]; [lia|].
    specialize (Hmono (DonachainNFT._nextTokenId s - 1)). lia.
Qed.

(** X15.  In every reachable state the certificates of a registry are
    numbered 1 to [totalSupply] without gaps: [ownerOf] and
    [getDonationDetail] succeed exactly for these ids.  Every provenance
    record names a donor that is not the null address, and its tier is
    Special or the tier of its amount (Gold from 0.1 ether, Silver from
    0.05 ether, Bronze below). *)
Theorem certificates_are_numbered_to_supply w a s :
  reachable w → nfts w !! a = Some s →
  0 ≤ DonachainNFT.totalSupply s ∧
  (∀ t, succeeds (DonachainNFT.ownerOf s t) ↔ 1 ≤ t ≤ DonachainNFT.totalSupply s) ∧
  (∀ t, succeeds (DonachainNFT.getDonationDetail s t) ↔
        1 ≤ t ≤ DonachainNFT.totalSupply s) ∧
  ∀ t d, DonachainNFT.getDonationDetail s t = OK d →
    DonachainNFT.dd_donor d ≠ 0 ∧
    (DonachainNFT.dd_tier d = DonachainNFT.Special ∨
     DonachainNFT.dd_tier d = DonachainNFT.tier_of_amount (DonachainNFT.dd_amount d)).
Proof.
  intros Hw Hs. pose proof (reachable_by_inv _ _ Hw) as [Hn _ _].
  pose proof (reachable_provenances _ Hw _ _ Hs) as Hp.
  pose proof (Hn _ _ Hs) as Hreg. pose proof (registry_next _ Hreg) as Hnext.
  unfold DonachainNFT.totalSupply. split; [lia|]. split; [|split].
  - intros t. unfold succeeds, DonachainNFT.ownerOf. split.
    + intros [o Ho]. destruct (DonachainNFT._owners s !! t) as [o'|] eqn:Ht; [|done].
      assert (is_Some (DonachainNFT._owners s !! t)) as Hx by (by eexists).
      apply (registry_owners _ Hreg) in Hx. lia.
    + intros Ht. assert (1 ≤ t < DonachainNFT._nextTokenId s) as Hx by lia.
      apply (registry_owners _ Hreg) in Hx as [o Ho]. rewrite Ho. by eexists.
  - intros t. split.
    + intros [d [Ho _]%getDonationDetail_OK].
      apply (registry_owners _ Hreg) in Ho. lia.
    + intros Ht. eexists. apply getDonationDetail_OK. split; [|done].
      apply (registry_owners _ Hreg). lia.
  - intros t d [Ho ->]%getDonationDetail_OK.
    apply (registry_owners _ Hreg), (registry_details _ Hreg) in Ho as [d Hd].
    unfold DonachainNFT.donationDetails_get. rewrite Hd. simpl.
    by apply (provenance_records _ Hp t).
Qed.

(** X16.  In every reachable state [getTokensByDonor] returns, in
    ascending order, the ids of the certificates whose provenance record
    names the address as donor: the certificates minted to it, whoever
    owns them now.  The list of an address is not touched by transfers. *)
Theorem getTokensByDonor_lists_certificates_minted_to w a s donor :
  reachable w → nfts w !! a = Some s →
  DonachainNFT.getTokensByDonor s donor =
    filter (λ t, DonachainNFT.dd_donor (DonachainNFT.donationDetails_get s t) = donor)
           (seqZ 1 (DonachainNFT.totalSupply s)) ∧
  ∀ from to tokenId s',
    DonachainNFT.transferFrom from to tokenId s = OK s' →
    DonachainNFT.ownerOf s' tokenId = OK to ∧
    DonachainNFT.getTokensByDonor s' donor = DonachainNFT.getTokensByDonor s donor.
Proof.
  intros Hw Hs. split.
  - apply (provenance_tokens _ (reachable_provenances _ Hw _ _ Hs)).
  - intros from to tokenId s' (_ & _ & ->)%transferFrom_OK. split; [|done].
    unfold DonachainNFT.ownerOf. simpl. by rewrite lookup_insert_eq.
Qed.

(** ** Ballot Registry *)

(** The outcome of a vote, from the invariants of the registries and of
    the ballot. *)
Lemma vote_result ns e campaignId tokenId v :
  registries_inv ns → ballot_inv v →
  Voting.vote ns e campaignId tokenId v =
    match ns !! Voting.nftContract v with
    | None => Err CallFailed
    | Some s =>
        match DonachainNFT._owners s !! tokenId with
        | None => Err NotFound
        | Some o =>
            if decide (o ≠ msg_sender e) then Err NotOwner
            else if decide (tokenId ∈ Voting.tokenUsed v) then Err AlreadyUsed
            else if decide (DonachainNFT.dd_campaignId
                              (DonachainNFT.donationDetails_get s tokenId) ≠ campaignId)
            then Err CampaignMismatch
            else OK (Voting.mkState (Voting.owner v) false (Voting.nftContract v)
                       (<[campaignId := Voting.getVotes v campaignId + 1]>
                          (Voting.campaignVotes v))
                       ({[tokenId]} ∪ Voting.tokenUsed v))
        end
    end.
Proof.
  intros Hn Hv.
  rewrite vote_run by apply (ballot_unlocked _ Hv).
  unfold call_ownerOf, call_donationDetails, DonachainNFT.ownerOf.
  destruct (ns !! Voting.nftContract v) as [s|] eqn:Hs; [|done].
  destruct (DonachainNFT._owners s !! tokenId) as [o|] eqn:Ho; [|done].
  rewrite bind_OK_l.
  destruct (decide (o ≠ msg_sender e)) as [Hne|Heq].
  { by rewrite (require_bind_false (o = msg_sender e)). }
  rewrite (require_bind_true (o = msg_sender e))
    by (by destruct (decide (o = msg_sender e))).
  destruct (decide (tokenId ∈ Voting.tokenUsed v)) as [Hu|Hu].
  { rewrite (require_bind_false (tokenId ∉ _)); [done | by intros Hx]. }
  rewrite (require_bind_true (tokenId ∉ _)) by done.
  rewrite bind_OK_l.
  destruct (decide (DonachainNFT.dd_campaignId
                      (DonachainNFT.donationDetails_get s tokenId) ≠ campaignId))
    as [Hc|Hc].
  { by rewrite (require_bind_false (_ = campaignId)). }
  rewrite (require_bind_true (_ = campaignId))
    by (by destruct (decide (DonachainNFT.dd_campaignId
              (DonachainNFT.donationDetails_get s tokenId) = campaignId))).
  rewrite checked_add_bind; [done|].
  pose proof (ballot_votes_bound _ Hv campaignId) as [_ Hb].
  assert (Z.of_nat (size (Voting.tokenUsed v)) ≤ MAX_UINT256 - 1) as Hsz.
  { apply size_bounded; [pose proof MAX_UINT256_pos; lia|].
    apply (ballot_used_range _ Hv). }
  lia.
Qed.

(** X17.  The outcome of a vote in a reachable state, in the order of
    the checks: [CallFailed] when no registry is deployed at the address
    the ballot consults, [NotFound] for a token that was not minted,
    [NotOwner] when the caller does not own it, [AlreadyUsed] when its
    flag is set, [CampaignMismatch] when its provenance names another
    campaign; otherwise the vote is cast: the flag is set, the tally of
    the campaign is raised by one and nothing else changes.  The lock and
    the addition cannot fail. *)
Theorem vote_outcome w e campaignId tokenId :
  reachable w →
  Voting.vote (nfts w) e campaignId tokenId (voting w) =
    match nfts w !! Voting.nftContract (voting w) with
    | None => Err CallFailed
    | Some s =>
        match DonachainNFT._owners s !! tokenId with
        | None => Err NotFound
        | Some o =>
            if decide (o ≠ msg_sender e) then Err NotOwner
            else if decide (tokenId ∈ Voting.tokenUsed (voting w)) then Err AlreadyUsed
            else if decide (DonachainNFT.dd_campaignId
                              (DonachainNFT.donationDetails_get s tokenId) ≠ campaignId)
            then Err CampaignMismatch
            else OK (Voting.mkState (Voting.owner (voting w)) false
                       (Voting.nftContract (voting w))
                       (<[campaignId := Voting.getVotes (voting w) campaignId + 1]>
                          (Voting.campaignVotes (voting w)))
                       ({[tokenId]} ∪ Voting.tokenUsed (voting w)))
        end
    end.
Proof.
  intros Hw. pose proof (reachable_by_inv _ _ Hw) as [Hn Hv _].
  by apply vote_result.
Qed.

(** X18.  The right to vote travels with the certificate.  After a
    transfer of a certificate of the registry the ballot consults, the
    provenance the ballot reads is unchanged; the former owner's vote with
    it fails with [NotOwner]; the new owner's vote fails with
    [AlreadyUsed] if the certificate had been used, and otherwise succeeds
    for the campaign of its provenance. *)
Theorem voting_right_travels_with_certificate w from to tokenId w' e :
  reachable w →
  exec w (NftTransferFrom (Voting.nftContract (voting w)) from to tokenId) = OK w' →
  ∃ d, call_donationDetails (nfts w) (Voting.nftContract (voting w)) tokenId = OK d ∧
       call_donationDetails (nfts w') (Voting.nftContract (voting w')) tokenId = OK d ∧
       (msg_sender e = from → from ≠ to → ∀ campaignId,
          Voting.vote (nfts w') e campaignId tokenId (voting w') = Err NotOwner) ∧
       (msg_sender e = to → tokenId ∈ Voting.tokenUsed (voting w) → ∀ campaignId,
          Voting.vote (nfts w') e campaignId tokenId (voting w') = Err AlreadyUsed) ∧
       (msg_sender e = to → (tokenId ∉ Voting.tokenUsed (voting w)) →
          succeeds (Voting.vote (nfts w') e (DonachainNFT.dd_campaignId d) tokenId
                      (voting w'))).
Proof.
  intros Hw Hx.
  assert (reachable w') as Hw' by (by eapply (reachable_step _ w)).
  pose proof (reachable_by_inv _ _ Hw') as [Hn' Hv' _].
  pose proof (λ campaignId, vote_result (nfts w') e campaignId tokenId (voting w')
                              Hn' Hv') as Hout.
  simpl in Hx. apply on_nft_OK in Hx as (s & s' & Hs & Hf & ->).
  apply transferFrom_OK in Hf as (Hto & Ho & ->).
  simpl in *. rewrite lookup_insert_eq in Hout. simpl in Hout.
  exists (DonachainNFT.donationDetails_get s tokenId).
  unfold call_donationDetails. rewrite Hs, lookup_insert_eq.
  split; [done|]. split; [done|]. split; [|split].
  - intros He Hne campaignId. rewrite (Hout campaignId).
    rewrite lookup_insert_eq. rewrite decide_True; [done|]. by rewrite He.
  - intros He Hu campaignId. rewrite (Hout campaignId).
    rewrite lookup_insert_eq. rewrite decide_False by (by rewrite He; intros Hne).
    by rewrite decide_True.
  - intros He Hu. rewrite (Hout _).
    rewrite lookup_insert_eq. rewrite decide_False by (by rewrite He; intros Hne).
    rewrite decide_False by done.
    rewrite decide_False by (by intros Hne). by eexists.
Qed.

(** X19.  In every reachable state, also after the ballot has been
    pointed at another registry, the tallies of all campaigns add up to
    the number of token ids whose used-flag is set: every accepted vote
    counts once, for one campaign, and no tally exceeds that number. *)
Theorem tallies_sum_to_used_certificates w :
  reachable w →
  total_votes (voting w) = Z.of_nat (size (Voting.tokenUsed (voting w))) ∧
  ∀ c, 0 ≤ Voting.getVotes (voting w) c ≤ total_votes (voting w).
Proof.
  intros Hw. pose proof (reachable_by_inv _ _ Hw) as [_ Hv _].
  pose proof (reachable_total_votes _ Hw) as Ht. split; [done|].
  intros c. rewrite Ht. apply (ballot_votes_bound _ Hv).
Qed.

(** ** Certificates and donation records *)

(** How a transaction changes the donation records: not at all, or it is
    a donation and appends its record. *)
Lemma donations_exec w c w' :
  exec w c = OK w' →
  allDonations (manager w') = allDonations (manager w) ∨
  ∃ e value campaignId,
    c = ManagerDonate e value campaignId ∧
    manager w' =
      donation_recorded e value campaignId
        (bool_decide (MIN_DONATION_FOR_NFT ≤ value ∧ nftContract (manager w) ≠ 0))
        (manager w).
Proof.
  intros Hx. destruct c; simpl in Hx.
  all: try (apply on_nft_OK in Hx as (s & s' & Hs & Hf & ->); by left).
  all: try (apply on_voting_OK in Hx as (v & Hf & ->); by left).
  - inv_ok. subst w'. by left.
  - inv_ok. subst w'. by left.
  - apply on_manager_OK in Hx as (m & Hf & ->).
    unfold transferOwnership, onlyOwner in Hf. inv_ok. subst m. by left.
  - apply on_manager_OK in Hx as (m & Hf & ->).
    unfold setNFTContract, onlyOwner in Hf. inv_ok. subst m. by left.
  - inv_ok. subst w'.
    match goal with Hc : createCampaign _ _ _ _ _ _ _ = OK _ |- _ =>
      apply createCampaign_OK in Hc as (_ & -> & _ & ->) end.
    by left.
  - apply on_manager_OK in Hx as (m & Hf & ->).
    apply updateCampaignStatus_OK in Hf as (_ & _ & ->). by left.
  - apply on_manager_OK in Hx as (m & Hf & ->).
    apply withdrawWithLog_OK in Hf as (_ & _ & _ & _ & _ & _ & _ & _ & ->). by left.
  - inv_ok. subst w'.
    match goal with Hd : donate _ _ _ _ _ = OK _ |- _ =>
      apply donate_OK in Hd as (_ & _ & _ & _ & _ & _ & _ & -> & _) end.
    right. by exists e, value, campaignId.
  - apply on_manager_OK in Hx as (m & Hf & ->). done.
Qed.

(** Where a provenance record comes from: it was there before the
    transaction, or the transaction is a donation of at least 0.01 ether
    and the record is the one it mints. *)
Lemma details_origin w c w' a s' t detail :
  exec w c = OK w' → no_direct_mint c →
  nfts w' !! a = Some s' →
  DonachainNFT.donationDetails s' !! t = Some detail →
  (∃ s, nfts w !! a = Some s ∧ DonachainNFT.donationDetails s !! t = Some detail) ∨
  (∃ e value campaignId tier,
     c = ManagerDonate e value campaignId ∧
     (MIN_DONATION_FOR_NFT ≤ value ∧ nftContract (manager w) ≠ 0) ∧
     detail = DonachainNFT.mkDetail (msg_sender e) value campaignId
                (c_title (campaign_at (manager w) campaignId))
                (block_timestamp e) (prev_blockhash e) tier).
Proof.
  intros Hx Hc Hs' Hd. destruct c; simpl in Hx, Hc; try done.
  all: try (apply on_voting_OK in Hx as (v & Hf & ->); left; by exists s').
  all: try (apply on_manager_OK in Hx as (m & Hf & ->); left; by exists s').
  - inv_ok. subst w'. simpl in Hs'.
    apply lookup_insert_Some in Hs' as [[<- <-] | [_ Hs']].
    + simpl in Hd. by rewrite lookup_empty in Hd.
    + left. by exists s'.
  - apply on_nft_OK in Hx as (s & s1 & Hs & Hf & ->). simpl in Hs'.
    unfold DonachainNFT.transferOwnership, DonachainNFT.onlyOwner in Hf.
    inv_ok. subst s1.
    apply lookup_insert_Some in Hs' as [[<- <-] | [_ Hs']]; left;
      [by exists s | by exists s'].
  - apply on_nft_OK in Hx as (s & s1 & Hs & Hf & ->). simpl in Hs'.
    unfold DonachainNFT.setDonationManager, DonachainNFT.onlyOwner in Hf.
    inv_ok. subst s1.
    apply lookup_insert_Some in Hs' as [[<- <-] | [_ Hs']]; left;
      [by exists s | by exists s'].
  - apply on_nft_OK in Hx as (s & s1 & Hs & Hf & ->). simpl in Hs'.
    apply transferFrom_OK in Hf as (_ & _ & ->).
    apply lookup_insert_Some in Hs' as [[<- <-] | [_ Hs']]; left;
      [by exists s | by exists s'].
  - inv_ok. subst w'. left. by exists s'.
  - inv_ok. subst w'. simpl in Hs'.
    match goal with Hdo : donate _ _ _ _ _ = OK _ |- _ =>
      apply donate_OK in Hdo as (_ & _ & _ & _ & _ & _ & _ & _ & Hmint) end.
    destruct (bool_decide _) eqn:Hq.
    + apply bool_decide_eq_true in Hq.
      destruct Hmint as [tokenId Hmint].
      apply call_mintCertificate_OK in Hmint as (s0 & s1 & Hs & Hmint & ->).
      apply mintCertificate_OK in Hmint as (_ & _ & -> & _ & _ & ->).
      apply lookup_insert_Some in Hs' as [[<- <-] | [_ Hs']]; [|left; by exists s'].
      simpl in Hd.
      apply lookup_insert_Some in Hd as [[<- <-] | [_ Hd]]; [|left; by exists s0].
      right. by eexists e, value, campaignId, _.
    + subst. left. by exists s'.
Qed.

(** A transaction keeps the title of an existing campaign. *)
Lemma campaign_title_exec w c w' id :
  ledger_inv (manager w) → exec w c = OK w' → campaign_exists (manager w) id →
  c_title (campaign_at (manager w') id) = c_title (campaign_at (manager w) id).
Proof.
  intros Hm Hx Hex.
  destruct (campaign_step w c w' id (campaign_at (manager w) id) Hm Hx)
    as (c1 & Hg & Hsame & _); [by apply getCampaign_OK|].
  apply getCampaign_OK in Hg as [_ ->]. by destruct Hsame as (_ & Ht & _).
Qed.

Lemma certifies_exec w c w' detail d :
  ledger_inv (manager w) → exec w c = OK w' →
  d ∈ allDonations (manager w) →
  certifies (manager w) detail d → certifies (manager w') detail d.
Proof.
  intros Hm Hx Hd (Hf & Hdo & Ha & Hc & Ht & Hts & Hh).
  repeat split; try done.
  rewrite Ht. symmetry. apply (campaign_title_exec w c w'); [done..|].
  apply campaign_exists_iff; [done|]. by apply (ledger_donations _ Hm).
Qed.

Lemma allDonations_exec w c w' d :
  exec w c = OK w' → d ∈ allDonations (manager w) → d ∈ allDonations (manager w').
Proof.
  intros Hx Hd. destruct (donations_exec w c w' Hx) as [-> | (e & v & id & _ & ->)];
    [done|].
  simpl. apply elem_of_app. by left.
Qed.

(** The record and the certificate of a donation of at least 0.01 ether. *)
Lemma certifies_new e value campaignId m tier :
  certifies (donation_recorded e value campaignId true m)
    (DonachainNFT.mkDetail (msg_sender e) value campaignId
       (c_title (campaign_at m campaignId)) (block_timestamp e) (prev_blockhash e) tier)
    (mkDonation (Z.of_nat (length (allDonations m)) + 1) (msg_sender e) campaignId value
       (block_timestamp e) (prev_blockhash e) true).
Proof.
  repeat split. simpl. unfold campaign_at. simpl.
  by rewrite lookup_insert_eq.
Qed.

Lemma minted_have_certificates_exec w c w' :
  exec w c = OK w' → world_inv w →
  minted_have_certificates w → minted_have_certificates w'.
Proof.
  intros Hx [Hn Hv Hm] Hinv d Hd Hflag.
  assert (d ∈ allDonations (manager w) →
          ∃ a s t detail, nfts w' !! a = Some s ∧
            DonachainNFT.donationDetails s !! t = Some detail ∧
            certifies (manager w') detail d) as Hold.
  { intros Hin. destruct (Hinv d Hin Hflag) as (a & s & t & detail & Hs & Hdt & Hcert).
    pose proof (registry_step_exec w c w' a Hx) as Hstep. rewrite Hs in Hstep.
    destruct (nfts w' !! a) as [s'|] eqn:Hs'; [|done].
    exists a, s', t, detail. split; [done|]. split.
    - by apply (registry_step_details s s'); [apply (Hn a)|..].
    - by eapply certifies_exec. }
  destruct (donations_exec w c w' Hx) as [Heq | (e & value & id & -> & Hm')].
  { apply Hold. by rewrite <-Heq. }
  rewrite Hm' in Hd. simpl in Hd.
  apply elem_of_app in Hd as [Hd | Hd%list_elem_of_singleton]; [by apply Hold|].
  subst d. simpl in Hflag. apply bool_decide_eq_true in Hflag.
  rewrite bool_decide_eq_true_2 in Hm' by done.
  simpl in Hx. inv_ok. subst w'. simpl in *. subst.
  match goal with Hdo : donate _ _ _ _ _ = OK _ |- _ =>
    apply donate_OK in Hdo as (_ & _ & _ & _ & _ & _ & _ & _ & Hmint) end.
  rewrite bool_decide_eq_true_2 in Hmint by done.
  destruct Hmint as [tokenId Hmint].
  apply call_mintCertificate_OK in Hmint as (s0 & s1 & Hs & Hmint & ->).
  apply mintCertificate_OK in Hmint as (_ & _ & -> & _ & _ & ->).
  eexists (nftContract (manager w)), _, (DonachainNFT._nextTokenId s0), _.
  split; [by rewrite lookup_insert_eq|]. split.
  - simpl. by rewrite lookup_insert_eq.
  - rewrite bool_decide_eq_true_2 by done. apply certifies_new.
Qed.

Lemma certificates_have_donations_exec w c w' :
  exec w c = OK w' → no_direct_mint c → world_inv w →
  certificates_have_donations w → certificates_have_donations w'.
Proof.
  intros Hx Hc [Hn Hv Hm] Hinv a s' t detail Hs' Hdt.
  destruct (details_origin w c w' a s' t detail Hx Hc Hs' Hdt)
    as [(s & Hs & Hd) | (e & value & id & tier & -> & Hq & ->)].
  - destruct (Hinv a s t detail Hs Hd) as (d & Hin & Hcert).
    exists d. split; [by eapply allDonations_exec | by eapply certifies_exec].
  - destruct (donations_exec w _ w' Hx) as [Heq | (e' & value' & id' & [= <- <- <-] & ->)].
    + exfalso. simpl in Hx. inv_ok. subst w'. simpl in Heq.
      match goal with Hdo : donate _ _ _ _ _ = OK _ |- _ =>
        apply donate_OK in Hdo as (_ & _ & _ & _ & _ & _ & _ & -> & _) end.
      simpl in Heq. apply (f_equal length) in Heq. rewrite length_app in Heq.
      simpl in Heq. lia.
    + rewrite bool_decide_eq_true_2 by done. eexists. split; [|apply certifies_new].
      simpl. apply elem_of_app. right. by apply list_elem_of_singleton.
Qed.

Lemma reachable_minted_have_certificates w :
  reachable w → minted_have_certificates w.
Proof.
  induction 1 as [this admin deployer nft v Hv | w c w' Hr IH _ Hx].
  - intros d Hd. simpl in Hd. by apply elem_of_nil in Hd.
  - eapply minted_have_certificates_exec; [done | | done]. by eapply reachable_by_inv.
Qed.

Lemma reachable_certificates_have_donations w :
  reachable_by no_direct_mint w → certificates_have_donations w.
Proof.
  induction 1 as [this admin deployer nft v Hv | w c w' Hr IH Hc Hx].
  - intros a s t detail Hs. simpl in Hs. by rewrite lookup_empty in Hs.
  - eapply certificates_have_donations_exec; [done | done | | done].
    by eapply reachable_by_inv.
Qed.

(** X20.  In every reachable state every donation record flagged
    [nftMinted] has its certificate: some deployed registry holds a token
    whose provenance, as [getDonationDetail] returns it, carries the donor,
    amount, campaign id, campaign title, time and hash of that record. *)
Theorem minted_donations_have_certificates w d :
  reachable w →
  d ∈ getAllDonations (manager w) → d_nftMinted d = true →
  ∃ a s tokenId detail,
    nfts w !! a = Some s ∧
    DonachainNFT.getDonationDetail s tokenId = OK detail ∧
    certifies (manager w) detail d.
Proof.
  intros Hw Hd Hflag. pose proof (reachable_by_inv _ _ Hw) as [Hn _ _].
  destruct (reachable_minted_have_certificates w Hw d Hd Hflag)
    as (a & s & t & detail & Hs & Hdt & Hcert).
  exists a, s, t, detail. split; [done|]. split; [|done].
  apply getDonationDetail_OK. split.
  - apply (registry_owners _ (Hn _ _ Hs)), (registry_details _ (Hn _ _ Hs)). by eexists.
  - unfold DonachainNFT.donationDetails_get. by rewrite Hdt.
Qed.

(** X21.  As long as no account calls [mintCertificate] itself, so that
    certificates are minted by donations only, every certificate of every
    registry is backed by a donation record of the ledger, flagged
    [nftMinted], with the donor, amount, campaign id, campaign title, time
    and hash of its provenance. *)
Theorem certificates_are_backed_by_donations w a s tokenId detail :
  reachable_by no_direct_mint w →
  nfts w !! a = Some s →
  DonachainNFT.getDonationDetail s tokenId = OK detail →
  ∃ d, d ∈ getAllDonations (manager w) ∧ certifies (manager w) detail d.
Proof.
  intros Hw Hs Hg. pose proof (reachable_by_inv _ _ Hw) as [Hn _ _].
  apply getDonationDetail_OK in Hg as [Ho ->].
  apply (registry_owners _ (Hn _ _ Hs)), (registry_details _ (Hn _ _ Hs)) in Ho
    as [detail Hdt].
  unfold DonachainNFT.donationDetails_get. rewrite Hdt. simpl.
  by apply (reachable_certificates_have_donations w Hw a s tokenId).
Qed.

(** ** The unique donors *)

(** X22.  In every reachable state [uniqueDonors] holds the donors of
    the recorded donations, each once, in the order of their first
    donation: this is the order in which the leaderboard takes them up. *)
Theorem unique_donors_in_order_of_first_donation w :
  reachable w →
  uniqueDonors (manager w) = first_donors (getAllDonations (manager w)) ∧
  NoDup (uniqueDonors (manager w)) ∧
  ∀ a, a ∈ uniqueDonors (manager w) ↔ a ∈ d_donor <$> getAllDonations (manager w).
Proof.
  intros Hw. pose proof (reachable_by_inv _ _ Hw) as [_ _ Hm].
  pose proof (reachable_records _ Hw) as Hr.
  split; [apply (records_donor_order _ Hr)|].
  split; [apply (ledger_unique_donors _ Hm)|].
  intros a. unfold getAllDonations.
  rewrite (ledger_donors _ Hm), list_elem_of_fmap.
  split; intros (d & Ha & Hb); by exists d.
Qed.

End Extras.

(** ** The amount shown on a certificate *)

Section Format.
Import DonachainNFT.

Lemma dotless_pretty_N_go (x : N) (s : string) :
  dotless s → dotless (pretty_N_go x s).
Proof.
  revert s. induction (N.lt_wf_0 x) as [x _ IH]; intros s Hs.
  assert (x = 0 ∨ 0 < x)%N as [->|Hx] by lia.
  - by rewrite pretty_N_go_0.
  - rewrite pretty_N_go_step by done. apply IH.
    + by apply N.div_lt.
    + simpl. split; [|done]. unfold pretty_N_char. by repeat case_match.
Qed.

Lemma dotless_toString (n : Z) : dotless (toString n).
Proof.
  unfold toString, pretty, pretty_N. case_decide.
  - simpl. split; [by intros [=] | done].
  - by apply dotless_pretty_N_go.
Qed.

Lemma dotless_no_point (s a b : string) : dotless s → s ≠ a +:+ "." +:+ b.
Proof.
  revert a. induction s as [|c s IH]; intros a Hs Heq.
  - by destruct a.
  - destruct Hs as [Hc Hs]. destruct a as [|c' a]; cbn in Heq.
    + injection Heq as Hc' _. by subst.
    + injection Heq as _ Heq. by apply (IH a).
Qed.

Lemma split_at_point (a1 a2 b1 b2 : string) :
  dotless a1 → dotless a2 →
  a1 +:+ "." +:+ b1 = a2 +:+ "." +:+ b2 → a1 = a2 ∧ b1 = b2.
Proof.
  revert a2. induction a1 as [|c a1 IH]; intros [|c' a2] H1 H2 Heq; cbn in *.
  - injection Heq as Heq. by subst.
  - injection Heq as Hc _. destruct H2 as [H2 _]. by subst.
  - injection Heq as Hc _. destruct H1 as [H1 _]. by subst.
  - injection Heq as Hc Heq. destruct H1 as [_ H1], H2 as [_ H2].
    destruct (IH a2 H1 H2 Heq) as [-> ->]. by subst.
Qed.

Lemma toString_inj (m n : Z) : 0 ≤ m → 0 ≤ n → toString m = toString n → m = n.
Proof.
  unfold toString. intros Hm Hn Heq. apply (inj pretty) in Heq. lia.
Qed.

Lemma pad_loop_stable (fuel : nat) (s : string) :
  (4 ≤ String.length s)%nat → pad_loop fuel s = s.
Proof.
  intros Hs. destruct fuel as [|fuel]; [done|]. simpl.
  rewrite decide_False by lia. done.
Qed.

(** Four rounds are enough: with more fuel the loop does the same. *)
Lemma pad_loop_enough (fuel k : nat) (s : string) :
  (4 ≤ String.length s + fuel)%nat → pad_loop (fuel + k) s = pad_loop fuel s.
Proof.
  revert s. induction fuel as [|fuel IH]; intros s Hs.
  - simpl. apply pad_loop_stable. lia.
  - simpl. case_decide; [|done]. apply IH.
    change (String.length ("0" +:+ s)) with (S (String.length s)). lia.
Qed.

(** The padded decimals of 1, ..., 9999: four digits that read back as
    the number. *)
Lemma padded_decimals (d : Z) :
  1 ≤ d < 10 ^ 4 →
  String.length (pad_loop 4 (toString d)) = 4%nat ∧
  decimal_value 0 (pad_loop 4 (toString d)) = d.
Proof.
  intros Hd.
  assert (Forall (λ d, String.length (pad_loop 4 (toString d)) = 4%nat ∧
                       decimal_value 0 (pad_loop 4 (toString d)) = d)
            (seqZ 1 9999)) as Hall.
  { apply (bool_decide_unpack _). by vm_compute. }
  rewrite Forall_forall in Hall. apply Hall, elem_of_seqZ.
  change (10 ^ 4) with 10000 in Hd. lia.
Qed.

Lemma wei_parts (w : Z) :
  w / 10 ^ 18 = w / 10 ^ 14 / 10 ^ 4 ∧
  (w `mod` 10 ^ 18) / 10 ^ 14 = (w / 10 ^ 14) `mod` 10 ^ 4.
Proof.
  change (10 ^ 18) with (10 ^ 14 * 10 ^ 4). split.
  - by rewrite Z.div_div by done.
  - rewrite Z.rem_mul_r by done.
    rewrite (Z.mul_comm (10 ^ 14)), Z.div_add by done.
    rewrite Z.div_small; [lia|]. by apply Z.mod_pos_bound.
Qed.

(** X23.  [_formatEther] shows an amount in ether cut, not rounded, to
    four decimals: two amounts get the same string exactly when they agree
    up to 0.0001 ether.  When the cut amount has a fractional part, the
    string is the whole ether, a point and exactly four digits; the padding
    loop ends by its own test within four rounds. *)
Theorem formatEther_shows_amount_to_four_decimals w1 w2 :
  0 ≤ w1 → 0 ≤ w2 →
  (_formatEther w1 = _formatEther w2 ↔ w1 / 10 ^ 14 = w2 / 10 ^ 14) ∧
  ((w1 `mod` 10 ^ 18) / 10 ^ 14 ≠ 0 →
     ∃ decimals,
       _formatEther w1 = toString (w1 / 10 ^ 18) +:+ "." +:+ decimals ∧
       String.length decimals = 4%nat ∧
       ∀ fuel, (4 ≤ fuel)%nat →
         pad_loop fuel (toString ((w1 `mod` 10 ^ 18) / 10 ^ 14)) = decimals).
Proof.
  intros H1 H2.
  assert (∀ w, 0 ≤ w → 0 ≤ w / 10 ^ 18 ∧ 0 ≤ (w `mod` 10 ^ 18) / 10 ^ 14 < 10 ^ 4)
    as Hrange.
  { intros w Hw. split; [by apply Z.div_pos|].
    destruct (wei_parts w) as [_ ->]. by apply Z.mod_pos_bound. }
  split; [split|].
  - unfold _formatEther. cbv zeta.
    destruct (Hrange w1 H1) as [Hw1 Hd1], (Hrange w2 H2) as [Hw2 Hd2].
    intros Heq.
    assert (w1 / 10 ^ 18 = w2 / 10 ^ 18 ∧
            (w1 `mod` 10 ^ 18) / 10 ^ 14 = (w2 `mod` 10 ^ 18) / 10 ^ 14) as [Hw Hd].
    { repeat case_decide.
      - split; [by apply toString_inj | congruence].
      - exfalso. by eapply dotless_no_point; [apply dotless_toString | exact Heq].
      - exfalso. by eapply dotless_no_point; [apply dotless_toString | symmetry; exact Heq].
      - apply split_at_point in Heq as [Hw Hp]; try apply dotless_toString.
        split; [by apply toString_inj|].
        destruct (padded_decimals ((w1 `mod` 10 ^ 18) / 10 ^ 14)) as [_ <-]; [lia|].
        destruct (padded_decimals ((w2 `mod` 10 ^ 18) / 10 ^ 14)) as [_ <-]; [lia|].
        by rewrite Hp. }
    destruct (wei_parts w1) as [Ha1 Hb1], (wei_parts w2) as [Ha2 Hb2].
    rewrite (Z.div_mod (w1 / 10 ^ 14) (10 ^ 4)), (Z.div_mod (w2 / 10 ^ 14) (10 ^ 4))
      by done.
    congruence.
  - intros Heq. unfold _formatEther.
    destruct (wei_parts w1) as [-> ->], (wei_parts w2) as [-> ->]. by rewrite Heq.
  - intros Hne. unfold _formatEther. cbv zeta. rewrite decide_False by done.
    destruct (Hrange w1 H1) as [_ Hd1].
    exists (pad_loop 4 (toString ((w1 `mod` 10 ^ 18) / 10 ^ 14))).
    split; [done|]. split.
    + apply padded_decimals. lia.
    + intros fuel Hfuel. replace fuel with (4 + (fuel - 4))%nat by lia.
      apply pad_loop_enough. lia.
Qed.
End Format.


(** * The further properties on the concrete deployment *)

Lemma world_ranked_reachable : @reachable fixed_keccak plain_recipients world_ranked.
Proof.
  apply reachable_run, (reachable_by_reachable keeps_registry), world_setup_reachable.
Qed.

Lemma world_spent_reachable : @reachable fixed_keccak plain_recipients world_spent.
Proof. apply reachable_run, world_ranked_reachable. Qed.

Lemma world_donated_is_reachable : @reachable fixed_keccak plain_recipients world_donated.
Proof. apply (reachable_by_reachable keeps_registry), world_donated_reachable. Qed.

Lemma world_voted_is_reachable : @reachable fixed_keccak plain_recipients world_voted.
Proof. apply (reachable_by_reachable keeps_registry), world_voted_reachable. Qed.

(** X1 on the deployment: one campaign, with id 1. *)
Lemma campaign_ids_are_sequential_witness :
  @reachable fixed_keccak plain_recipients world_donated ∧
  DonationManager.campaignIds (manager world_donated) =
    seqZ 1 (DonationManager._nextCampaignId (manager world_donated) - 1) ∧
  DonationManager._nextCampaignId (manager world_donated) = 2.
Proof.
  split; [exact world_donated_is_reachable|].
  split; [|by vm_compute].
  exact (proj1 (@campaign_ids_are_sequential fixed_keccak plain_recipients world_donated
                  world_donated_is_reachable)).
Defined.

(** X2 on the deployment: the first entry of the list is campaign 1. *)
Lemma getAllCampaigns_matches_getCampaign_witness :
  @reachable fixed_keccak plain_recipients world_donated ∧
  DonationManager.getCampaign (manager world_donated) 1
    = OK (DonationManager.campaign_at (manager world_donated) 1) ∧
  DonationManager.getAllCampaigns (manager world_donated) !! 0%nat
    = Some (DonationManager.campaign_at (manager world_donated) 1).
Proof.
  assert (DonationManager.getCampaign (manager world_donated) (Z.of_nat 0 + 1)
          = OK (DonationManager.campaign_at (manager world_donated) 1)) as Hg
    by (by vm_compute).
  split; [exact world_donated_is_reachable|]. split; [exact Hg|].
  exact (proj2 (@getAllCampaigns_matches_getCampaign fixed_keccak plain_recipients
                  world_donated 0%nat _ world_donated_is_reachable) Hg).
Defined.


(** X5 on the deployment: campaign 1 has raised all 6 wei. *)
Lemma raised_totals_add_up_witness :
  @reachable fixed_keccak plain_recipients world_ranked ∧
  raised_total (DonationManager.getAllCampaigns (manager world_ranked))
    = DonationManager.totalDonationsReceived (manager world_ranked) ∧
  DonationManager.totalDonationsReceived (manager world_ranked) = 6.
Proof.
  split; [exact world_ranked_reachable|]. split; [|by vm_compute].
  exact (@raised_totals_add_up fixed_keccak plain_recipients world_ranked
           world_ranked_reachable).
Defined.

(** X6 on the deployment: the three donations to campaign 1. *)
Lemma getDonationsForCampaign_lists_its_donations_witness :
  @reachable fixed_keccak plain_recipients world_ranked ∧
  ∃ ds, DonationManager.getDonationsForCampaign (manager world_ranked) 1 = Some ds ∧
        total_donated ds
          = DonationManager.c_totalRaised
              (DonationManager.campaign_at (manager world_ranked) 1).
Proof.
  split; [exact world_ranked_reachable|].
  destruct (@getDonationsForCampaign_lists_its_donations fixed_keccak plain_recipients
              world_ranked 1 world_ranked_reachable) as (ds & Hds & _ & Hsum).
  exists ds. split; [exact Hds | exact Hsum].
Defined.

(** X7 on the deployment: Bob's donation of 3 wei. *)
Lemma getDonationsByDonor_lists_their_donations_witness :
  @reachable fixed_keccak plain_recipients world_ranked ∧
  ∃ ds, DonationManager.getDonationsByDonor (manager world_ranked) bob = Some ds ∧
        total_donated ds = DonationManager.donor_total (manager world_ranked) bob.
Proof.
  split; [exact world_ranked_reachable|].
  destruct (@getDonationsByDonor_lists_their_donations fixed_keccak plain_recipients
              world_ranked bob world_ranked_reachable) as (ds & Hds & _ & Hsum & _).
  exists ds. split; [exact Hds | exact Hsum].
Defined.

(** X8 on the deployment: one expense, so the next expense id is 2. *)
Lemma record_ids_are_positions_witness :
  @reachable fixed_keccak plain_recipients world_spent ∧
  DonationManager._nextExpenseId (manager world_spent)
    = Z.of_nat (length (DonationManager.getAllExpenses (manager world_spent))) + 1 ∧
  DonationManager._nextExpenseId (manager world_spent) = 2.
Proof.
  split; [exact world_spent_reachable|]. split; [|by vm_compute].
  exact (proj2 (proj2 (@record_ids_are_positions fixed_keccak plain_recipients world_spent
                         world_spent_reachable))).
Defined.



(** X11 on the deployment: closing campaign 1 changes its flag only. *)
Lemma campaign_terms_are_immutable_witness :
  @exec fixed_keccak plain_recipients world_donated
    (ManagerUpdateCampaignStatus (at_time admin 40) 1 false) = OK world_closed ∧
  DonationManager.getCampaign (manager world_donated) 1
    = OK (DonationManager.campaign_at (manager world_donated) 1) ∧
  ∃ c1, DonationManager.getCampaign (manager world_closed) 1 = OK c1 ∧
        same_terms (DonationManager.campaign_at (manager world_donated) 1) c1.
Proof.
  assert (@exec fixed_keccak plain_recipients world_donated
            (ManagerUpdateCampaignStatus (at_time admin 40) 1 false) = OK world_closed)
    as Hx by (by vm_compute).
  assert (DonationManager.getCampaign (manager world_donated) 1
          = OK (DonationManager.campaign_at (manager world_donated) 1)) as Hg
    by (by vm_compute).
  split; [exact Hx|]. split; [exact Hg|].
  destruct (@campaign_terms_are_immutable fixed_keccak plain_recipients world_donated
              _ _ 1 _ world_donated_is_reachable Hx Hg) as (c1 & Hg1 & Hsame & _).
  exists c1. split; [exact Hg1 | exact Hsame].
Defined.


(** X13 on the deployment: Bob (3 wei) before Carol (2) before Alice (1). *)
Lemma leaderboard_is_unique_without_ties_witness :
  let ranked := [(bob, 3); (carol, 2); (alice, 1)] in
  NoDup (leaderboard_entries (manager world_ranked)).*2 ∧
  ranked ≡ₚ leaderboard_entries (manager world_ranked) ∧
  descending ranked ∧
  DonationManager.getLeaderboard 2 (manager world_ranked)
    = ((take 2 ranked).*1, (take 2 ranked).*2).
Proof.
  intros ranked.
  assert (leaderboard_entries (manager world_ranked) = [(alice, 1); (bob, 3); (carol, 2)])
    as Heq by (by vm_compute).
  assert (NoDup (leaderboard_entries (manager world_ranked)).*2) as Hnd.
  { rewrite Heq. apply (bool_decide_unpack _). by vm_compute. }
  assert (ranked ≡ₚ leaderboard_entries (manager world_ranked)) as Hperm.
  { rewrite Heq. symmetry. apply (Permutation_cons_append [(bob, 3); (carol, 2)]). }
  assert (descending ranked) as Hdesc.
  { apply (bool_decide_unpack _). by vm_compute. }
  split; [exact Hnd|]. split; [exact Hperm|]. split; [exact Hdesc|].
  exact (leaderboard_is_unique_without_ties 2 (manager world_ranked) ranked
           Hnd Hperm Hdesc).
Defined.

(** X14 on the deployment: the provenance of certificate 1 survives its
    transfer to Bob. *)
Lemma provenance_is_immutable_witness :
  let d := DonachainNFT.donationDetails_get (registry_in world_donated) 1 in
  @reachable fixed_keccak plain_recipients world_donated ∧
  @exec fixed_keccak plain_recipients world_donated
    (NftTransferFrom registry_addr alice bob 1) = OK world_handed ∧
  nfts world_donated !! registry_addr = Some (registry_in world_donated) ∧
  DonachainNFT.getDonationDetail (registry_in world_donated) 1 = OK d ∧
  ∃ s', nfts world_handed !! registry_addr = Some s' ∧
        DonachainNFT.getDonationDetail s' 1 = OK d.
Proof.
  intros d.
  assert (@exec fixed_keccak plain_recipients world_donated
            (NftTransferFrom registry_addr alice bob 1) = OK world_handed) as Hx
    by (by vm_compute).
  assert (nfts world_donated !! registry_addr = Some (registry_in world_donated)) as Hs
    by (by vm_compute).
  assert (DonachainNFT.getDonationDetail (registry_in world_donated) 1 = OK d) as Hg
    by (by vm_compute).
  split; [exact world_donated_is_reachable|]. split; [exact Hx|].
  split; [exact Hs|]. split; [exact Hg|].
  destruct (@provenance_is_immutable fixed_keccak plain_recipients world_donated _ _
              registry_addr _ 1 d world_donated_is_reachable Hx Hs Hg)
    as (s' & Hs' & Hg' & _).
  exists s'. split; [exact Hs' | exact Hg'].
Defined.

(** X15 on the deployment: one certificate, with id 1. *)
Lemma certificates_are_numbered_to_supply_witness :
  @reachable fixed_keccak plain_recipients world_donated ∧
  nfts world_donated !! registry_addr = Some (registry_in world_donated) ∧
  DonachainNFT.totalSupply (registry_in world_donated) = 1 ∧
  succeeds (DonachainNFT.getDonationDetail (registry_in world_donated) 1) ∧
  ¬ succeeds (DonachainNFT.getDonationDetail (registry_in world_donated) 2).
Proof.
  assert (nfts world_donated !! registry_addr = Some (registry_in world_donated)) as Hs
    by (by vm_compute).
  assert (DonachainNFT.totalSupply (registry_in world_donated) = 1) as Hn
    by (by vm_compute).
  destruct (@certificates_are_numbered_to_supply fixed_keccak plain_recipients
              world_donated registry_addr _ world_donated_is_reachable Hs)
    as (_ & _ & Hiff & _).
  split; [exact world_donated_is_reachable|]. split; [exact Hs|]. split; [exact Hn|].
  split.
  - apply Hiff. rewrite Hn. lia.
  - intros Hok. apply Hiff in Hok. rewrite Hn in Hok. lia.
Defined.

(** X16 on the deployment: certificate 1 stays on Alice's list when Bob
    owns it. *)
Lemma getTokensByDonor_lists_certificates_minted_to_witness :
  @reachable fixed_keccak plain_recipients world_handed ∧
  nfts world_handed !! registry_addr = Some (registry_in world_handed) ∧
  DonachainNFT.getTokensByDonor (registry_in world_handed) alice =
    filter (λ t, DonachainNFT.dd_donor
                   (DonachainNFT.donationDetails_get (registry_in world_handed) t) = alice)
           (seqZ 1 (DonachainNFT.totalSupply (registry_in world_handed))) ∧
  DonachainNFT.getTokensByDonor (registry_in world_handed) alice = [1] ∧
  DonachainNFT.ownerOf (registry_in world_handed) 1 = OK bob.
Proof.
  assert (@reachable fixed_keccak plain_recipients world_handed) as Hr
    by apply reachable_run, world_donated_is_reachable.
  assert (nfts world_handed !! registry_addr = Some (registry_in world_handed)) as Hs
    by (by vm_compute).
  split; [exact Hr|]. split; [exact Hs|].
  split; [|split; by vm_compute].
  exact (proj1 (@getTokensByDonor_lists_certificates_minted_to fixed_keccak
                  plain_recipients world_handed registry_addr _ alice Hr Hs)).
Defined.

(** X17 on the deployment: Bob's vote with Alice's certificate. *)
Lemma vote_outcome_witness :
  @reachable fixed_keccak plain_recipients world_donated ∧
  Voting.vote (nfts world_donated) (at_time bob 50) 1 1 (voting world_donated)
    = Err NotOwner.
Proof.
  split; [exact world_donated_is_reachable|].
  rewrite (@vote_outcome fixed_keccak plain_recipients world_donated (at_time bob 50) 1 1
             world_donated_is_reachable).
  by vm_compute.
Defined.

(** X18 on the deployment: once Bob owns certificate 1 Bob's vote counts,
    for the campaign Alice gave to. *)
Lemma voting_right_travels_with_certificate_witness :
  @reachable fixed_keccak plain_recipients world_donated ∧
  @exec fixed_keccak plain_recipients world_donated
    (NftTransferFrom (Voting.nftContract (voting world_donated)) alice bob 1)
    = OK world_handed ∧
  ∃ d, call_donationDetails (nfts world_donated)
         (Voting.nftContract (voting world_donated)) 1 = OK d ∧
       succeeds (Voting.vote (nfts world_handed) (at_time bob 60)
                   (DonachainNFT.dd_campaignId d) 1 (voting world_handed)).
Proof.
  assert (@exec fixed_keccak plain_recipients world_donated
            (NftTransferFrom (Voting.nftContract (voting world_donated)) alice bob 1)
          = OK world_handed) as Hx by (by vm_compute).
  split; [exact world_donated_is_reachable|]. split; [exact Hx|].
  destruct (@voting_right_travels_with_certificate fixed_keccak plain_recipients
              world_donated alice bob 1 world_handed (at_time bob 60)
              world_donated_is_reachable Hx) as (d & Hd & _ & _ & _ & Hvote).
  exists d. split; [exact Hd|]. apply Hvote; [reflexivity|].
  vm_compute. intros Hin. discriminate Hin.
Defined.

(** X19 on the deployment: one vote, one used certificate. *)
Lemma tallies_sum_to_used_certificates_witness :
  @reachable fixed_keccak plain_recipients world_repointed ∧
  total_votes (voting world_repointed)
    = Z.of_nat (size (Voting.tokenUsed (voting world_repointed))) ∧
  total_votes (voting world_repointed) = 1.
Proof.
  split; [exact world_repointed_reachable|]. split; [|by vm_compute].
  exact (proj1 (@tallies_sum_to_used_certificates fixed_keccak plain_recipients
                  world_repointed world_repointed_reachable)).
Defined.

(** X20 on the deployment: Alice's donation and certificate 1. *)
Lemma minted_donations_have_certificates_witness :
  let d := DonationManager.mkDonation 1 alice 1 20000000000000000 20 0 true in
  @reachable fixed_keccak plain_recipients world_donated ∧
  d ∈ DonationManager.getAllDonations (manager world_donated) ∧
  ∃ a s tokenId detail,
    nfts world_donated !! a = Some s ∧
    DonachainNFT.getDonationDetail s tokenId = OK detail ∧
    certifies (manager world_donated) detail d.
Proof.
  intros d.
  assert (DonationManager.getAllDonations (manager world_donated) = [d]) as Heq
    by (by vm_compute).
  assert (d ∈ DonationManager.getAllDonations (manager world_donated)) as Hd
    by (rewrite Heq; apply list_elem_of_singleton; reflexivity).
  split; [exact world_donated_is_reachable|]. split; [exact Hd|].
  exact (@minted_donations_have_certificates fixed_keccak plain_recipients world_donated d
           world_donated_is_reachable Hd eq_refl).
Defined.

Lemma world_donated_by_donations :
  @reachable_by fixed_keccak plain_recipients no_direct_mint world_donated.
Proof.
  apply reachable_by_run; [|repeat constructor].
  apply reachable_by_run; [apply world_init_reachable | repeat constructor].
Qed.

(** X21 on the deployment: certificate 1 is Alice's donation. *)
Lemma certificates_are_backed_by_donations_witness :
  let detail := DonachainNFT.donationDetails_get (registry_in world_donated) 1 in
  @reachable_by fixed_keccak plain_recipients no_direct_mint world_donated ∧
  nfts world_donated !! registry_addr = Some (registry_in world_donated) ∧
  DonachainNFT.getDonationDetail (registry_in world_donated) 1 = OK detail ∧
  ∃ d, d ∈ DonationManager.getAllDonations (manager world_donated) ∧
       certifies (manager world_donated) detail d.
Proof.
  intros detail.
  assert (nfts world_donated !! registry_addr = Some (registry_in world_donated)) as Hs
    by (by vm_compute).
  assert (DonachainNFT.getDonationDetail (registry_in world_donated) 1 = OK detail) as Hg
    by (by vm_compute).
  split; [exact world_donated_by_donations|]. split; [exact Hs|]. split; [exact Hg|].
  exact (@certificates_are_backed_by_donations fixed_keccak plain_recipients world_donated
           registry_addr _ 1 detail world_donated_by_donations Hs Hg).
Defined.

(** X22 on the deployment: Alice has given twice and is listed once,
    first. *)
Lemma unique_donors_in_order_of_first_donation_witness :
  @reachable fixed_keccak plain_recipients world_again ∧
  DonationManager.uniqueDonors (manager world_again)
    = first_donors (DonationManager.getAllDonations (manager world_again)) ∧
  DonationManager.d_donor <$> DonationManager.getAllDonations (manager world_again)
    = [alice; bob; carol; alice] ∧
  DonationManager.uniqueDonors (manager world_again) = [alice; bob; carol].
Proof.
  assert (@reachable fixed_keccak plain_recipients world_again) as Hr
    by apply reachable_run, world_ranked_reachable.
  split; [exact Hr|]. split; [|split; by vm_compute].
  exact (proj1 (@unique_donors_in_order_of_first_donation fixed_keccak plain_recipients
                  world_again Hr)).
Defined.

(** X23 on two amounts: 0.05 ether, alone and with 99999 wei more. *)
Lemma formatEther_shows_amount_to_four_decimals_witness :
  DonachainNFT._formatEther 50000000000000000
    = DonachainNFT._formatEther 50000000000099999 ∧
  DonachainNFT._formatEther 50000000000000000 = "0.0500" ∧
  DonachainNFT._formatEther 2000000000000000000 = "2".
Proof.
  split; [|split; by vm_compute].
  apply (proj1 (formatEther_shows_amount_to_four_decimals 50000000000000000
                  50000000000099999 ltac:(lia) ltac:(lia))).
  by vm_compute.
Defined.
